(** * Travel advisory pipeline: a shallow embedding of [travel_advisory/main.py]

    The development follows the source file top to bottom: Python's string
    primitives and the fragment of [re] the program uses, the title parser,
    the text normalizer, the regional-warning extractor, the record parser,
    the prohibited-country predicate, the deduplicator, the risk classifier
    and the verification engine ([compute_data_hash], [run_assertions]),
    then the part of [main] between the fetch and the report.  The
    properties of the specification follow the definitions.

    Modelling conventions.
    - A Python [str] is the list of its characters, read as the code points
      U+0000 to U+00FF ([list ascii]); [str.isspace], [str.lower] and the
      classes of [re] are Python's on these.  [str.upper] leaves the range
      (U+00B5, U+00DF, U+00FF), so its result is a list of code points.
    - A Python [int] is a [Z]; a call that may raise returns an [outcome].
    - A [datetime] is the record of its civil fields and its UTC offset;
      comparison and [isoformat] follow the library.
    - The quotient of two [int]s is the nearest double, computed on
      integers; [hashlib.sha256] is computed after FIPS 180-4.
    - Library functions that read free text ([html.unescape],
      [datetime.fromisoformat]) and the wall clock ([datetime.now]) are
      parameters of the record parser.
    - A raw record holds, for each key the parser reads, nothing or a value
      of the type the input boundary promises. *)

From Stdlib Require Import List String Ascii ZArith NArith Lia Bool Arith.
From Stdlib Require Import Permutation Sorting.Sorted.
From Stdlib Require Floats.PrimFloat Floats.FloatOps Floats.SpecFloat.
From Stdlib Require Numbers.Cyclic.Int63.Uint63.
Import ListNotations.

Local Open Scope bool_scope.

(* ===================================================================== *)
(** * Python strings *)
(* ===================================================================== *)

Module PyStr.

Definition str := list ascii.

(** Literals are written as Rocq strings and read as character lists. *)
Definition lit (s : string) : str := list_ascii_of_string s.

Definition code (c : ascii) : N := N_of_ascii c.

Definition in_range (lo hi : N) (c : ascii) : bool :=
  (N.leb lo (code c)) && (N.leb (code c) hi).

(** A text whose characters may lie beyond U+00FF, as the list of its code
    points. *)
Definition text := list Z.

(** [ord(c)] *)
Definition ord (c : ascii) : Z := Z.of_N (code c).

Definition to_text (s : str) : text := map ord s.

(** [a == b] on texts. *)
Fixpoint text_eqb (a b : text) : bool :=
  match a, b with
  | [], [] => true
  | x :: a', y :: b' => (x =? y)%Z && text_eqb a' b'
  | _, _ => false
  end.

(** [str.isspace] on one character, which is also the class [\s] of [re]
    for [str] patterns and what [str.strip] removes: TAB, LF, VT, FF, CR,
    FS, GS, RS, US, SPACE, NEL (U+0085) and NO-BREAK SPACE (U+00A0). *)
Definition isspace (c : ascii) : bool :=
  in_range 9 13 c || in_range 28 32 c
  || N.eqb (code c) 133 || N.eqb (code c) 160.

(** [\d] of [re]: a decimal digit. *)
Definition isdigit (c : ascii) : bool := in_range 48 57 c.

(** [int(c)] for a character of class [\d]. *)
Definition digit_value (c : ascii) : Z := Z.of_N (code c) - 48.

(** The capital letters: A to Z, and U+00C0 to U+00DE without the
    multiplication sign U+00D7. *)
Definition is_capital (c : ascii) : bool :=
  in_range 65 90 c || in_range 192 214 c || in_range 216 222 c.

(** Their lower-case forms, 32 places on: a to z, and U+00E0 to U+00FE
    without the division sign U+00F7. *)
Definition has_capital (c : ascii) : bool :=
  in_range 97 122 c || in_range 224 246 c || in_range 248 254 c.

(** [c.lower()] *)
Definition lower_char (c : ascii) : ascii :=
  if is_capital c then ascii_of_N (code c + 32) else c.

(** The capital form of a character, where it is one character below
    U+0100. *)
Definition capital_char (c : ascii) : ascii :=
  if has_capital c then ascii_of_N (code c - 32) else c.

(** [c.upper()]: the sharp s (U+00DF) becomes "SS", the micro sign (U+00B5)
    the Greek capital mu (U+039C), the y with diaeresis (U+00FF) its
    capital U+0178. *)
Definition upper_char (c : ascii) : text :=
  if has_capital c then [(ord c - 32)%Z]
  else if N.eqb (code c) 223 then [83; 83]%Z
  else if N.eqb (code c) 181 then [924]%Z
  else if N.eqb (code c) 255 then [376]%Z
  else [ord c].

(** [s.lower()] and [s.upper()]. *)
Definition lower (s : str) : str := map lower_char s.
Definition upper (s : str) : text := flat_map upper_char s.

Fixpoint lstrip (s : str) : str :=
  match s with
  | c :: s' => if isspace c then lstrip s' else s
  | [] => []
  end.

Definition rstrip (s : str) : str := rev (lstrip (rev s)).

(** [s.strip()]. *)
Definition strip (s : str) : str := rstrip (lstrip s).

Definition eqb_char (a b : ascii) : bool := Ascii.eqb a b.

Fixpoint str_eqb (a b : str) : bool :=
  match a, b with
  | [], [] => true
  | x :: a', y :: b' => eqb_char x y && str_eqb a' b'
  | _, _ => false
  end.

(** [s.startswith(x)]. *)
Fixpoint startswith (x s : str) : bool :=
  match x, s with
  | [], _ => true
  | c :: x', d :: s' => eqb_char c d && startswith x' s'
  | _ :: _, [] => false
  end.

(** [x in s] for two strings: [x] occurs in [s] as a substring. *)
Fixpoint contains (x s : str) : bool :=
  startswith x s ||
  match s with
  | [] => false
  | _ :: s' => contains x s'
  end.

(** [a < b] on strings: lexicographic on code points. *)
Fixpoint str_ltb (a b : str) : bool :=
  match a, b with
  | _, [] => false
  | [], _ :: _ => true
  | x :: a', y :: b' =>
      if N.ltb (code x) (code y) then true
      else if N.ltb (code y) (code x) then false
      else str_ltb a' b'
  end.

(** Truthiness of a string: [if s] is [s != ""]. *)
Definition truthy (s : str) : bool :=
  match s with [] => false | _ => true end.

End PyStr.
Import PyStr.


(* ===================================================================== *)
(** * The fragment of Python's [re] used by the program *)
(* ===================================================================== *)

(** A backtracking matcher in continuation-passing style, with Python's
    priorities: a greedy repetition tries the longest run first, a lazy one
    the shortest, an alternation its left branch first.  Every repetition
    in the program's patterns is over a single character or class, which is
    what [Rep] provides. *)

Module Re.

(** A character class: the characters it lists and whether it is negated
    ([[^..]]). *)
Record charset : Type := mk_charset {
  negated : bool;
  member : ascii -> bool
}.

Inductive regex : Type :=
| Eps : regex                                   (* the empty pattern *)
| Chr : ascii -> regex                          (* a literal character *)
| Cls : charset -> regex                        (* \s, \d, ., [..], [^..] *)
| Cat : regex -> regex -> regex                 (* r1 r2 *)
| Alt : regex -> regex -> regex                 (* r1 | r2 *)
| Rep : bool -> nat -> charset -> regex         (* c{n,} (greedy) / c{n,}? *)
| Grp : nat -> regex -> regex                   (* capturing group number i *)
| Bol : regex.                                  (* ^ without re.MULTILINE *)

Fixpoint seq (l : list regex) : regex :=
  match l with
  | [] => Eps
  | r :: l' => Cat r (seq l')
  end.

(** A run of literal characters. *)
Definition word (s : string) : regex := seq (map Chr (lit s)).

(** [r?] *)
Definition opt (r : regex) : regex := Alt r Eps.

(** Character classes of the patterns. *)
Definition LF : ascii := ascii_of_N 10.
Definition one_of (s : string) (c : ascii) : bool := existsb (eqb_char c) (lit s).
Definition not_newline (c : ascii) : bool := negb (eqb_char c LF).

(** [[..]] and [[^..]] over the characters of [s]. *)
Definition any_of (s : string) : charset := mk_charset false (one_of s).
Definition none_of (s : string) : charset := mk_charset true (one_of s).
(** [\s], [\d], [.] (anything but a newline) and a single character. *)
Definition blank : charset := mk_charset false isspace.
Definition digit : charset := mk_charset false isdigit.
Definition dot : charset := mk_charset true (fun c => eqb_char c LF).
Definition only (x : ascii) : charset := mk_charset false (eqb_char x).
(** [[..\s]] *)
Definition blank_or (s : string) : charset :=
  mk_charset false (fun c => isspace c || one_of s c).

Definition caps := list (nat * str).

Record rmatch : Type := mk_rmatch {
  m_end : nat;        (* position just after the match *)
  m_rest : str;       (* the text from [m_end] on *)
  m_caps : caps       (* captured groups, latest first *)
}.

Definition orelse {A} (a b : option A) : option A :=
  match a with
  | Some x => Some x
  | None => b
  end.

Section Matcher.

(** The flag [re.IGNORECASE]. *)
Variable ignorecase : bool.

Definition chr_matches (x c : ascii) : bool :=
  if ignorecase then eqb_char (lower_char x) (lower_char c) else eqb_char x c.

(** Under the flag a class is tested on the two case variants of the
    character; the negation applies to the outcome. *)
Definition cls_matches (p : charset) (c : ascii) : bool :=
  xorb (negated p)
       (if ignorecase
        then member p c || member p (lower_char c) || member p (capital_char c)
        else member p c).

Definition cont := nat -> str -> caps -> option rmatch.

(** [c{n,}] at [s]: [n] mandatory characters, then the optional ones. *)
Fixpoint rep (greedy : bool) (p : ascii -> bool) (k : cont)
         (s : str) (n : nat) (pos : nat) (cs : caps) {struct s} : option rmatch :=
  match n with
  | S n' =>
      match s with
      | c :: s' => if p c then rep greedy p k s' n' (S pos) cs else None
      | [] => None
      end
  | O =>
      match s with
      | c :: s' =>
          if p c then
            if greedy
            then orelse (rep greedy p k s' O (S pos) cs) (k pos s cs)
            else orelse (k pos s cs) (rep greedy p k s' O (S pos) cs)
          else k pos s cs
      | [] => k pos s cs
      end
  end.

Fixpoint run (r : regex) (pos : nat) (s : str) (cs : caps) (k : cont)
  : option rmatch :=
  match r with
  | Eps => k pos s cs
  | Chr x =>
      match s with
      | c :: s' => if chr_matches x c then k (S pos) s' cs else None
      | [] => None
      end
  | Cls p =>
      match s with
      | c :: s' => if cls_matches p c then k (S pos) s' cs else None
      | [] => None
      end
  | Cat r1 r2 => run r1 pos s cs (fun pos' s' cs' => run r2 pos' s' cs' k)
  | Alt r1 r2 => orelse (run r1 pos s cs k) (run r2 pos s cs k)
  | Rep g n p => rep g (cls_matches p) k s n pos cs
  | Grp i r0 =>
      run r0 pos s cs
          (fun pos' s' cs' => k pos' s' ((i, firstn (pos' - pos) s) :: cs'))
  | Bol => if Nat.eqb pos 0 then k pos s cs else None
  end.

(** One attempt at position [pos], where [s] is the text from [pos] on. *)
Definition match_at (r : regex) (pos : nat) (s : str) : option rmatch :=
  run r pos s [] (fun e rest cs => Some (mk_rmatch e rest cs)).

(** [re.match(r, s)]. *)
Definition re_match (r : regex) (s : str) : option rmatch := match_at r 0 s.

(** [re.finditer(r, s)]: the non-overlapping matches, left to right.
    Every pattern of the program consumes at least one character; after an
    empty match the scan moves on by one character. *)
Fixpoint finditer_from (r : regex) (fuel pos : nat) (s : str) : list rmatch :=
  match fuel with
  | O => []
  | S fuel' =>
      match match_at r pos s with
      | Some mt =>
          if Nat.ltb pos (m_end mt)
          then mt :: finditer_from r fuel' (m_end mt) (m_rest mt)
          else mt :: match s with
                     | [] => []
                     | _ :: s' => finditer_from r fuel' (S pos) s'
                     end
      | None =>
          match s with
          | [] => []
          | _ :: s' => finditer_from r fuel' (S pos) s'
          end
      end
  end.

Definition finditer (r : regex) (s : str) : list rmatch :=
  finditer_from r (S (List.length s)) 0 s.

(** [re.sub(r, repl, s)] for a replacement text without group references. *)
Fixpoint sub_from (r : regex) (repl : str) (fuel pos : nat) (s : str) : str :=
  match fuel with
  | O => s
  | S fuel' =>
      match match_at r pos s with
      | Some mt =>
          if Nat.ltb pos (m_end mt)
          then repl ++ sub_from r repl fuel' (m_end mt) (m_rest mt)
          else repl ++ match s with
                       | [] => []
                       | c :: s' => c :: sub_from r repl fuel' (S pos) s'
                       end
      | None =>
          match s with
          | [] => []
          | c :: s' => c :: sub_from r repl fuel' (S pos) s'
          end
      end
  end.

Definition sub (r : regex) (repl : str) (s : str) : str :=
  sub_from r repl (S (List.length s)) 0 s.

End Matcher.

(** The length of the shortest text a pattern matches. *)
Fixpoint min_len (r : regex) : nat :=
  match r with
  | Eps | Bol => 0
  | Chr _ | Cls _ => 1
  | Cat r1 r2 => min_len r1 + min_len r2
  | Alt r1 r2 => Nat.min (min_len r1) (min_len r2)
  | Rep _ n _ => n
  | Grp _ r0 => min_len r0
  end.

(** [m.group(i)]; each group of the program's patterns takes part in every
    match of its pattern. *)
Fixpoint lookup_group (i : nat) (cs : caps) : str :=
  match cs with
  | [] => []
  | (j, t) :: cs' => if Nat.eqb i j then t else lookup_group i cs'
  end.

Definition group (i : nat) (mt : rmatch) : str := lookup_group i (m_caps mt).

End Re.
Import Re.

(** [int(s)] on a string of decimal digits. *)
Definition py_int (s : str) : Z :=
  fold_left (fun acc c => (acc * 10 + digit_value c)%Z) s 0%Z.

(* ===================================================================== *)
(** * Title parser *)
(* ===================================================================== *)

(** [r'^(.+?)\s*-\s*Level\s*(\d)'] *)
Definition title_re : regex :=
  seq [ Bol; Grp 1 (Rep false 1 dot); Rep true 0 blank; Chr "-";
        Rep true 0 blank; word "Level"; Rep true 0 blank;
        Grp 2 (Cls digit) ].

Definition parse_level_from_title (title : str) : str * Z :=
  match re_match true title_re title with
  | Some mt => (strip (group 1 mt), py_int (group 2 mt))
  | None => (title, 0%Z)
  end.

(* ===================================================================== *)
(** * Text normalizer *)
(* ===================================================================== *)

Definition NL : str := [LF].

(** [r'<br\s*/?>'] *)
Definition br_re : regex :=
  seq [ Chr "<"; word "br"; Rep true 0 blank; opt (Chr "/"); Chr ">" ].
(** [r'<p[^>]*>'] *)
Definition p_open_re : regex :=
  seq [ Chr "<"; Chr "p"; Rep true 0 (none_of ">"); Chr ">" ].
(** [r'</p>'] *)
Definition p_close_re : regex := word "</p>".
(** [r'<li[^>]*>'] *)
Definition li_re : regex :=
  seq [ Chr "<"; word "li"; Rep true 0 (none_of ">"); Chr ">" ].
(** [r'<[^>]+>'] *)
Definition tag_re : regex :=
  seq [ Chr "<"; Rep true 1 (none_of ">"); Chr ">" ].
(** [r'\n{3,}'] *)
Definition newlines_re : regex := Rep true 3 (only LF).
(** [r' +'] *)
Definition spaces_re : regex := Rep true 1 (only " ").

Section Normalizer.

(** [html.unescape], a function of Python's standard library. *)
Variable unescape : str -> str.

Definition clean_html (text : str) : str :=
  let text := unescape text in
  let text := sub true br_re NL text in
  let text := sub true p_open_re NL text in
  let text := sub true p_close_re NL text in
  let text := sub true li_re (NL ++ lit "- ") text in
  let text := sub false tag_re [] text in
  let text := sub false newlines_re (NL ++ NL) text in
  let text := sub false spaces_re (lit " ") text in
  strip text.

End Normalizer.

(* ===================================================================== *)
(** * Regional warning extractor *)
(* ===================================================================== *)

Record RegionalWarning : Type := mk_warning {
  region_name : str;
  level : Z;
  reasons : str
}.

(** [r'[Dd]o\s+not\s+travel\s+to[:\s]+(.+?)\s+due\s+to\s+([^.]+)'] *)
Definition do_not_travel_re : regex :=
  seq [ Cls (any_of "Dd"); Chr "o"; Rep true 1 blank; word "not";
        Rep true 1 blank; word "travel"; Rep true 1 blank; word "to";
        Rep true 1 (blank_or ":"); Grp 1 (Rep false 1 dot);
        Rep true 1 blank; word "due"; Rep true 1 blank; word "to";
        Rep true 1 blank; Grp 2 (Rep true 1 (none_of ".")) ].

(** [r'[Rr]econsider\s+travel\s+to[:\s]+(.+?)\s+due\s+to\s+([^.]+)'] *)
Definition reconsider_re : regex :=
  seq [ Cls (any_of "Rr"); word "econsider"; Rep true 1 blank;
        word "travel"; Rep true 1 blank; word "to";
        Rep true 1 (blank_or ":"); Grp 1 (Rep false 1 dot);
        Rep true 1 blank; word "due"; Rep true 1 blank; word "to";
        Rep true 1 blank; Grp 2 (Rep true 1 (none_of ".")) ].

(** [r'^(the|a|an)\s+'] *)
Definition article_re : regex :=
  seq [ Bol; Grp 1 (Alt (word "the") (Alt (word "a") (word "an")));
        Rep true 1 blank ].

(** [r'^[-:*]\s*'] *)
Definition punct_re : regex :=
  seq [ Bol; Cls (any_of "-:*"); Rep true 0 blank ].

Definition skip_phrases : list str :=
  map lit ["country"; "nation"; "all of"; "anywhere"; "entire"]%string.

Definition vague_terms : list str :=
  map lit ["these areas"; "this area"; "the area"; "certain areas"]%string.

(** [any(x in text for x in phrases)] *)
Definition any_in (phrases : list str) (text : str) : bool :=
  existsb (fun x => contains x text) phrases.

(** The clean-up of a region name: leading article, leading punctuation,
    surrounding blanks. *)
Definition clean_region (region : str) : str :=
  let region := sub true article_re [] region in
  let region := sub false punct_re [] region in
  strip region.

Definition py_len (s : str) : Z := Z.of_nat (List.length s).

(** The body of the two [for match in ...] loops; the two bodies differ in
    the level they assign and in nothing else.  [None] stands for
    [continue], [Some w] for the warning that the duplicate test then
    lets through or not. *)
Definition candidate (lvl : Z) (mt : rmatch) : option RegionalWarning :=
  let region := strip (group 1 mt) in
  let reasons := strip (group 2 mt) in
  if any_in skip_phrases (lower region) then None
  else
    let region := clean_region region in
    if any_in vague_terms (lower region) then None
    else if (py_len region <? 3)%Z || (200 <? py_len region)%Z then None
    else Some (mk_warning region lvl reasons).

(** [any(region.lower() in w.region_name.lower() for w in warnings)] *)
Definition already_covered (region : str) (warnings : list RegionalWarning) : bool :=
  existsb (fun w => contains (lower region) (lower (region_name w))) warnings.

Fixpoint scan_matches (lvl : Z) (matches : list rmatch)
         (warnings : list RegionalWarning) : list RegionalWarning :=
  match matches with
  | [] => warnings
  | mt :: rest =>
      match candidate lvl mt with
      | Some w =>
          if already_covered (region_name w) warnings
          then scan_matches lvl rest warnings
          else scan_matches lvl rest (warnings ++ [w])
      | None => scan_matches lvl rest warnings
      end
  end.

Section Extractor.

Variable unescape : str -> str.

Definition extract_regional_warnings (summary : str) (overall_level : Z)
  : list RegionalWarning :=
  let warnings := [] in
  let clean_text := clean_html unescape summary in
  let warnings :=
    if (overall_level <? 4)%Z
    then scan_matches 4 (finditer false do_not_travel_re clean_text) warnings
    else warnings in
  let warnings :=
    if (overall_level <? 3)%Z
    then scan_matches 3 (finditer false reconsider_re clean_text) warnings
    else warnings in
  warnings.

End Extractor.

(* ===================================================================== *)
(** * Python values used by the pipeline: exceptions, [datetime], floats *)
(* ===================================================================== *)

Inductive exn : Type :=
| TypeError : exn.

(** The result of a call that may raise. *)
Inductive outcome (A : Type) : Type :=
| Ok : A -> outcome A
| Raise : exn -> outcome A.
Arguments Ok {A} _.
Arguments Raise {A} _.

Definition bind {A B} (x : outcome A) (f : A -> outcome B) : outcome B :=
  match x with
  | Ok a => f a
  | Raise e => Raise e
  end.

Notation "x <- c ;; k" := (bind c (fun x => k))
  (at level 61, c at next level, right associativity).

Module DateTime.

Local Open Scope Z_scope.

(** A [datetime.datetime]: the civil fields and, for an aware value, the
    offset of its [tzinfo] from UTC in microseconds. *)
Record datetime : Type := mk_datetime {
  year : Z; month : Z; day : Z;
  hour : Z; minute : Z; second : Z; microsecond : Z;
  utcoffset : option Z
}.

Definition fields (d : datetime) : list Z :=
  [year d; month d; day d; hour d; minute d; second d; microsecond d].

(** Tuple comparison: the first place where the two differ decides. *)
Fixpoint lex_gtb (a b : list Z) : bool :=
  match a, b with
  | x :: a', y :: b' => if x =? y then lex_gtb a' b' else y <? x
  | _ :: _, [] => true
  | [], _ => false
  end.

Definition is_leap (y : Z) : bool :=
  (y mod 4 =? 0) && (negb (y mod 100 =? 0) || (y mod 400 =? 0)).

Definition days_before_year (y : Z) : Z :=
  let y1 := y - 1 in y1 * 365 + y1 / 4 - y1 / 100 + y1 / 400.

Definition days_before_month (y m : Z) : Z :=
  match m with
  | 2 => 31 | 3 => 59 | 4 => 90 | 5 => 120 | 6 => 151 | 7 => 181
  | 8 => 212 | 9 => 243 | 10 => 273 | 11 => 304 | 12 => 334
  | _ => 0
  end
  + (if (2 <? m) && is_leap y then 1 else 0).

Definition days_in_month (y m : Z) : Z :=
  if (m =? 2) && is_leap y then 29
  else match m with
       | 1 | 3 | 5 | 7 | 8 | 10 | 12 => 31
       | 4 | 6 | 9 | 11 => 30
       | 2 => 28
       | _ => 0
       end.

(** [date.toordinal()] *)
Definition toordinal (d : datetime) : Z :=
  days_before_year (year d) + days_before_month (year d) (month d) + day d.

(** Microseconds of the civil fields since the start of day 0. *)
Definition civil_us (d : datetime) : Z :=
  (((toordinal d * 24 + hour d) * 60 + minute d) * 60 + second d) * 1000000
  + microsecond d.

Definition opt_eqb (a b : option Z) : bool :=
  match a, b with
  | None, None => true
  | Some x, Some y => x =? y
  | _, _ => false
  end.

(** [a > b] on datetimes, after [datetime._cmp]: equal offsets (or none on
    both sides) compare the civil fields; a naive and an aware value do not
    compare; two different offsets compare the instants. *)
Definition dt_gt (a b : datetime) : outcome bool :=
  if opt_eqb (utcoffset a) (utcoffset b) then Ok (lex_gtb (fields a) (fields b))
  else
    match utcoffset a, utcoffset b with
    | Some oa, Some ob => Ok (civil_us b - ob <? civil_us a - oa)
    | _, _ => Raise TypeError
    end.

(** The ranges every [datetime] object satisfies. *)
Definition valid (d : datetime) : bool :=
  (1 <=? year d) && (year d <=? 9999) &&
  (1 <=? month d) && (month d <=? 12) &&
  (1 <=? day d) && (day d <=? days_in_month (year d) (month d)) &&
  (0 <=? hour d) && (hour d <=? 23) &&
  (0 <=? minute d) && (minute d <=? 59) &&
  (0 <=? second d) && (second d <=? 59) &&
  (0 <=? microsecond d) && (microsecond d <=? 999999) &&
  match utcoffset d with
  | None => true
  | Some o => (-86400000000 <? o) && (o <? 86400000000)
  end.

(** Decimal rendering. *)
Fixpoint digits_of (fuel : nat) (n : Z) (acc : str) : str :=
  match fuel with
  | O => acc
  | S fuel' =>
      let acc' := ascii_of_N (Z.to_N (48 + n mod 10)) :: acc in
      if n / 10 =? 0 then acc' else digits_of fuel' (n / 10) acc'
  end.

(** [str(n)] for an [int]. *)
Definition str_of_int (n : Z) : str :=
  if n <? 0
  then "-"%char :: digits_of (S (Z.to_nat (Z.log2 (- n)))) (- n) []
  else digits_of (S (Z.to_nat (Z.log2 n))) n [].

(** ["%0wd" % n] for [n >= 0]. *)
Definition zero_pad (w : nat) (n : Z) : str :=
  let s := str_of_int n in
  repeat "0"%char (w - List.length s) ++ s.

Definition format_offset (off : option Z) : str :=
  match off with
  | None => []
  | Some o =>
      let sign := if o <? 0 then "-"%char else "+"%char in
      let a := Z.abs o in
      let hh := a / 3600000000 in
      let r := a mod 3600000000 in
      let mm := r / 60000000 in
      let ss := r mod 60000000 in
      sign :: zero_pad 2 hh ++ lit ":" ++ zero_pad 2 mm ++
      (if ss =? 0 then []
       else lit ":" ++ zero_pad 2 (ss / 1000000) ++
            (if ss mod 1000000 =? 0 then []
             else lit "." ++ zero_pad 6 (ss mod 1000000)))
  end.

(** [d.isoformat()] *)
Definition isoformat (d : datetime) : str :=
  zero_pad 4 (year d) ++ lit "-" ++ zero_pad 2 (month d) ++ lit "-" ++
  zero_pad 2 (day d) ++ lit "T" ++
  zero_pad 2 (hour d) ++ lit ":" ++ zero_pad 2 (minute d) ++ lit ":" ++
  zero_pad 2 (second d) ++
  (if microsecond d =? 0 then [] else lit "." ++ zero_pad 6 (microsecond d)) ++
  format_offset (utcoffset d).

End DateTime.
Import DateTime.

(** Binary floating point, as far as [VerificationReport.run_assertions]
    needs it: the quotient of two [int]s and its comparison with the
    literal [0.05]. *)
Module Float64.

Local Open Scope Z_scope.

(** A finite double: zero ([mant = 0]) or [(-1)^neg * mant * 2^expo] with
    [2^52 <= mant < 2^53]. *)
Record f64 : Type := mk_f64 { neg : bool; mant : Z; expo : Z }.

(** [2^k <= n / d], for positive [n] and [d]. *)
Definition ratio_geb_pow2 (n d k : Z) : bool :=
  if 0 <=? k then d * 2 ^ k <=? n else d <=? n * 2 ^ (- k).

(** The exponent [e] with [2^52 <= n / (d * 2^e) < 2^53]. *)
Definition binade (n d : Z) : Z :=
  let l := Z.log2 n - Z.log2 d in
  if ratio_geb_pow2 n d l then l - 52 else l - 53.

(** Round to nearest, ties to even, of [n / d] scaled by [2^(-e)]. *)
Definition round_scaled (n d e : Z) : Z :=
  let num := if e <=? 0 then n * 2 ^ (- e) else n in
  let den := if e <=? 0 then d else d * 2 ^ e in
  let q := num / den in
  let r := num mod den in
  if (den <? 2 * r) || ((den =? 2 * r) && Z.odd q) then q + 1 else q.

(** [n / d] on two [int]s with [d > 0]: the double nearest to the exact
    quotient.  (The quotients that arise here are far from the overflow
    and underflow thresholds of the format.) *)
Definition true_divide (n d : Z) : f64 :=
  if n =? 0 then mk_f64 false 0 0
  else
    let a := Z.abs n in
    let e := binade a d in
    let m := round_scaled a d e in
    if m =? 2 ^ 53 then mk_f64 (n <? 0) (2 ^ 52) (e + 1)
    else mk_f64 (n <? 0) m e.

(** The literal [0.05], that is [0x1.999999999999ap-5]. *)
Definition lit_0_05 : f64 := mk_f64 false 7205759403792794 (-57).

(** [x >= y] for a double [x] and a positive double [y]. *)
Definition geb_pos (x y : f64) : bool :=
  if neg x || (mant x =? 0) then false
  else if expo x =? expo y then mant y <=? mant x
  else expo y <? expo x.

(** The same quotient on the machine's binary64 arithmetic, for two
    integers that a double holds exactly, and the reading of an [f64] in
    the format of [SpecFloat]; the two are compared on sample inputs. *)
Definition machine_divide (n d : Z) : SpecFloat.spec_float :=
  FloatOps.Prim2SF
    (PrimFloat.div (PrimFloat.of_uint63 (Uint63.of_Z n))
                   (PrimFloat.of_uint63 (Uint63.of_Z d))).

Definition to_spec_float (x : f64) : SpecFloat.spec_float :=
  if mant x =? 0 then SpecFloat.S754_zero (neg x)
  else SpecFloat.S754_finite (neg x) (Z.to_pos (mant x)) (expo x).

End Float64.

(** [hashlib.sha256], after FIPS 180-4, on a list of bytes. *)
Module Sha256.

Local Open Scope Z_scope.

Definition w32 (x : Z) : Z := x mod 2 ^ 32.
Definition add32 (x y : Z) : Z := w32 (x + y).
Definition rotr (n x : Z) : Z := Z.lor (Z.shiftr x n) (w32 (Z.shiftl x (32 - n))).
Definition not32 (x : Z) : Z := Z.lxor x 0xffffffff.

Definition Ch (x y z : Z) : Z := Z.lxor (Z.land x y) (Z.land (not32 x) z).
Definition Maj (x y z : Z) : Z :=
  Z.lxor (Z.land x y) (Z.lxor (Z.land x z) (Z.land y z)).
Definition Sigma0 (x : Z) : Z := Z.lxor (rotr 2 x) (Z.lxor (rotr 13 x) (rotr 22 x)).
Definition Sigma1 (x : Z) : Z := Z.lxor (rotr 6 x) (Z.lxor (rotr 11 x) (rotr 25 x)).
Definition sigma0 (x : Z) : Z := Z.lxor (rotr 7 x) (Z.lxor (rotr 18 x) (Z.shiftr x 3)).
Definition sigma1 (x : Z) : Z := Z.lxor (rotr 17 x) (Z.lxor (rotr 19 x) (Z.shiftr x 10)).

(** The constants are fractional parts of roots of the first primes. *)
Definition is_prime (n : nat) : bool :=
  forallb (fun d => negb (Nat.eqb (n mod d) 0)) (List.seq 2 (n - 2)).

Definition first_primes (count : nat) : list Z :=
  map Z.of_nat (firstn count (filter is_prime (List.seq 2 310))).

(** The integer cube root, by bisection on [lo, hi]. *)
Fixpoint cube_root (fuel : nat) (lo hi n : Z) : Z :=
  match fuel with
  | O => lo
  | S fuel' =>
      if hi <=? lo then lo
      else
        let mid := (lo + hi + 1) / 2 in
        if mid * mid * mid <=? n then cube_root fuel' mid hi n
        else cube_root fuel' lo (mid - 1) n
  end.

(** The first 32 bits of the fractional parts of the cube roots of the
    first 64 primes. *)
Definition K : list Z :=
  Eval vm_compute in
    map (fun p => w32 (cube_root 64 0 (2 ^ 36) (p * 2 ^ 96))) (first_primes 64).

(** The first 32 bits of the fractional parts of the square roots of the
    first 8 primes. *)
Definition H0 : list Z :=
  Eval vm_compute in
    map (fun p => w32 (Z.sqrt (p * 2 ^ 64))) (first_primes 8).

(** Big-endian bytes of [x], [n] of them. *)
Fixpoint be_bytes (n : nat) (x : Z) : list Z :=
  match n with
  | O => []
  | S n' => (Z.shiftr x (8 * Z.of_nat n')) mod 256 :: be_bytes n' x
  end.

Definition pad (msg : list Z) : list Z :=
  let len := Z.of_nat (List.length msg) in
  msg ++ [0x80] ++ repeat 0 (Z.to_nat ((55 - len) mod 64)) ++ be_bytes 8 (8 * len).

Definition be_word (b : list Z) : Z :=
  fold_left (fun acc x => acc * 256 + x) b 0.

(** The 16 words of a 64-byte block. *)
Fixpoint words (n : nat) (b : list Z) : list Z :=
  match n with
  | O => []
  | S n' => be_word (firstn 4 b) :: words n' (skipn 4 b)
  end.

(** The message schedule, latest word first. *)
Fixpoint extend (n : nat) (w : list Z) : list Z :=
  match n with
  | O => w
  | S n' =>
      let wt := add32 (add32 (sigma1 (nth 1 w 0)) (nth 6 w 0))
                      (add32 (sigma0 (nth 14 w 0)) (nth 15 w 0)) in
      extend n' (wt :: w)
  end.

Definition schedule (block : list Z) : list Z :=
  rev (extend 48 (rev (words 16 block))).

Definition round (st : list Z) (kw : Z * Z) : list Z :=
  match st with
  | [a; b; c; d; e; f; g; h] =>
      let t1 := add32 (add32 (add32 h (Sigma1 e)) (add32 (Ch e f g) (fst kw))) (snd kw) in
      let t2 := add32 (Sigma0 a) (Maj a b c) in
      [add32 t1 t2; a; b; c; add32 d t1; e; f; g]
  | _ => st
  end.

Definition compress (h : list Z) (block : list Z) : list Z :=
  let st := fold_left round (combine K (schedule block)) h in
  map (fun p => add32 (fst p) (snd p)) (combine h st).

Fixpoint blocks (n : nat) (h : list Z) (msg : list Z) : list Z :=
  match n with
  | O => h
  | S n' => blocks n' (compress h (firstn 64 msg)) (skipn 64 msg)
  end.

Definition digest (msg : list Z) : list Z :=
  let p := pad msg in
  flat_map (be_bytes 4) (blocks (List.length p / 64) H0 p).

Definition hex_digit (x : Z) : ascii :=
  ascii_of_N (Z.to_N (if x <? 10 then 48 + x else 87 + x)).

(** [hashlib.sha256(msg).hexdigest()] *)
Definition hexdigest (msg : list Z) : str :=
  flat_map (fun b => [hex_digit (b / 16); hex_digit (b mod 16)]) (digest msg).

End Sha256.

(** [s.encode()]: UTF-8, with the characters read as code points below
    U+0100. *)
Definition encode (s : str) : list Z :=
  flat_map (fun c =>
              let n := Z.of_N (code c) in
              if (n <? 128)%Z then [n]
              else [(192 + n / 64)%Z; (128 + n mod 64)%Z]) s.

(* ===================================================================== *)
(** * Advisories and the record parser *)
(* ===================================================================== *)

Record TravelAdvisory : Type := mk_advisory {
  country_name : str;
  country_code : str;
  overall_level : Z;
  summary : str;
  last_updated : datetime;
  link : str;
  regional_warnings : list RegionalWarning
}.

(** [any(w.level > self.overall_level for w in self.regional_warnings)] *)
Definition has_regional_elevation (a : TravelAdvisory) : bool :=
  existsb (fun w => (overall_level a <? level w)%Z) (regional_warnings a).

(** [max(w.level for w in ws)] on a non-empty list. *)
Definition max_level (w : RegionalWarning) (ws : list RegionalWarning) : Z :=
  fold_left (fun acc x => Z.max acc (level x)) ws (level w).

Definition max_regional_level (a : TravelAdvisory) : Z :=
  match regional_warnings a with
  | [] => overall_level a
  | w :: ws => max_level w ws
  end.

(** One raw record of the API response: the keys the parser reads, each
    absent or holding a value of the type the boundary promises. *)
Record raw_record : Type := mk_raw {
  Title : option str;
  Category : option (list str);
  Summary : option str;
  Link : option str;
  Id : option str;
  Updated : option str;
  Published : option str
}.

(** [d.get(key, default)] *)
Definition get {A} (field : option A) (default : A) : A :=
  match field with
  | Some v => v
  | None => default
  end.

(** [s.replace('Z', '+00:00')] *)
Definition replace_Z (s : str) : str :=
  flat_map (fun c => if eqb_char c "Z" then lit "+00:00" else [c]) s.

Definition PROHIBITED_COUNTRY_NAMES : list str :=
  map lit [ "china"; "hong kong"; "macau"; "macao";
            "cuba";
            "iran";
            "north korea"; "korea, north"; "democratic people's republic of korea";
            "russia"; "russian federation";
            "venezuela" ]%string.

Definition is_prohibited_country (country_name : str) : bool :=
  let name_lower := strip (lower country_name) in
  if existsb (str_eqb name_lower) PROHIBITED_COUNTRY_NAMES then true
  else existsb (fun prohibited => contains prohibited name_lower)
               PROHIBITED_COUNTRY_NAMES.

Section RecordParser.

(** [html.unescape] and [datetime.fromisoformat] ([None]: [ValueError]). *)
Variable unescape : str -> str.
Variable fromisoformat : str -> option datetime.

(** The statements of [parse_advisory] after the level check.  [now] is
    what [datetime.now()] returns during this call. *)
Definition assemble (now : datetime) (raw : raw_record)
           (country_name : str) (overall_level : Z) : TravelAdvisory :=
  let category := get (Category raw) [] in
  let country_code := match category with c :: _ => c | [] => [] end in
  let summary := get (Summary raw) [] in
  let link := get (Link raw) (get (Id raw) []) in
  let updated_str := get (Updated raw) (get (Published raw) []) in
  let last_updated :=
    match fromisoformat (replace_Z updated_str) with
    | Some d => d
    | None => now
    end in
  let regional_warnings :=
    extract_regional_warnings unescape summary overall_level in
  mk_advisory country_name country_code overall_level
              (clean_html unescape summary) last_updated link
              regional_warnings.

(** No statement of the [try] block raises on a record of this type, so
    the [except Exception] handler is not entered. *)
Definition parse_advisory (now : datetime) (raw : raw_record)
  : option TravelAdvisory :=
  let title := get (Title raw) [] in
  let '(country_name, overall_level) := parse_level_from_title title in
  if (overall_level =? 0)%Z then
    if is_prohibited_country country_name
    then Some (assemble now raw country_name overall_level)
    else None
  else Some (assemble now raw country_name overall_level).

End RecordParser.

(* ===================================================================== *)
(** * Deduplicator *)
(* ===================================================================== *)

(** [adv.country_code.upper() if adv.country_code
     else adv.country_name.lower().strip()] *)
Definition identity_key (adv : TravelAdvisory) : text :=
  if truthy (country_code adv) then upper (country_code adv)
  else to_text (strip (lower (country_name adv))).

(** The dict [seen], in insertion order. *)
Definition seen_dict := list (text * TravelAdvisory).

Fixpoint dict_get (key : text) (seen : seen_dict) : option TravelAdvisory :=
  match seen with
  | [] => None
  | (k, v) :: seen' => if text_eqb key k then Some v else dict_get key seen'
  end.

(** [seen[key] = adv]: an existing key keeps its place, a new one goes last. *)
Fixpoint dict_set (key : text) (adv : TravelAdvisory) (seen : seen_dict) : seen_dict :=
  match seen with
  | [] => [(key, adv)]
  | (k, v) :: seen' =>
      if text_eqb key k then (k, adv) :: seen'
      else (k, v) :: dict_set key adv seen'
  end.

(** An entry of [duplicates]: the message names the dropped advisory and
    the one kept in its favor. *)
Record duplicate : Type := mk_duplicate {
  dropped : TravelAdvisory;
  in_favor_of : TravelAdvisory
}.

Fixpoint dedup_loop (advisories : list TravelAdvisory) (seen : seen_dict)
         (duplicates : list duplicate) : outcome (seen_dict * list duplicate) :=
  match advisories with
  | [] => Ok (seen, duplicates)
  | adv :: rest =>
      let key := identity_key adv in
      match dict_get key seen with
      | Some existing =>
          later <- dt_gt (last_updated adv) (last_updated existing) ;;
          if later
          then dedup_loop rest (dict_set key adv seen)
                          (duplicates ++ [mk_duplicate existing adv])
          else dedup_loop rest seen
                          (duplicates ++ [mk_duplicate adv existing])
      | None => dedup_loop rest (dict_set key adv seen) duplicates
      end
  end.

Definition deduplicate_advisories (advisories : list TravelAdvisory)
  : outcome (list TravelAdvisory * list duplicate) :=
  r <- dedup_loop advisories [] [] ;;
  Ok (map snd (fst r), snd r).

(* ===================================================================== *)
(** * Risk classifier *)
(* ===================================================================== *)

(** [list.sort(key=...)] and [sorted(..., key=...)]: a stable sort that
    compares keys with [<]. *)
Section StableSort.

Context {A K : Type}.
Variable key : A -> K.
Variable ltb : K -> K -> bool.

Fixpoint insert (x : A) (l : list A) : list A :=
  match l with
  | [] => [x]
  | y :: l' => if ltb (key y) (key x) then y :: insert x l' else x :: y :: l'
  end.

Fixpoint sort_by (l : list A) : list A :=
  match l with
  | [] => []
  | x :: l' => insert x (sort_by l')
  end.

End StableSort.

(** [<] on the tuples [(int, int, str)]. *)
Definition tuple_ltb (a b : Z * Z * str) : bool :=
  let '(a1, a2, a3) := a in
  let '(b1, b2, b3) := b in
  if negb (a1 =? b1)%Z then (a1 <? b1)%Z
  else if negb (a2 =? b2)%Z then (a2 <? b2)%Z
  else str_ltb a3 b3.

(** [lambda a: (-a.overall_level, -a.max_regional_level, a.country_name)] *)
Definition high_risk_key (a : TravelAdvisory) : Z * Z * str :=
  ((- overall_level a)%Z, (- max_regional_level a)%Z, country_name a).

(** The [for advisory in advisories] loop of [filter_high_risk]. *)
Fixpoint classify (advisories : list TravelAdvisory)
         (prohibited high_risk : list TravelAdvisory)
  : list TravelAdvisory * list TravelAdvisory :=
  match advisories with
  | [] => (prohibited, high_risk)
  | advisory :: rest =>
      if is_prohibited_country (country_name advisory)
      then classify rest (prohibited ++ [advisory]) high_risk
      else if (3 <=? overall_level advisory)%Z
      then classify rest prohibited (high_risk ++ [advisory])
      else if has_regional_elevation advisory
              && (3 <=? max_regional_level advisory)%Z
      then classify rest prohibited (high_risk ++ [advisory])
      else classify rest prohibited high_risk
  end.

Definition filter_high_risk (advisories : list TravelAdvisory)
  : list TravelAdvisory * list TravelAdvisory :=
  let '(prohibited, high_risk) := classify advisories [] [] in
  (sort_by country_name str_ltb prohibited,
   sort_by high_risk_key tuple_ltb high_risk).

(* ===================================================================== *)
(** * Verification engine *)
(* ===================================================================== *)

(** [lambda a: a.country_code or a.country_name] *)
Definition hash_key (a : TravelAdvisory) : str :=
  if truthy (country_code a) then country_code a else country_name a.

(** [f"{adv.country_code}|{adv.country_name}|{adv.overall_level}|{adv.last_updated.isoformat()}"] *)
Definition hash_record (adv : TravelAdvisory) : str :=
  country_code adv ++ lit "|" ++ country_name adv ++ lit "|" ++
  str_of_int (overall_level adv) ++ lit "|" ++ isoformat (last_updated adv).

(** Successive [hasher.update] calls hash the concatenation of their
    arguments. *)
Definition compute_data_hash (advisories : list TravelAdvisory) : str :=
  Sha256.hexdigest
    (flat_map (fun adv => encode (hash_record adv))
              (sort_by hash_key str_ltb advisories)).

(** The entries of [assertion_errors]; each message is rendered from the
    values its constructor carries. *)
Inductive assertion_error : Type :=
| LEAK (name : str)
| PARSE_FAILURES (failures raw : Z)
| SANITY
| DUPLICATE (code : str).

(** The fields of [VerificationReport] that [run_assertions] reads. *)
Record VerificationReport : Type := mk_report {
  raw_count : Z;
  parse_failures : Z
}.

(** Assertion 1: no prohibited country in the high-risk list. *)
Definition check_leak (high_risk : list TravelAdvisory) : list assertion_error :=
  flat_map (fun adv =>
              if is_prohibited_country (country_name adv)
              then [LEAK (country_name adv)] else [])
           high_risk.

(** Assertion 2: parse failure rate below 5%. *)
Definition check_parse_failures (v : VerificationReport) : list assertion_error :=
  if (0 <? raw_count v)%Z then
    let failure_rate := Float64.true_divide (parse_failures v) (raw_count v) in
    if Float64.geb_pos failure_rate Float64.lit_0_05
    then [PARSE_FAILURES (parse_failures v) (raw_count v)]
    else []
  else [].

(** Assertion 3: at least one high-risk country. *)
Definition check_sanity (high_risk : list TravelAdvisory) : list assertion_error :=
  match high_risk with
  | [] => [SANITY]
  | _ => []
  end.

(** Assertion 4: the loop over [codes] with the set [seen_codes]. *)
Fixpoint check_codes (codes : list str) (seen_codes : list str) : list assertion_error :=
  match codes with
  | [] => []
  | code :: rest =>
      (if existsb (str_eqb code) seen_codes then [DUPLICATE code] else [])
      ++ check_codes rest (code :: seen_codes)
  end.

Definition check_duplicates (prohibited high_risk : list TravelAdvisory)
  : list assertion_error :=
  let codes := filter truthy (map country_code (prohibited ++ high_risk)) in
  check_codes codes [].

(** [run_assertions] leaves these errors in [assertion_errors] and returns
    whether there are none. *)
Definition assertion_errors (v : VerificationReport)
           (prohibited high_risk : list TravelAdvisory) : list assertion_error :=
  check_leak high_risk ++ check_parse_failures v ++ check_sanity high_risk ++
  check_duplicates prohibited high_risk.

Definition run_assertions (v : VerificationReport)
           (prohibited high_risk : list TravelAdvisory) : bool :=
  match assertion_errors v prohibited high_risk with
  | [] => true
  | _ => false
  end.

(* ===================================================================== *)
(** * The pipeline of [main] *)
(* ===================================================================== *)

Section Pipeline.

Variable unescape : str -> str.
Variable fromisoformat : str -> option datetime.

(** The parsing loop of [main]; [clock i] is the wall-clock reading while
    record number [i] is parsed.  Returns the advisories and the number of
    failures. *)
Fixpoint parse_all (clock : nat -> datetime) (i : nat) (raw_data : list raw_record)
  : list TravelAdvisory * Z :=
  match raw_data with
  | [] => ([], 0%Z)
  | raw :: rest =>
      let '(advisories, failures) := parse_all clock (S i) rest in
      match parse_advisory unescape fromisoformat (clock i) raw with
      | Some parsed => (parsed :: advisories, failures)
      | None => (advisories, (failures + 1)%Z)
      end
  end.

(** What [main] computes between the fetch and the report. *)
Record pipeline_result : Type := mk_result {
  prohibited_list : list TravelAdvisory;
  high_risk_list : list TravelAdvisory;
  data_hash : str;
  errors : list assertion_error;
  assertions_passed : bool
}.

Definition pipeline (clock : nat -> datetime) (raw_data : list raw_record)
  : outcome pipeline_result :=
  let '(advisories, failures) := parse_all clock 0 raw_data in
  let v := mk_report (Z.of_nat (List.length raw_data)) failures in
  r <- deduplicate_advisories advisories ;;
  let '(prohibited, high_risk) := filter_high_risk (fst r) in
  Ok (mk_result prohibited high_risk
             (compute_data_hash (prohibited ++ high_risk))
             (assertion_errors v prohibited high_risk)
             (run_assertions v prohibited high_risk)).

End Pipeline.

(* ===================================================================== *)
(** * Vocabulary of the specification *)
(* ===================================================================== *)

(** [a <= b] on strings. *)
Definition str_le (a b : str) : Prop := str_ltb b a = false.

(** Ascending by country name. *)
Definition name_ascending (a b : TravelAdvisory) : Prop :=
  str_le (country_name a) (country_name b).

(** Descending by overall level, then descending by maximum regional
    level, then ascending by country name. *)
Definition high_risk_order (a b : TravelAdvisory) : Prop :=
  (overall_level b < overall_level a)%Z \/
  (overall_level a = overall_level b /\
   ((max_regional_level b < max_regional_level a)%Z \/
    (max_regional_level a = max_regional_level b /\
     str_le (country_name a) (country_name b)))).

(** The test that sends an advisory that is not prohibited to the
    high-risk list. *)
Definition is_high_risk (a : TravelAdvisory) : bool :=
  (3 <=? overall_level a)%Z
  || (has_regional_elevation a && (3 <=? max_regional_level a)%Z).

(* ===================================================================== *)
(** * Fixtures *)
(* ===================================================================== *)

Definition new_year_2024 : datetime := mk_datetime 2024 1 1 0 0 0 0 None.

(** An advisory with the given name, code, level and regional warnings. *)
Definition advisory (name code : string) (lvl : Z) (ws : list RegionalWarning)
  : TravelAdvisory :=
  mk_advisory (lit name) (lit code) lvl [] new_year_2024 [] ws.

Definition mexico_3 : TravelAdvisory := advisory "Mexico" "MX" 3 [].
Definition north_korea_4 : TravelAdvisory := advisory "North Korea" "KP" 4 [].

Definition alpha_4 : TravelAdvisory := advisory "Alpha" "AA" 4 [].
Definition bravo_3 : TravelAdvisory := advisory "Bravo" "BB" 3 [].
Definition charlie_4 : TravelAdvisory := advisory "Charlie" "CC" 4 [].
Definition delta_2_regional_4 : TravelAdvisory :=
  advisory "Delta" "DD" 2 [mk_warning (lit "Northern Province") 4 (lit "crime")].

Definition mexico_4 : TravelAdvisory := advisory "Mexico" "MX" 4 [].

Definition china_heading : str :=
  lit "Mainland China, Hong Kong & Macau - See Summaries".

Definition china_raw : raw_record :=
  mk_raw (Some china_heading) (Some [lit "CN"]) (Some (lit "See summaries."))
         None None (Some (lit "2024-01-01T00:00:00")) None.

(** ** The shape of a heading *)

(** The level token [\s*-\s*Level\s*(\d)], read by hand: blanks, a dash,
    blanks, the word "level" in any letter case, blanks, a digit.  Returns
    the digit and the text after it. *)
Definition level_token (t : str) : option (ascii * str) :=
  match lstrip t with
  | c :: t1 =>
      if eqb_char c "-" then
        let t2 := lstrip t1 in
        if str_eqb (lower (firstn 5 t2)) (lit "level") then
          match lstrip (skipn 5 t2) with
          | d :: rest => if isdigit d then Some (d, rest) else None
          | [] => None
          end
        else None
      else None
  | [] => None
  end.

(** A text [t] starts with a level token of level [N]. *)
Definition starts_with_level (t : str) (N : Z) : Prop :=
  exists ws1 ws2 lvl ws3 d rest,
    t = ws1 ++ "-"%char :: ws2 ++ lvl ++ ws3 ++ d :: rest
    /\ Forall (fun c => isspace c = true) ws1
    /\ Forall (fun c => isspace c = true) ws2
    /\ Forall (fun c => isspace c = true) ws3
    /\ lower lvl = lit "level"
    /\ isdigit d = true
    /\ N = digit_value d.

(** [title] reads [X], then a level token of level [N]: [X] is a non-empty
    run of characters on one line. *)
Definition heading (title X : str) (N : Z) : Prop :=
  exists t,
    title = X ++ t /\ X <> [] /\ Forall (fun c => c <> LF) X
    /\ starts_with_level t N.

(** [title] has the shape "X - Level N: ...": [X] is the country-name
    prefix, the text before the first level token. *)
Definition title_shape (title X : str) (N : Z) : Prop :=
  heading title X N
  /\ forall X' N', heading title X' N' -> List.length X <= List.length X'.

Definition mexico_heading : str :=
  lit "Mexico - Level 2: Exercise Increased Caution".

(** The part of [title_re] after the first group. *)
Definition title_tail_re : regex :=
  seq [ Rep true 0 blank; Chr "-"; Rep true 0 blank; word "Level";
        Rep true 0 blank; Grp 2 (Cls digit) ].

(** The continuation that ends a match. *)
Definition accept : cont :=
  fun e rest cs => Some (mk_rmatch e rest cs).

(** A level token starts at position [n >= 1] of [title], after [n]
    characters of one line. *)
Definition heading_at (title : str) (n : nat) : bool :=
  Nat.leb 1 n && Nat.leb n (List.length title)
  && forallb not_newline (firstn n title)
  && match level_token (skipn n title) with
     | Some _ => true
     | None => false
     end.

(** ** The extractor as the specification words it *)

Section ExtractorAsSpecified.

Variable unescape : str -> str.


End ExtractorAsSpecified.

(** [html.unescape] on a text without ["&"], which it returns as it is;
    the fixtures contain none. *)
Definition unescape_plain (s : str) : str := s.

Definition sinai_text : str :=
  lit "Do not travel to the Sinai Peninsula due to terrorism.".



Definition sinai_warning : RegionalWarning :=
  mk_warning (lit "Sinai Peninsula") 4 (lit "terrorism").

(** ** Sentences of the two phrases *)










Definition report_5_of_100 : VerificationReport := mk_report 100 5.
Definition report_4_of_100 : VerificationReport := mk_report 100 4.
Definition report_empty : VerificationReport := mk_report 0 0.

(** [x] is the record [y] itself or has a strictly later timestamp. *)
Definition at_least_as_late (x y : TravelAdvisory) : Prop :=
  x = y \/ dt_gt (last_updated x) (last_updated y) = Ok true.

(** The timestamp of a raw record is one [datetime.fromisoformat] reads. *)
Definition timestamp_parses (fromisoformat : str -> option datetime)
           (raw : raw_record) : Prop :=
  fromisoformat (replace_Z (get (Updated raw) (get (Published raw) []))) <> None.

(** ** A reader of the fixed-width ISO form *)

Definition char_at (s : str) (i : nat) (c : ascii) : bool :=
  match nth_error s i with
  | Some x => eqb_char x c
  | None => false
  end.

(** The number written by the [len] digits of [s] from [start] on. *)
Fixpoint number_at (s : str) (start len : nat) (acc : Z) : option Z :=
  match len with
  | O => Some acc
  | S len' =>
      match nth_error s start with
      | Some c =>
          if isdigit c
          then number_at s (S start) len' (acc * 10 + digit_value c)%Z
          else None
      | None => None
      end
  end.

(** The offset [+HH:MM] or [-HH:MM] at position 19, in microseconds. *)
Definition offset_at (s : str) : option Z :=
  match number_at s 20 2 0, number_at s 23 2 0 with
  | Some hh, Some mm =>
      if char_at s 22 ":" && (hh <=? 23)%Z && (mm <=? 59)%Z then
        let us := ((hh * 3600 + mm * 60) * 1000000)%Z in
        if char_at s 19 "+" then Some us
        else if char_at s 19 "-" then Some (- us)%Z
        else None
      else None
  | _, _ => None
  end.

(** [datetime.fromisoformat] on the texts [YYYY-MM-DDTHH:MM:SS] and
    [YYYY-MM-DDTHH:MM:SS+HH:MM], which every version of the library reads
    this way; other texts are not needed by the fixtures and are taken as
    unreadable. *)
Definition fromisoformat_fixed (s : str) : option datetime :=
  match number_at s 0 4 0, number_at s 5 2 0, number_at s 8 2 0,
        number_at s 11 2 0, number_at s 14 2 0, number_at s 17 2 0 with
  | Some y, Some mo, Some d, Some h, Some mi, Some se =>
      if char_at s 4 "-" && char_at s 7 "-" && char_at s 10 "T"
         && char_at s 13 ":" && char_at s 16 ":" then
        let offset :=
          if Nat.eqb (List.length s) 19 then Some None
          else if Nat.eqb (List.length s) 25
               then match offset_at s with
                    | Some o => Some (Some o)
                    | None => None
                    end
               else None in
        match offset with
        | Some o =>
            let dt := mk_datetime y mo d h mi se 0 o in
            if valid dt then Some dt else None
        | None => None
        end
      else None
  | _, _, _, _, _, _ => None
  end.

(** Two raw records for the same country, updated at the same time. *)
Definition raw_mexico_3 : raw_record :=
  mk_raw (Some (lit "Mexico - Level 3: Reconsider Travel"))
         (Some [lit "MX"]) (Some (lit "Reconsider travel."))
         None None (Some (lit "2024-01-01T00:00:00")) None.

Definition raw_mexico_4 : raw_record :=
  mk_raw (Some (lit "Mexico - Level 4: Do Not Travel"))
         (Some [lit "MX"]) (Some (lit "Do not travel."))
         None None (Some (lit "2024-01-01T00:00:00")) None.

Definition raw_cuba_4 : raw_record :=
  mk_raw (Some (lit "Cuba - Level 4: Do Not Travel"))
         (Some [lit "CU"]) (Some (lit "Do not travel."))
         None None (Some (lit "2024-02-01T12:30:00+00:00")) None.

Definition midnight_clock : nat -> datetime := fun _ => new_year_2024.

(** The fingerprint of a run, when the run returns. *)
Definition fingerprint (r : outcome pipeline_result) : option str :=
  match r with
  | Ok res => Some (data_hash res)
  | Raise _ => None
  end.

(** ** Vocabulary of the proofs *)

(** [a] may stand before [b] in a list sorted by [key]. *)
Definition key_le {A K : Type} (key : A -> K) (ltb : K -> K -> bool)
           (a b : A) : Prop :=
  ltb (key b) (key a) = false.

(** The invariant of the deduplication loop: the keys of [seen] are
    pairwise distinct, and every entry is filed under the identity key of
    its advisory. *)
Definition seen_ok (seen : seen_dict) : Prop :=
  NoDup (map fst seen) /\ forall k v, In (k, v) seen -> k = identity_key v.

(** The loop keeps, for every record it has seen, an entry under the
    record's key that is the record itself or strictly later. *)
Definition keeps_latest (seen : seen_dict) (done : list TravelAdvisory) : Prop :=
  seen_ok seen
  /\ (forall k x, In (k, x) seen -> In x done)
  /\ (forall y, In y done ->
        exists x, In (identity_key y, x) seen /\ at_least_as_late x y).

(** [x] stands in [l] at a place where every earlier record of its key is
    strictly older and no later record of its key is strictly later: it is
    the first of the latest records of its key. *)
Definition first_latest (l : list TravelAdvisory) (x : TravelAdvisory) : Prop :=
  exists pre post,
    l = pre ++ x :: post
    /\ (forall y, In y pre -> identity_key y = identity_key x ->
                  dt_gt (last_updated x) (last_updated y) = Ok true)
    /\ (forall y, In y post -> identity_key y = identity_key x ->
                  dt_gt (last_updated y) (last_updated x) = Ok false).

(** The time of day of a [datetime] in microseconds. *)
Definition time_of_day (d : datetime) : Z :=
  (((hour d * 60 + minute d) * 60 + second d) * 1000000 + microsecond d)%Z.

(** The instant a value denotes, and whether it carries an offset. *)
Definition instant (d : datetime) : Z :=
  (civil_us d - match utcoffset d with Some o => o | None => 0 end)%Z.

Definition aware (d : datetime) : bool :=
  match utcoffset d with Some _ => true | None => false end.

(** What one raw record adds to the list of parsed advisories. *)
Definition parse_list (unescape : str -> str)
           (fromisoformat : str -> option datetime)
           (now : datetime) (raw : raw_record) : list TravelAdvisory :=
  match parse_advisory unescape fromisoformat now raw with
  | Some a => [a]
  | None => []
  end.

(** ** Sample summaries *)

Definition egypt_summary : str :=
  lit "<p>Exercise increased caution.</p><p>Do not travel to:</p><ul><li>The Sinai Peninsula due to terrorism.</li><li>the Western Desert due to crime.</li></ul><p>Reconsider travel to the border area with Libya due to unrest. Do not travel to the entire country due to x.</p>".

Definition repeated_summary : str :=
  lit "Do not travel to the Sinai Peninsula due to terrorism. Do not travel to Sinai due to crime. Reconsider travel to these areas due to crime.".

Definition level_3_summary : str :=
  lit "Reconsider travel to: the Northern Province due to crime.<br/>do not travel to an island due to piracy".

(* ===================================================================== *)
(** * The rest of the program: flags, the audit lists, the statistics,
      the texts of the report *)
(* ===================================================================== *)

(** [country_code_to_flag]: [chr(0x1F1E6 + ord(c.upper()) - ord('A'))]
    for each character [c] of a code of two characters.  [ord] raises
    [TypeError] on a text that is not one character; the argument of [chr]
    is a code point for every character of a [str]. *)
Definition regional_indicator (c : ascii) : outcome Z :=
  match upper_char c with
  | [u] => Ok (0x1F1E6 + u - ord "A")%Z
  | _ => Raise TypeError
  end.

(** ["".join(f(c) for c in code)], for an [f] that may raise. *)
Fixpoint join_chars (f : ascii -> outcome Z) (code : str) : outcome text :=
  match code with
  | [] => Ok []
  | c :: rest =>
      x <- f c ;;
      t <- join_chars f rest ;;
      Ok (x :: t)
  end.

Definition country_code_to_flag (code : str) : outcome text :=
  if negb (truthy code) || negb (Nat.eqb (List.length code) 2) then Ok []
  else join_chars regional_indicator code.

(** [TravelAdvisory.flag_emoji] *)
Definition flag_emoji (a : TravelAdvisory) : outcome text :=
  country_code_to_flag (country_code a).

(** The values of [PROHIBITED_COUNTRIES]. *)
Record prohibited_info : Type := mk_info {
  info_code : str;
  includes : list str;
  official_name : str
}.

(** [PROHIBITED_COUNTRIES], in the order of the dict. *)
Definition PROHIBITED_COUNTRIES : list (str * prohibited_info) :=
  [ (lit "China",
     mk_info (lit "CN") [lit "Hong Kong"; lit "Macau"]
             (lit "People's Republic of China"));
    (lit "Cuba", mk_info (lit "CU") [] (lit "Republic of Cuba"));
    (lit "Iran", mk_info (lit "IR") [] (lit "Islamic Republic of Iran"));
    (lit "North Korea",
     mk_info (lit "KP") [] (lit "Democratic People's Republic of Korea"));
    (lit "Russia", mk_info (lit "RU") [] (lit "Russian Federation"));
    (lit "Venezuela",
     mk_info (lit "VE") []
             (lit "Bolivarian Republic of Venezuela (Maduro Regime)")) ].

(** [LEVEL_NAMES] *)
Definition LEVEL_NAMES : list (Z * str) :=
  [ (1%Z, lit "Exercise Normal Precautions");
    (2%Z, lit "Exercise Increased Caution");
    (3%Z, lit "Reconsider Travel");
    (4%Z, lit "Do Not Travel") ].

(** The lists of [VerificationReport] that the two [populate_...] methods
    fill; [prohibited_matched] is a dict, kept in insertion order. *)
Record report_lists : Type := mk_lists {
  prohibited_matched : list (str * str);
  prohibited_unmatched : list str;
  level_4_countries : list str;
  level_3_countries : list str;
  regional_countries : list str;
  high_risk_names : list str
}.

(** The lists as [__init__] leaves them. *)
Definition new_lists : report_lists := mk_lists [] [] [] [] [] [].

(** [d[key] = value] on a dict with [str] keys and values. *)
Fixpoint assoc_set (key value : str) (d : list (str * str)) : list (str * str) :=
  match d with
  | [] => [(key, value)]
  | (k, v) :: d' =>
      if str_eqb key k then (k, value) :: d'
      else (k, v) :: assoc_set key value d'
  end.

(** [next((a for a in advisories
           if name.lower() in a.country_name.lower()), None)] *)
Definition first_match (name : str) (advisories : list TravelAdvisory)
  : option TravelAdvisory :=
  find (fun a => contains (lower name) (lower (country_name a))) advisories.

(** The loop of [populate_prohibited_audit] over the names that are left. *)
Fixpoint audit_loop (names : list str) (prohibited_advisories : list TravelAdvisory)
         (self : report_lists) : report_lists :=
  match names with
  | [] => self
  | name :: rest =>
      match first_match name prohibited_advisories with
      | Some m =>
          audit_loop rest prohibited_advisories
            (mk_lists (assoc_set name (country_name m) (prohibited_matched self))
                      (prohibited_unmatched self)
                      (level_4_countries self) (level_3_countries self)
                      (regional_countries self) (high_risk_names self))
      | None =>
          audit_loop rest prohibited_advisories
            (mk_lists (prohibited_matched self)
                      (prohibited_unmatched self ++ [name])
                      (level_4_countries self) (level_3_countries self)
                      (regional_countries self) (high_risk_names self))
      end
  end.

Definition populate_prohibited_audit (self : report_lists)
           (prohibited_advisories : list TravelAdvisory) : report_lists :=
  audit_loop (map fst PROHIBITED_COUNTRIES) prohibited_advisories self.

Fixpoint populate_high_risk_breakdown (self : report_lists)
         (high_risk : list TravelAdvisory) : report_lists :=
  match high_risk with
  | [] => self
  | adv :: rest =>
      let names := high_risk_names self ++ [country_name adv] in
      populate_high_risk_breakdown
        (if (overall_level adv =? 4)%Z then
           mk_lists (prohibited_matched self) (prohibited_unmatched self)
                    (level_4_countries self ++ [country_name adv])
                    (level_3_countries self) (regional_countries self) names
         else if (overall_level adv =? 3)%Z then
           mk_lists (prohibited_matched self) (prohibited_unmatched self)
                    (level_4_countries self)
                    (level_3_countries self ++ [country_name adv])
                    (regional_countries self) names
         else
           mk_lists (prohibited_matched self) (prohibited_unmatched self)
                    (level_4_countries self) (level_3_countries self)
                    (regional_countries self ++ [country_name adv]) names)
        rest
  end.

(** [sum(1 for a in l if f(a))] *)
Definition count {A} (f : A -> bool) (l : list A) : Z :=
  Z.of_nat (List.length (filter f l)).

(** The dict [stats] of [create_report]. *)
Record report_stats : Type := mk_stats {
  stat_prohibited : Z;
  stat_total : Z;
  stat_level_4 : Z;
  stat_level_3 : Z;
  stat_regional : Z
}.

Definition create_report_stats (prohibited advisories : list TravelAdvisory)
  : report_stats :=
  mk_stats (Z.of_nat (List.length prohibited))
           (Z.of_nat (List.length prohibited) + Z.of_nat (List.length advisories))
           (count (fun a => (overall_level a =? 4)%Z) advisories)
           (count (fun a => (overall_level a =? 3)%Z) advisories)
           (count (fun a => (overall_level a <? 3)%Z && has_regional_elevation a)
                  advisories).

(** The three lists [main] counts on the console. *)
Definition main_level_4 (high_risk : list TravelAdvisory) : list TravelAdvisory :=
  filter (fun a => (overall_level a =? 4)%Z) high_risk.
Definition main_level_3 (high_risk : list TravelAdvisory) : list TravelAdvisory :=
  filter (fun a => (overall_level a =? 3)%Z) high_risk.
Definition main_regional (high_risk : list TravelAdvisory) : list TravelAdvisory :=
  filter (fun a => (overall_level a <? 3)%Z) high_risk.

(** ** The texts of the report *)

(** [text.replace(old, new)] for a single character [old]. *)
Definition replace_char (old : Z) (new : text) (t : text) : text :=
  flat_map (fun c => if (c =? old)%Z then new else [c]) t.

(** The dict [replacements] of [_clean_text]: typographic quotes, dashes,
    the ellipsis and the no-break space, with their ASCII stand-ins. *)
Definition replacements : list (Z * text) :=
  [ (0x2018, [39]); (0x2019, [39]);
    (0x201c, [34]); (0x201d, [34]);
    (0x2013, [45]); (0x2014, [45]);
    (0x2026, [46; 46; 46]);
    (0x00a0, [32]) ]%Z.

(** [text.encode('latin-1', 'replace').decode('latin-1')]: a character
    that Latin-1 does not have becomes ["?"]. *)
Definition latin_1_replace (t : text) : text :=
  map (fun c => if (c <=? 255)%Z then c else 63%Z) t.

Definition _clean_text (t : text) : text :=
  latin_1_replace
    (fold_left (fun t r => replace_char (fst r) (snd r) t) replacements t).

(** [sep.join(l)] *)
Fixpoint join (sep : str) (l : list str) : str :=
  match l with
  | [] => []
  | x :: l' =>
      match l' with
      | [] => x
      | _ :: _ => x ++ sep ++ join sep l'
      end
  end.

(** The result of code that looks a key up in a dict. *)
Inductive lookup (A : Type) : Type :=
| Found : A -> lookup A
| KeyError : Z -> lookup A.
Arguments Found {A} _.
Arguments KeyError {A} _.

(** [by_level = {4: [], 3: [], 2: [], 1: []}] *)
Definition by_level_init : list (Z * list TravelAdvisory) :=
  [(4%Z, []); (3%Z, []); (2%Z, []); (1%Z, [])].

(** [by_level[k].append(adv)] *)
Fixpoint level_append (k : Z) (adv : TravelAdvisory)
         (by_level : list (Z * list TravelAdvisory))
  : lookup (list (Z * list TravelAdvisory)) :=
  match by_level with
  | [] => KeyError k
  | (k', l) :: rest =>
      if (k =? k')%Z then Found ((k', l ++ [adv]) :: rest)
      else match level_append k adv rest with
           | Found rest' => Found ((k', l) :: rest')
           | KeyError e => KeyError e
           end
  end.

(** The loop [for adv in advisories: by_level[adv.overall_level].append(adv)]
    of [add_summary_section]. *)
Fixpoint fill_by_level (advisories : list TravelAdvisory)
         (by_level : list (Z * list TravelAdvisory))
  : lookup (list (Z * list TravelAdvisory)) :=
  match advisories with
  | [] => Found by_level
  | adv :: rest =>
      match level_append (overall_level adv) adv by_level with
      | Found by_level' => fill_by_level rest by_level'
      | KeyError e => KeyError e
      end
  end.

(** [d[k]] on a dict that holds [k], and [d.get(k, default)]. *)
Fixpoint assoc_get {V} (k : Z) (d : list (Z * V)) (default : V) : V :=
  match d with
  | [] => default
  | (k', v) :: rest => if (k =? k')%Z then v else assoc_get k rest default
  end.

(** What [add_summary_section] hands to [multi_cell] for one level: the
    header and the list of names, or nothing when no country has the
    level. *)
Definition level_cells (level : Z) (countries : list TravelAdvisory)
  : list (str * text) :=
  match countries with
  | [] => []
  | _ :: _ =>
      let names := map country_name (sort_by country_name str_ltb countries) in
      [ (lit "Level " ++ str_of_int level ++ lit ": "
         ++ assoc_get level LEVEL_NAMES [] ++ lit " ("
         ++ str_of_int (Z.of_nat (List.length countries)) ++ lit " countries)",
         _clean_text (to_text (join (lit ", ") names))) ]
  end.

(** [add_summary_section], as the texts it hands to [multi_cell], in
    order; the drawing calls of the PDF library between them are not
    represented. *)
Definition add_summary_section (advisories : list TravelAdvisory)
  : lookup (list (str * text)) :=
  match fill_by_level advisories by_level_init with
  | Found by_level =>
      Found (flat_map (fun level => level_cells level (assoc_get level by_level []))
                      [4; 3; 2; 1]%Z)
  | KeyError e => KeyError e
  end.

(** An ASCII letter. *)
Definition is_letter (c : ascii) : bool :=
  in_range 65 90 c || in_range 97 122 c.

(** A regional indicator symbol, U+1F1E6 to U+1F1FF. *)
Definition is_regional_indicator (x : Z) : bool :=
  (0x1F1E6 <=? x)%Z && (x <=? 0x1F1FF)%Z.

(** A Unicode code point, and a character of Latin-1. *)
Definition is_code_point (c : Z) : bool := (0 <=? c)%Z && (c <=? 0x10FFFF)%Z.
Definition is_latin_1 (c : Z) : bool := (0 <=? c)%Z && (c <=? 255)%Z.

(* ===================================================================== *)
(** * Vocabulary of the further properties *)
(* ===================================================================== *)

(** The distinct keys of a list, in the order of their first occurrence,
    after the keys of [acc]. *)
Fixpoint first_seen (keys acc : list text) : list text :=
  match keys with
  | [] => acc
  | k :: rest =>
      if existsb (text_eqb k) acc then first_seen rest acc
      else first_seen rest (acc ++ [k])
  end.

(** The deduplication loop keeps, for every record it has seen, an entry
    under the record's key that stands in the relation [R] to the record. *)
Definition keeps_related (R : TravelAdvisory -> TravelAdvisory -> Prop)
           (seen : seen_dict) (done : list TravelAdvisory) : Prop :=
  seen_ok seen
  /\ (forall k x, In (k, x) seen -> In x done)
  /\ (forall y, In y done -> exists x, In (identity_key y, x) seen /\ R x y).

(** Two timestamps of the same kind: both carry an offset or neither does. *)
Definition same_kind (x y : TravelAdvisory) : Prop :=
  aware (last_updated x) = aware (last_updated y).

(** [y] is not later than [x], as [>] on timestamps decides it. *)
Definition not_later (y x : TravelAdvisory) : Prop :=
  dt_gt (last_updated y) (last_updated x) = Ok false.

(** An entry of [duplicates] names two records of [all] with the same key,
    the dropped one not later than the one kept. *)
Definition duplicate_ok (all : list TravelAdvisory) (e : duplicate) : Prop :=
  In (dropped e) all /\ In (in_favor_of e) all
  /\ identity_key (dropped e) = identity_key (in_favor_of e)
  /\ not_later (dropped e) (in_favor_of e).

(** [x] has a timestamp of the same kind as [y], at an instant that is not
    earlier. *)
Definition at_least_as_recent (x y : TravelAdvisory) : Prop :=
  same_kind x y
  /\ (instant (last_updated y) <= instant (last_updated x))%Z.

(** The test of [parse_advisory] that discards a record: the title carries
    no level and its name is not a prohibited country. *)
Definition discarded (raw : raw_record) : bool :=
  let '(country_name, overall_level) :=
    parse_level_from_title (get (Title raw) []) in
  (overall_level =? 0)%Z && negb (is_prohibited_country country_name).

(** A text that starts and ends with a character that is not blank. *)
Definition no_blank_ends (p : str) : bool :=
  match p, rev p with
  | x :: _, y :: _ => negb (isspace x) && negb (isspace y)
  | _, _ => false
  end.

(** A character of the ASCII range. *)
Definition is_ascii (c : ascii) : bool := N.ltb (code c) 128.

(** The name of the later warning [b] does not occur in the name of the
    earlier warning [a], whatever the letter case. *)
Definition not_covering (a b : RegionalWarning) : Prop :=
  contains (lower (region_name b)) (lower (region_name a)) = false.

(** [x] occurs in [s]. *)
Definition part_of (x s : str) : Prop := exists pre post, s = pre ++ x ++ post.

(** The length of the longest prefix of [s] in the class [p], and the text
    after that prefix. *)
Fixpoint span_len (p : ascii -> bool) (s : str) : nat :=
  match s with
  | c :: s' => if p c then S (span_len p s') else 0
  | [] => 0
  end.

Fixpoint drop_while (p : ascii -> bool) (s : str) : str :=
  match s with
  | c :: s' => if p c then drop_while p s' else s
  | [] => []
  end.

(** [thins p s out]: [out] is [s] with some characters of the class [p]
    left out. *)
Inductive thins (p : ascii -> bool) : str -> str -> Prop :=
| thins_nil : thins p [] []
| thins_keep : forall c s out, thins p s out -> thins p (c :: s) (c :: out)
| thins_drop : forall c s out, p c = true -> thins p s out -> thins p (c :: s) out.

(** No tag in [s], as [<[^>]+>] reads one: a ["<"] is never followed by
    one or more characters other than [">"] and then a [">"]. *)
Definition tag_free (s : str) : Prop :=
  forall pre body post,
    s = pre ++ "<"%char :: body ++ ">"%char :: post ->
    Forall (fun c => c <> ">"%char) body -> body = [].

(** No run of more than [k] characters [x] in [s]. *)
Definition max_run (x : ascii) (k : nat) (s : str) : Prop :=
  forall pre t, s = pre ++ t -> span_len (eqb_char x) t <= k.

(** Some advisory of the list has a name that contains [name], whatever
    the letter case. *)
Definition matches_name (advisories : list TravelAdvisory) (name : str) : bool :=
  existsb (fun a => contains (lower name) (lower (country_name a))) advisories.

(** The levels [add_summary_section] has a list for. *)
Definition has_summary_level (a : TravelAdvisory) : bool :=
  (1 <=? overall_level a)%Z && (overall_level a <=? 4)%Z.

(** A raw record whose title carries level 5. *)
Definition raw_level_5 : raw_record :=
  mk_raw (Some (lit "Atlantis - Level 5: Do Not Travel"))
         (Some [lit "AT"]) (Some (lit "Do not travel."))
         None None (Some (lit "2024-03-01T00:00:00")) None.

(** The fields of an advisory that its line of the fingerprint renders. *)
Definition hashed_fields (a : TravelAdvisory) : str * str * Z * datetime :=
  (country_code a, country_name a, overall_level a, last_updated a).
(* ===================================================================== *)
(** * Properties *)
(* ===================================================================== *)

(** ** Facts about the string primitives *)

Lemma code_inj a b : code a = code b -> a = b.
Proof.
  unfold code; intros H.
  rewrite <- (ascii_N_embedding a), <- (ascii_N_embedding b), H; reflexivity.
Qed.

Lemma eqb_char_eq a b : eqb_char a b = true <-> a = b.
Proof. apply Ascii.eqb_eq. Qed.

Lemma str_eqb_eq a b : str_eqb a b = true <-> a = b.
Proof.
  revert b; induction a as [|x a IH]; destruct b as [|y b]; simpl;
    try (split; [discriminate | discriminate]); try tauto.
  rewrite andb_true_iff, eqb_char_eq, IH.
  split; [intros [-> ->]; reflexivity | intros H; inversion H; auto].
Qed.

Lemma str_eqb_refl a : str_eqb a a = true.
Proof. apply str_eqb_eq; reflexivity. Qed.

Lemma text_eqb_eq a b : text_eqb a b = true <-> a = b.
Proof.
  revert b; induction a as [|x a IH]; destruct b as [|y b]; simpl;
    try (split; [discriminate | discriminate]); try tauto.
  rewrite andb_true_iff, Z.eqb_eq, IH.
  split; [intros [-> ->]; reflexivity | intros H; inversion H; auto].
Qed.

Lemma text_eqb_refl a : text_eqb a a = true.
Proof. apply text_eqb_eq; reflexivity. Qed.

Lemma startswith_iff x s : startswith x s = true <-> exists t, s = x ++ t.
Proof.
  revert s; induction x as [|c x IH]; intros s; simpl.
  - split; [intros _; exists s; reflexivity | reflexivity].
  - destruct s as [|d s].
    + split; [discriminate | intros [t Ht]; discriminate].
    + rewrite andb_true_iff, eqb_char_eq, IH.
      split.
      * intros [-> [t ->]]; exists t; reflexivity.
      * intros [t Ht]; inversion Ht; subst; split; [reflexivity | exists t; reflexivity].
Qed.

Lemma contains_iff x s :
  contains x s = true <-> exists pre post, s = pre ++ x ++ post.
Proof.
  induction s as [|d s IH].
  - cbn [contains]. rewrite orb_false_r, startswith_iff.
    split.
    + intros [t Ht]; exists [], t; exact Ht.
    + intros [pre [post H]].
      destruct pre; [exists post; exact H | discriminate].
  - cbn [contains]. rewrite orb_true_iff, startswith_iff, IH.
    split.
    + intros [[t Ht] | [pre [post H]]].
      * exists [], t; exact Ht.
      * exists (d :: pre), post; simpl; rewrite H; reflexivity.
    + intros [pre [post H]].
      destruct pre as [|e pre].
      * left; exists post; exact H.
      * right; inversion H; subst. exists pre, post; reflexivity.
Qed.

Lemma lower_app a b : lower (a ++ b) = lower a ++ lower b.
Proof. apply map_app. Qed.

Lemma lower_char_idem c : lower_char (lower_char c) = lower_char c.
Proof. destruct c as [[] [] [] [] [] [] [] []]; reflexivity. Qed.

Lemma lower_idem s : lower (lower s) = lower s.
Proof.
  unfold lower; rewrite map_map; apply map_ext; intros; apply lower_char_idem.
Qed.

(** A case-insensitive occurrence survives lowering of the text: this is
    what makes [x in s.lower()] a case-insensitive test for a lower-case
    [x]. *)
Lemma contains_lower x s :
  contains x s = true -> contains (lower x) (lower s) = true.
Proof.
  rewrite !contains_iff; intros [pre [post ->]].
  exists (lower pre), (lower post); rewrite !lower_app; reflexivity.
Qed.


Lemma lstrip_suffix s : exists pre, s = pre ++ lstrip s.
Proof.
  induction s as [|c s [pre IH]]; simpl.
  - exists []; reflexivity.
  - destruct (isspace c).
    + exists (c :: pre); simpl; rewrite <- IH; reflexivity.
    + exists []; reflexivity.
Qed.


(** ** The matcher only ever moves forward in the text *)

Lemma orelse_some {A} (a b : option A) x :
  orelse a b = Some x -> a = Some x \/ b = Some x.
Proof. destruct a; simpl; auto. Qed.

Lemma rep_sound ic g p k s : forall n pos cs mt,
  rep g (cls_matches ic p) k s n pos cs = Some mt ->
  exists pre s',
    s = pre ++ s' /\ n <= List.length pre /\
    Forall (fun c => cls_matches ic p c = true) pre /\
    k (pos + List.length pre) s' cs = Some mt.
Proof.
  induction s as [|c s IH]; intros n pos cs mt H.
  - destruct n; simpl in H; [|discriminate].
    exists [], []; simpl; rewrite Nat.add_0_r; auto.
  - destruct n as [|n]; simpl in H.
    + destruct (cls_matches ic p c) eqn:Ec.
      * assert (Hk : rep g (cls_matches ic p) k s 0 (S pos) cs = Some mt
                     \/ k pos (c :: s) cs = Some mt).
        { destruct g; apply orelse_some in H; tauto. }
        destruct Hk as [Hr | Hk].
        -- apply IH in Hr as (pre & s' & -> & _ & Hall & Hk).
           exists (c :: pre), s'; simpl; repeat split; auto with arith.
           rewrite <- Nat.add_succ_comm; exact Hk.
        -- exists [], (c :: s); simpl; rewrite Nat.add_0_r; auto.
      * exists [], (c :: s); simpl; rewrite Nat.add_0_r; auto.
    + destruct (cls_matches ic p c) eqn:Ec; [|discriminate].
      apply IH in H as (pre & s' & -> & Hn & Hall & Hk).
      exists (c :: pre), s'; simpl; repeat split; auto with arith.
      rewrite <- Nat.add_succ_comm; exact Hk.
Qed.

Lemma run_sound ic r : forall pos s cs k mt,
  run ic r pos s cs k = Some mt ->
  exists pre s' cs',
    s = pre ++ s' /\ min_len r <= List.length pre
    /\ k (pos + List.length pre) s' cs' = Some mt.
Proof.
  induction r as [ | x | p | r1 IH1 r2 IH2 | r1 IH1 r2 IH2 | g n p | i r IH | ];
    intros pos s cs k mt H; simpl in H.
  - exists [], s, cs; simpl; rewrite Nat.add_0_r; auto.
  - destruct s as [|c s]; [discriminate|].
    destruct (chr_matches ic x c); [|discriminate].
    exists [c], s, cs; simpl; rewrite Nat.add_1_r; auto.
  - destruct s as [|c s]; [discriminate|].
    destruct (cls_matches ic p c); [|discriminate].
    exists [c], s, cs; simpl; rewrite Nat.add_1_r; auto.
  - apply IH1 in H as (pre1 & s1 & cs1 & -> & Hl1 & H).
    apply IH2 in H as (pre2 & s2 & cs2 & -> & Hl2 & H).
    exists (pre1 ++ pre2), s2, cs2; split; [apply app_assoc|].
    rewrite length_app, Nat.add_assoc; split; [simpl; lia | exact H].
  - apply orelse_some in H as [H | H];
      [apply IH1 in H | apply IH2 in H];
      destruct H as (pre & s' & cs' & Hs & Hl & H);
      exists pre, s', cs'; repeat split; auto; simpl; lia.
  - apply rep_sound in H as (pre & s' & -> & Hn & _ & H).
    exists pre, s', cs; auto.
  - apply IH in H as (pre & s' & cs' & -> & Hl & H).
    exists pre, s'; eexists; split; [reflexivity | split; [exact Hl | exact H]].
  - destruct (Nat.eqb pos 0); [|discriminate].
    exists [], s, cs; simpl; rewrite Nat.add_0_r; auto.
Qed.

Lemma match_at_sound ic r pos s mt :
  match_at ic r pos s = Some mt ->
  exists pre, s = pre ++ m_rest mt /\ m_end mt = pos + List.length pre.
Proof.
  unfold match_at; intros H.
  apply run_sound in H as (pre & s' & cs' & -> & _ & H).
  inversion H; subst; simpl. exists pre; auto.
Qed.

(** A match is at least as long as the shortest text of its pattern. *)
Lemma match_at_progress ic r pos s mt :
  match_at ic r pos s = Some mt -> pos + min_len r <= m_end mt.
Proof.
  unfold match_at; intros H.
  apply run_sound in H as (pre & s' & cs' & -> & Hl & H).
  inversion H; subst; simpl; lia.
Qed.

(** No pattern of the program matches the empty text, so the rules of
    [re.sub] and [re.finditer] for empty matches play no part. *)
Lemma patterns_consume :
  Forall (fun r => 1 <= min_len r)
         [ title_re; br_re; p_open_re; p_close_re; li_re; tag_re;
           newlines_re; spaces_re; do_not_travel_re; reconsider_re;
           article_re; punct_re ].
Proof. repeat constructor; simpl; lia. Qed.

(** ** The scans do not run out of fuel *)

Lemma match_rest_shorter ic r pos s mt :
  match_at ic r pos s = Some mt -> pos < m_end mt ->
  List.length (m_rest mt) < List.length s.
Proof.
  intros H Hlt; apply match_at_sound in H as (pre & Hs & He).
  apply (f_equal (@List.length _)) in Hs; rewrite length_app in Hs; lia.
Qed.

(** Any fuel above the length of the text gives the same substitution. *)
Lemma sub_from_enough ic r repl : forall fuel fuel' pos s,
  List.length s < fuel -> List.length s < fuel' ->
  sub_from ic r repl fuel pos s = sub_from ic r repl fuel' pos s.
Proof.
  induction fuel as [|fuel IH]; intros fuel' pos s H H'; [lia|].
  destruct fuel' as [|fuel']; [lia|]; simpl.
  destruct (match_at ic r pos s) as [mt|] eqn:E.
  - destruct (Nat.ltb pos (m_end mt)) eqn:El.
    + apply Nat.ltb_lt in El.
      pose proof (match_rest_shorter _ _ _ _ _ E El).
      f_equal; apply IH; lia.
    + destruct s as [|c s]; [reflexivity|].
      simpl in H, H'; do 2 f_equal; apply IH; lia.
  - destruct s as [|c s]; [reflexivity|].
    simpl in H, H'; f_equal; apply IH; lia.
Qed.

Lemma finditer_from_enough ic r : forall fuel fuel' pos s,
  List.length s < fuel -> List.length s < fuel' ->
  finditer_from ic r fuel pos s = finditer_from ic r fuel' pos s.
Proof.
  induction fuel as [|fuel IH]; intros fuel' pos s H H'; [lia|].
  destruct fuel' as [|fuel']; [lia|]; simpl.
  destruct (match_at ic r pos s) as [mt|] eqn:E.
  - destruct (Nat.ltb pos (m_end mt)) eqn:El.
    + apply Nat.ltb_lt in El.
      pose proof (match_rest_shorter _ _ _ _ _ E El).
      f_equal; apply IH; lia.
    + destruct s as [|c s]; [reflexivity|].
      simpl in H, H'; f_equal; apply IH; lia.
  - destruct s as [|c s]; [reflexivity|].
    simpl in H, H'; apply IH; lia.
Qed.

(** ** Decimal rendering and the hash *)

Lemma digit_value_of_digit d :
  (0 <= d < 10)%Z -> digit_value (ascii_of_N (Z.to_N (48 + d))) = d.
Proof.
  intros H; unfold digit_value, code.
  rewrite N_ascii_embedding by lia.
  rewrite Z2N.id by lia; lia.
Qed.

Lemma py_int_digits_of : forall fuel n acc,
  (0 <= n < 2 ^ Z.of_nat fuel)%Z ->
  fold_left (fun a c => (a * 10 + digit_value c)%Z) (digits_of fuel n acc) 0%Z
  = fold_left (fun a c => (a * 10 + digit_value c)%Z) acc n.
Proof.
  induction fuel as [|fuel IH]; intros n acc Hn.
  - simpl in *; replace n with 0%Z by lia; reflexivity.
  - cbn [digits_of].
    assert (Hd : (0 <= n mod 10 < 10)%Z) by (apply Z.mod_pos_bound; lia).
    rewrite Nat2Z.inj_succ, Z.pow_succ_r in Hn by lia.
    destruct (Z.eqb_spec (n / 10) 0) as [E | E].
    + cbn [fold_left]; rewrite digit_value_of_digit by exact Hd.
      f_equal. pose proof (Z.div_mod n 10 ltac:(lia)); lia.
    + rewrite IH.
      * cbn [fold_left]; rewrite digit_value_of_digit by exact Hd.
        f_equal. pose proof (Z.div_mod n 10 ltac:(lia)); lia.
      * split; [apply Z.div_pos; lia|].
        apply Z.div_lt_upper_bound; lia.
Qed.

(** The digits of [str(n)] are all the digits of [n]: reading them back
    gives [n]. *)
Lemma py_int_str_of_int n : (0 <= n)%Z -> py_int (str_of_int n) = n.
Proof.
  intros Hn; unfold py_int, str_of_int.
  destruct (Z.ltb_spec n 0); [lia|].
  rewrite py_int_digits_of; [reflexivity|].
  split; [exact Hn|].
  rewrite Nat2Z.inj_succ, Z2Nat.id by apply Z.log2_nonneg.
  destruct (Z.eq_dec n 0) as [-> | Hne]; [reflexivity|].
  apply Z.log2_spec; lia.
Qed.

(** The padded message is a whole number of 64-byte blocks. *)
Lemma pad_whole_blocks msg :
  (Z.of_nat (List.length (Sha256.pad msg)) mod 64 = 0)%Z.
Proof.
  unfold Sha256.pad.
  rewrite !length_app, repeat_length; cbn [List.length Sha256.be_bytes].
  rewrite !Nat2Z.inj_add, Z2Nat.id by (apply Z.mod_pos_bound; lia).
  set (len := Z.of_nat (List.length msg)).
  change (Z.of_nat 1) with 1%Z; change (Z.of_nat 8) with 8%Z.
  Z.div_mod_to_equations; lia.
Qed.

(** The test vectors of FIPS 180-4 for short messages. *)
Lemma sha256_test_vectors :
  Sha256.hexdigest (encode (lit ""))
  = lit "e3b0c44298fc1c149afbf4c8996fb92427ae41e4649b934ca495991b7852b855"
  /\ Sha256.hexdigest (encode (lit "abc"))
     = lit "ba7816bf8f01cfea414140de5dae2223b00361a396177a9cb410ff61f20015ad"
  /\ Sha256.hexdigest
       (encode (lit "abcdbcdecdefdefgefghfghighijhijkijkljklmklmnlmnomnopnopq"))
     = lit "248d6a61d20638b8e5c026930c3e6039a33ce45964ff2167f6ecedd419db06c1".
Proof. repeat split; vm_compute; reflexivity. Qed.

(** ** The order on strings *)

Lemma str_ltb_irrefl a : str_ltb a a = false.
Proof.
  induction a as [|x a IH]; simpl; [reflexivity|].
  rewrite N.ltb_irrefl; exact IH.
Qed.

Lemma str_ltb_asym a : forall b, str_ltb a b = true -> str_ltb b a = false.
Proof.
  induction a as [|x a IH]; intros [|y b] H; simpl in *; try reflexivity;
    try discriminate.
  destruct (N.ltb_spec (code x) (code y)), (N.ltb_spec (code y) (code x));
    try reflexivity; try lia; try discriminate.
  apply IH; exact H.
Qed.

(** [<=] is transitive. *)
Lemma str_le_trans a : forall b c, str_le a b -> str_le b c -> str_le a c.
Proof.
  unfold str_le.
  induction a as [|x a IH]; intros [|y b] [|z c] H1 H2; simpl in *;
    try reflexivity; try discriminate.
  destruct (N.ltb_spec (code y) (code x)); [discriminate|].
  destruct (N.ltb_spec (code z) (code y)); [discriminate|].
  destruct (N.ltb_spec (code x) (code y)).
  - destruct (N.ltb_spec (code z) (code x)); [lia|].
    destruct (N.ltb_spec (code x) (code z)); [reflexivity | lia].
  - destruct (N.ltb_spec (code y) (code z)).
    + destruct (N.ltb_spec (code z) (code x)); [lia|].
      destruct (N.ltb_spec (code x) (code z)); [reflexivity | lia].
    + destruct (N.ltb_spec (code z) (code x)); [lia|].
      destruct (N.ltb_spec (code x) (code z)); [lia|].
      eapply IH; eassumption.
Qed.

(** Two strings neither of which is below the other are equal. *)
Lemma str_ltb_total a : forall b,
  str_ltb a b = false -> str_ltb b a = false -> a = b.
Proof.
  induction a as [|x a IH]; intros [|y b] H1 H2; simpl in *;
    try reflexivity; try discriminate.
  destruct (N.ltb_spec (code x) (code y)); [discriminate|].
  destruct (N.ltb_spec (code y) (code x)); [discriminate|].
  f_equal; [apply code_inj; lia | apply IH; assumption].
Qed.
(** ** The stable sort *)

Section SortFacts.

Context {A K : Type}.
Variable key : A -> K.
Variable ltb : K -> K -> bool.

Hypothesis ltb_asym : forall a b, ltb a b = true -> ltb b a = false.
Hypothesis le_trans :
  forall a b c, ltb b a = false -> ltb c b = false -> ltb c a = false.

Lemma insert_perm x l : Permutation (insert key ltb x l) (x :: l).
Proof.
  induction l as [|y l IH]; simpl; [reflexivity|].
  destruct (ltb (key y) (key x)); [|reflexivity].
  rewrite IH; apply perm_swap.
Qed.

Lemma sort_by_perm l : Permutation (sort_by key ltb l) l.
Proof.
  induction l as [|x l IH]; simpl; [reflexivity|].
  rewrite insert_perm, IH; reflexivity.
Qed.

Lemma insert_sorted x l :
  StronglySorted (key_le key ltb) l ->
  StronglySorted (key_le key ltb) (insert key ltb x l).
Proof.
  induction 1 as [|y l Hs IH Hall]; simpl.
  - constructor; [constructor | constructor].
  - destruct (ltb (key y) (key x)) eqn:E.
    + constructor; [exact IH|].
      rewrite Forall_forall; intros z Hz.
      apply (Permutation_in _ (insert_perm x l)) in Hz.
      destruct Hz as [<- | Hz].
      * unfold key_le; apply ltb_asym; exact E.
      * rewrite Forall_forall in Hall; apply Hall; exact Hz.
    + constructor; [constructor; assumption|].
      constructor; [exact E|].
      rewrite Forall_forall in *; intros z Hz.
      unfold key_le in *. eapply le_trans; [exact E | apply Hall; exact Hz].
Qed.

Lemma sort_by_sorted l : StronglySorted (key_le key ltb) (sort_by key ltb l).
Proof.
  induction l as [|x l IH]; simpl; [constructor | apply insert_sorted; exact IH].
Qed.

Lemma sort_by_in x l : In x (sort_by key ltb l) <-> In x l.
Proof.
  split; apply Permutation_in; [|symmetry]; apply sort_by_perm.
Qed.

End SortFacts.

Lemma tuple_ltb_asym a b : tuple_ltb a b = true -> tuple_ltb b a = false.
Proof.
  destruct a as [[a1 a2] a3], b as [[b1 b2] b3]; unfold tuple_ltb.
  destruct (Z.eqb_spec a1 b1), (Z.eqb_spec b1 a1); simpl; try congruence;
    [|intros H; apply Z.ltb_lt in H; apply Z.ltb_ge; lia].
  destruct (Z.eqb_spec a2 b2), (Z.eqb_spec b2 a2); simpl; try congruence;
    [|intros H; apply Z.ltb_lt in H; apply Z.ltb_ge; lia].
  apply str_ltb_asym.
Qed.

Lemma tuple_le_trans a b c :
  tuple_ltb b a = false -> tuple_ltb c b = false -> tuple_ltb c a = false.
Proof.
  destruct a as [[a1 a2] a3], b as [[b1 b2] b3], c as [[c1 c2] c3];
    unfold tuple_ltb.
  destruct (Z.eqb_spec b1 a1), (Z.eqb_spec c1 b1), (Z.eqb_spec c1 a1); simpl;
    rewrite ?Z.ltb_ge; try lia;
    destruct (Z.eqb_spec b2 a2), (Z.eqb_spec c2 b2), (Z.eqb_spec c2 a2); simpl;
    rewrite ?Z.ltb_ge; try lia.
  intros H1 H2; exact (str_le_trans a3 b3 c3 H1 H2).
Qed.

Lemma str_ltb_le_trans a b c :
  str_ltb b a = false -> str_ltb c b = false -> str_ltb c a = false.
Proof. exact (str_le_trans a b c). Qed.

(** The sort key of the high-risk list orders as the specification says. *)
Lemma high_risk_key_order a b :
  tuple_ltb (high_risk_key b) (high_risk_key a) = false -> high_risk_order a b.
Proof.
  unfold high_risk_key, tuple_ltb, high_risk_order, str_le.
  destruct (Z.eqb_spec (- overall_level b) (- overall_level a)); simpl.
  - destruct (Z.eqb_spec (- max_regional_level b) (- max_regional_level a)); simpl.
    + intros H; right; split; [lia|]. right; split; [lia | exact H].
    + rewrite Z.ltb_ge; intros H; right; split; [lia|]. left; lia.
  - rewrite Z.ltb_ge; intros H; left; lia.
Qed.

Lemma StronglySorted_weaken {A} (R S : A -> A -> Prop) l :
  (forall a b, R a b -> S a b) -> StronglySorted R l -> StronglySorted S l.
Proof.
  intros HRS; induction 1 as [|x l Hs IH Hall]; constructor; [exact IH|].
  rewrite Forall_forall in *; auto.
Qed.
(** ** The classifier *)

Lemma classify_filter l : forall p h,
  classify l p h =
  (p ++ filter (fun a => is_prohibited_country (country_name a)) l,
   h ++ filter (fun a => negb (is_prohibited_country (country_name a))
                         && is_high_risk a) l).
Proof.
  induction l as [|a l IH]; intros p h; simpl.
  - rewrite !app_nil_r; reflexivity.
  - unfold is_high_risk at 1.
    destruct (is_prohibited_country (country_name a)); simpl.
    + rewrite IH, <- app_assoc; reflexivity.
    + destruct (3 <=? overall_level a)%Z; simpl.
      * rewrite IH, <- app_assoc; reflexivity.
      * destruct (has_regional_elevation a && (3 <=? max_regional_level a)%Z).
        -- rewrite IH, <- app_assoc; reflexivity.
        -- apply IH.
Qed.

Lemma filter_high_risk_eq l :
  filter_high_risk l =
  (sort_by country_name str_ltb
           (filter (fun a => is_prohibited_country (country_name a)) l),
   sort_by high_risk_key tuple_ltb
           (filter (fun a => negb (is_prohibited_country (country_name a))
                             && is_high_risk a) l)).
Proof. unfold filter_high_risk; rewrite classify_filter; reflexivity. Qed.

Lemma in_prohibited_list a l :
  In a (fst (filter_high_risk l)) <->
  In a l /\ is_prohibited_country (country_name a) = true.
Proof.
  rewrite filter_high_risk_eq; simpl.
  rewrite sort_by_in, filter_In; reflexivity.
Qed.

Lemma in_high_risk_list a l :
  In a (snd (filter_high_risk l)) <->
  In a l /\ is_prohibited_country (country_name a) = false /\ is_high_risk a = true.
Proof.
  rewrite filter_high_risk_eq; simpl.
  rewrite sort_by_in, filter_In, andb_true_iff, negb_true_iff; reflexivity.
Qed.

Lemma check_leak_nil h :
  check_leak h = [] <->
  Forall (fun a => is_prohibited_country (country_name a) = false) h.
Proof.
  induction h as [|a h IH]; simpl.
  - split; constructor.
  - destruct (is_prohibited_country (country_name a)) eqn:E; simpl.
    + split; [discriminate | intros H; inversion H; congruence].
    + rewrite IH; split; [intros H; constructor; auto | intros H; inversion H; auto].
Qed.

(** ** The errors of [run_assertions] *)

(** Each assertion reports errors of its own kind only. *)
Lemma assertion_errors_kinds v prohibited high_risk e :
  In e (assertion_errors v prohibited high_risk) ->
  match e with
  | LEAK _ => In e (check_leak high_risk)
  | PARSE_FAILURES _ _ => In e (check_parse_failures v)
  | SANITY => In e (check_sanity high_risk)
  | DUPLICATE _ => In e (check_duplicates prohibited high_risk)
  end.
Proof.
  unfold assertion_errors; intros Hin.
  apply in_app_or in Hin as [Hin | Hin].
  { assert (H : exists n, e = LEAK n).
    { unfold check_leak in Hin; apply in_flat_map in Hin as (a & _ & Ha).
      destruct (is_prohibited_country (country_name a));
        [destruct Ha as [<- | []]; eauto | destruct Ha]. }
    destruct H as [n ->]; exact Hin. }
  apply in_app_or in Hin as [Hin | Hin].
  { assert (H : exists f r, e = PARSE_FAILURES f r).
    { unfold check_parse_failures in Hin.
      destruct (0 <? raw_count v)%Z; [|destruct Hin].
      destruct (Float64.geb_pos _ _); [|destruct Hin].
      destruct Hin as [<- | []]; eauto. }
    destruct H as (f & r & ->); exact Hin. }
  apply in_app_or in Hin as [Hin | Hin].
  { assert (H : e = SANITY).
    { unfold check_sanity in Hin; destruct high_risk;
        [destruct Hin as [<- | []]; reflexivity | destruct Hin]. }
    subst e; exact Hin. }
  assert (H : exists c, e = DUPLICATE c).
  { unfold check_duplicates in Hin.
    revert Hin; generalize (@nil str).
    induction (filter truthy (map country_code (prohibited ++ high_risk)))
      as [|c cs IH]; intros seen Hin; simpl in Hin; [destruct Hin|].
    apply in_app_or in Hin as [Hin | Hin]; [|exact (IH _ Hin)].
    destruct (existsb (str_eqb c) seen);
      [destruct Hin as [<- | []]; eauto | destruct Hin]. }
  destruct H as [c ->]; exact Hin.
Qed.

(** ** The outputs of the classifier *)

(** C1 (no leak).  For every input list, no advisory of the high-risk output
    of the classifier satisfies the prohibited-country predicate, so the
    no-leak assertion reports nothing on the classifier's own output; an
    advisory of the input whose name is prohibited is in the prohibited
    output and not in the high-risk output, whatever its level.  On the
    fixture, a level-4 record named North Korea is routed to the prohibited
    list only. *)
Theorem filter_high_risk_no_leak :
  forall advisories : list TravelAdvisory,
    Forall (fun a => is_prohibited_country (country_name a) = false)
           (snd (filter_high_risk advisories))
    /\ check_leak (snd (filter_high_risk advisories)) = []
    /\ (forall v name,
           ~ In (LEAK name)
                (assertion_errors v (fst (filter_high_risk advisories))
                                  (snd (filter_high_risk advisories))))
    /\ (forall a, In a advisories ->
                  is_prohibited_country (country_name a) = true ->
                  In a (fst (filter_high_risk advisories))
                  /\ ~ In a (snd (filter_high_risk advisories)))
    /\ filter_high_risk [mexico_3; north_korea_4] = ([north_korea_4], [mexico_3]).
Proof.
  intros advisories.
  assert (Hall : Forall (fun a => is_prohibited_country (country_name a) = false)
                        (snd (filter_high_risk advisories))).
  { rewrite Forall_forall; intros a Ha.
    apply in_high_risk_list in Ha; tauto. }
  split; [exact Hall|].
  split; [apply check_leak_nil; exact Hall|].
  split.
  { intros v name Hin; apply assertion_errors_kinds in Hin.
    rewrite (proj2 (check_leak_nil _) Hall) in Hin; exact Hin. }
  split; [|reflexivity].
  intros a Hin Hp; split.
  - apply in_prohibited_list; auto.
  - intros Hh; apply in_high_risk_list in Hh; destruct Hh as (_ & Hn & _).
    congruence.
Qed.

Lemma filter_high_risk_no_leak_witness :
  In north_korea_4 (fst (filter_high_risk [mexico_3; north_korea_4]))
  /\ ~ In north_korea_4 (snd (filter_high_risk [mexico_3; north_korea_4])).
Proof.
  destruct (filter_high_risk_no_leak [mexico_3; north_korea_4])
    as (_ & _ & _ & H & _).
  apply (H north_korea_4); [right; left; reflexivity | reflexivity].
Defined.

(** C5 (sort order).  For every input list the prohibited output is sorted
    ascending by country name and the high-risk output is sorted descending
    by overall level, then descending by maximum regional level, then
    ascending by country name.  On entries at levels 4, 3, 4 and
    2-with-a-regional-4 the order is the two level-4 entries by name, the
    level-3 entry, the regionally elevated entry. *)
Theorem filter_high_risk_sorted :
  forall advisories : list TravelAdvisory,
    StronglySorted name_ascending (fst (filter_high_risk advisories))
    /\ StronglySorted high_risk_order (snd (filter_high_risk advisories))
    /\ snd (filter_high_risk [charlie_4; bravo_3; delta_2_regional_4; alpha_4])
       = [alpha_4; charlie_4; bravo_3; delta_2_regional_4].
Proof.
  intros advisories; rewrite filter_high_risk_eq; simpl fst; simpl snd.
  split; [|split; [|reflexivity]].
  - apply (sort_by_sorted country_name str_ltb str_ltb_asym str_ltb_le_trans).
  - eapply StronglySorted_weaken;
      [|apply (sort_by_sorted high_risk_key tuple_ltb tuple_ltb_asym tuple_le_trans)].
    intros a b H; apply high_risk_key_order; exact H.
Qed.

(** ** Comparison of timestamps *)

Lemma opt_eqb_refl o : opt_eqb o o = true.
Proof. destruct o; simpl; [apply Z.eqb_refl | reflexivity]. Qed.

Lemma opt_eqb_sym a b : opt_eqb a b = opt_eqb b a.
Proof. destruct a, b; simpl; try reflexivity; apply Z.eqb_sym. Qed.

Lemma lex_gtb_irrefl a : lex_gtb a a = false.
Proof. induction a as [|x a IH]; simpl; [reflexivity|]. rewrite Z.eqb_refl; exact IH. Qed.

Lemma lex_gtb_asym a : forall b, lex_gtb a b = true -> lex_gtb b a = false.
Proof.
  induction a as [|x a IH]; intros [|y b] H; simpl in *; try reflexivity;
    try discriminate.
  rewrite (Z.eqb_sym y x).
  destruct (Z.eqb_spec x y); [apply IH; exact H|].
  apply Z.ltb_lt in H; apply Z.ltb_ge; lia.
Qed.

Lemma dt_gt_irrefl d : dt_gt d d = Ok false.
Proof. unfold dt_gt; rewrite opt_eqb_refl, lex_gtb_irrefl; reflexivity. Qed.

Lemma dt_gt_asym a b : dt_gt a b = Ok true -> dt_gt b a = Ok false.
Proof.
  unfold dt_gt; rewrite (opt_eqb_sym (utcoffset b)).
  destruct (opt_eqb (utcoffset a) (utcoffset b)).
  - intros H.
    assert (H' : lex_gtb (fields a) (fields b) = true) by congruence.
    rewrite (lex_gtb_asym _ _ H'); reflexivity.
  - destruct (utcoffset a), (utcoffset b); try discriminate.
    intros H; inversion H as [H']; apply Z.ltb_lt in H'.
    f_equal; apply Z.ltb_ge; lia.
Qed.
(** ** The dict [seen] *)

Lemma dict_get_none key seen :
  dict_get key seen = None <-> ~ In key (map fst seen).
Proof.
  induction seen as [|[k v] seen IH]; simpl; [tauto|].
  destruct (text_eqb key k) eqn:E.
  - apply text_eqb_eq in E; subst; split; [discriminate | tauto].
  - rewrite IH; split; [|tauto].
    intros H [Hk | Hin]; [|tauto].
    subst; rewrite text_eqb_refl in E; discriminate.
Qed.

Lemma dict_get_some key seen v :
  dict_get key seen = Some v -> In (key, v) seen.
Proof.
  induction seen as [|[k w] seen IH]; simpl; [discriminate|].
  destruct (text_eqb key k) eqn:E.
  - apply text_eqb_eq in E; subst; intros H; inversion H; auto.
  - auto.
Qed.

Lemma dict_set_new key adv seen :
  dict_get key seen = None -> dict_set key adv seen = seen ++ [(key, adv)].
Proof.
  induction seen as [|[k v] seen IH]; simpl; [reflexivity|].
  destruct (text_eqb key k); [discriminate|].
  intros H; rewrite IH by exact H; reflexivity.
Qed.

Lemma dict_set_keys key adv seen v :
  dict_get key seen = Some v ->
  map fst (dict_set key adv seen) = map fst seen.
Proof.
  induction seen as [|[k w] seen IH]; simpl; [discriminate|].
  destruct (text_eqb key k); [reflexivity|].
  intros H; simpl; rewrite IH by exact H; reflexivity.
Qed.

Lemma dict_set_in key adv seen kv :
  In kv (dict_set key adv seen) -> kv = (key, adv) \/ In kv seen.
Proof.
  induction seen as [|[k w] seen IH]; simpl; [intros [<- | []]; auto|].
  destruct (text_eqb key k) eqn:E.
  - apply text_eqb_eq in E; subst; simpl; intros [<- | H]; auto.
  - simpl; intros [<- | H]; auto. apply IH in H; tauto.
Qed.

Lemma seen_ok_set adv seen :
  seen_ok seen -> seen_ok (dict_set (identity_key adv) adv seen).
Proof.
  intros [Hnd Hkeys]; split.
  - destruct (dict_get (identity_key adv) seen) eqn:E.
    + rewrite (dict_set_keys _ _ _ _ E); exact Hnd.
    + rewrite (dict_set_new _ _ _ E), map_app; simpl.
      apply dict_get_none in E.
      apply NoDup_app; repeat split; auto.
      * constructor; [simpl; tauto | constructor].
      * intros x Hx [<- | []]; tauto.
  - intros k v H; apply dict_set_in in H as [H | H].
    + inversion H; reflexivity.
    + apply Hkeys; exact H.
Qed.

Lemma dedup_loop_ok advisories : forall seen dups seen' dups',
  seen_ok seen ->
  dedup_loop advisories seen dups = Ok (seen', dups') ->
  seen_ok seen'.
Proof.
  induction advisories as [|adv rest IH]; intros seen dups seen' dups' Hok H;
    simpl in H.
  - inversion H; subst; exact Hok.
  - destruct (dict_get (identity_key adv) seen) as [existing|].
    + destruct (dt_gt (last_updated adv) (last_updated existing)) as [[|]|];
        simpl in H; try discriminate.
      * eapply IH; [|exact H]. apply seen_ok_set; exact Hok.
      * eapply IH; [|exact H]. exact Hok.
    + eapply IH; [|exact H]. apply seen_ok_set; exact Hok.
Qed.

Lemma seen_ok_values seen :
  seen_ok seen -> NoDup (map identity_key (map snd seen)).
Proof.
  intros [Hnd Hkeys].
  replace (map identity_key (map snd seen)) with (map fst seen); [exact Hnd|].
  rewrite map_map; apply map_ext_in.
  intros [k v] Hin; simpl; apply Hkeys; exact Hin.
Qed.

Lemma deduplicate_keys_nodup advisories deduped dups :
  deduplicate_advisories advisories = Ok (deduped, dups) ->
  NoDup (map identity_key deduped).
Proof.
  unfold deduplicate_advisories.
  destruct (dedup_loop advisories [] []) as [[seen d]|] eqn:E; simpl;
    [|discriminate].
  intros H; inversion H; subst.
  apply seen_ok_values.
  eapply dedup_loop_ok; [|exact E].
  split; [constructor | intros k v []].
Qed.

(** C9 (level-0 records).  For every raw record whose title parses to level
    0, the record parser returns no advisory exactly when the parsed name is
    not a prohibited country; when it is, a level-0 advisory of that name is
    returned, as for the heading "Mainland China, Hong Kong & Macau - See
    Summaries". *)
Theorem parse_advisory_level_zero :
  forall (unescape : str -> str) (fromisoformat : str -> option datetime)
         (now : datetime) (raw : raw_record),
    snd (parse_level_from_title (get (Title raw) [])) = 0%Z ->
    let name := fst (parse_level_from_title (get (Title raw) [])) in
    (parse_advisory unescape fromisoformat now raw = None
     <-> is_prohibited_country name = false)
    /\ (is_prohibited_country name = true ->
        exists adv,
          parse_advisory unescape fromisoformat now raw = Some adv
          /\ country_name adv = name /\ overall_level adv = 0%Z)
    /\ parse_level_from_title china_heading = (china_heading, 0%Z)
    /\ is_prohibited_country china_heading = true
    /\ (exists adv,
          parse_advisory unescape fromisoformat now china_raw = Some adv
          /\ country_name adv = china_heading /\ overall_level adv = 0%Z).
Proof.
  intros unescape fromisoformat now raw Hlvl name.
  assert (Hchina : parse_level_from_title china_heading = (china_heading, 0%Z))
    by (vm_compute; reflexivity).
  assert (Hproh : is_prohibited_country china_heading = true)
    by (vm_compute; reflexivity).
  assert (Hex : exists adv,
             parse_advisory unescape fromisoformat now china_raw = Some adv
             /\ country_name adv = china_heading /\ overall_level adv = 0%Z).
  { unfold parse_advisory.
    change (get (Title china_raw) []) with china_heading.
    rewrite Hchina; cbn [Z.eqb]; rewrite Hproh.
    eexists; split; [reflexivity | split; reflexivity]. }
  unfold parse_advisory.
  subst name; destruct (parse_level_from_title (get (Title raw) [])) as [n l].
  simpl in Hlvl; subst l; cbn [Z.eqb fst].
  split; [|split; [|split; [exact Hchina | split; [exact Hproh | exact Hex]]]].
  - destruct (is_prohibited_country n); split; intros H;
      try reflexivity; discriminate.
  - intros ->; eexists; split; [reflexivity | split; reflexivity].
Qed.

Lemma parse_advisory_level_zero_witness :
  parse_advisory (fun s => s) (fun _ => None) new_year_2024 china_raw <> None.
Proof.
  destruct (parse_advisory_level_zero (fun s => s) (fun _ => None)
              new_year_2024 china_raw) as (H & _).
  - vm_compute; reflexivity.
  - intros Hn; apply H in Hn; vm_compute in Hn; discriminate.
Defined.

(** ** No duplicate code after deduplication *)

Lemma truthy_key a :
  truthy (country_code a) = true -> identity_key a = upper (country_code a).
Proof. unfold identity_key; intros ->; reflexivity. Qed.

(** Distinct identity keys give distinct non-empty codes. *)
Lemma nodup_codes l :
  NoDup (map identity_key l) ->
  NoDup (filter truthy (map country_code l)).
Proof.
  induction l as [|a l IH]; simpl; [constructor|].
  intros H; inversion H as [|? ? Hnotin Hnd]; subst.
  destruct (truthy (country_code a)) eqn:Ea; [|apply IH; exact Hnd].
  constructor; [|apply IH; exact Hnd].
  intros Hin; apply filter_In in Hin as [Hin _].
  apply in_map_iff in Hin as (b & Hb & Hinb).
  apply Hnotin, in_map_iff; exists b; split; [|exact Hinb].
  rewrite (truthy_key a Ea), truthy_key by (rewrite Hb; exact Ea).
  rewrite Hb; reflexivity.
Qed.

Lemma NoDup_map_filter {A B} (f : A -> B) (P : A -> bool) l :
  NoDup (map f l) -> NoDup (map f (filter P l)).
Proof.
  induction l as [|a l IH]; simpl; [constructor|].
  intros H; inversion H as [|? ? Hnotin Hnd]; subst.
  destruct (P a); simpl; [|apply IH; exact Hnd].
  constructor; [|apply IH; exact Hnd].
  intros Hin; apply Hnotin.
  apply in_map_iff in Hin as (b & Hb & Hinb).
  apply filter_In in Hinb as [Hinb _].
  apply in_map_iff; exists b; auto.
Qed.

Lemma filter_disjoint_perm {A} (P Q : A -> bool) l :
  (forall a, P a = true -> Q a = false) ->
  Permutation (filter P l ++ filter Q l) (filter (fun a => P a || Q a) l).
Proof.
  intros Hdis; induction l as [|a l IH]; simpl; [constructor|].
  destruct (P a) eqn:EP; simpl.
  - rewrite (Hdis a EP); constructor; exact IH.
  - destruct (Q a); [|exact IH].
    rewrite <- IH; symmetry; apply Permutation_middle.
Qed.

(** The two outputs of the classifier, taken together, are a rearrangement
    of a part of its input. *)
Lemma filter_high_risk_perm l :
  Permutation
    (fst (filter_high_risk l) ++ snd (filter_high_risk l))
    (filter (fun a => is_prohibited_country (country_name a)
                      || negb (is_prohibited_country (country_name a))
                         && is_high_risk a) l).
Proof.
  rewrite filter_high_risk_eq; simpl.
  rewrite <- filter_disjoint_perm.
  - apply Permutation_app; apply sort_by_perm.
  - intros a ->; reflexivity.
Qed.

Lemma check_codes_nil codes : forall seen_codes,
  check_codes codes seen_codes = [] <->
  NoDup codes /\ forall c, In c codes -> ~ In c seen_codes.
Proof.
  induction codes as [|c codes IH]; intros seen; simpl.
  - split; [intros _; split; [constructor | intros ? []] | reflexivity].
  - destruct (existsb (str_eqb c) seen) eqn:E; simpl.
    + split; [discriminate|].
      intros [_ H]; exfalso.
      apply existsb_exists in E as (x & Hx & Ex).
      apply str_eqb_eq in Ex; subst x.
      exact (H c (or_introl eq_refl) Hx).
    + rewrite IH; split.
      * intros [Hnd H]; split.
        -- constructor; [|exact Hnd].
           intros Hin; exact (H c Hin (or_introl eq_refl)).
        -- intros x [<- | Hx] Hseen.
           ++ assert (existsb (str_eqb c) seen = true); [|congruence].
              apply existsb_exists; exists c; split; [exact Hseen | apply str_eqb_refl].
           ++ exact (H x Hx (or_intror Hseen)).
      * intros [Hnd H]; inversion Hnd as [|? ? Hnotin Hnd']; subst; split;
          [exact Hnd'|].
        intros x Hx [<- | Hseen]; [exact (Hnotin Hx)|].
        exact (H x (or_intror Hx) Hseen).
Qed.

(** C10 (duplicate codes).  For every list the deduplicator returns, no
    non-empty country code occurs twice across the prohibited and high-risk
    outputs of the classifier, and the duplicate-code assertion reports
    nothing. *)
Theorem no_duplicate_code_after_dedup :
  forall (advisories deduped : list TravelAdvisory) (dups : list duplicate),
    deduplicate_advisories advisories = Ok (deduped, dups) ->
    NoDup (filter truthy
             (map country_code (fst (filter_high_risk deduped)
                                ++ snd (filter_high_risk deduped))))
    /\ check_duplicates (fst (filter_high_risk deduped))
                        (snd (filter_high_risk deduped)) = []
    /\ (forall v code,
           ~ In (DUPLICATE code)
                (assertion_errors v (fst (filter_high_risk deduped))
                                  (snd (filter_high_risk deduped)))).
Proof.
  intros advisories deduped dups Hd.
  assert (Hnd : NoDup (filter truthy
             (map country_code (fst (filter_high_risk deduped)
                                ++ snd (filter_high_risk deduped))))).
  { apply nodup_codes.
    eapply Permutation_NoDup;
      [symmetry; apply Permutation_map, filter_high_risk_perm|].
    apply NoDup_map_filter.
    eapply deduplicate_keys_nodup; exact Hd. }
  assert (Hnone : check_duplicates (fst (filter_high_risk deduped))
                                   (snd (filter_high_risk deduped)) = []).
  { unfold check_duplicates; apply check_codes_nil; split; [exact Hnd|].
    intros c _ []. }
  split; [exact Hnd|]. split; [exact Hnone|].
  intros v code Hin; apply assertion_errors_kinds in Hin.
  rewrite Hnone in Hin; exact Hin.
Qed.

Lemma no_duplicate_code_after_dedup_witness :
  check_duplicates (fst (filter_high_risk [mexico_3; north_korea_4]))
                   (snd (filter_high_risk [mexico_3; north_korea_4])) = [].
Proof.
  apply (no_duplicate_code_after_dedup
           [mexico_3; mexico_4; north_korea_4] [mexico_3; north_korea_4]
           [mk_duplicate mexico_4 mexico_3]).
  reflexivity.
Defined.
(** ** Substitution with a pattern anchored at the start *)

Lemma sub_from_after_start ic r repl : forall fuel pos s,
  0 < pos -> sub_from ic (Cat Bol r) repl fuel pos s = s.
Proof.
  induction fuel as [|fuel IH]; intros pos s Hpos; simpl; [reflexivity|].
  unfold match_at; simpl.
  destruct pos as [|pos]; [lia|]; simpl.
  destruct s as [|c s]; [reflexivity|].
  rewrite IH by lia; reflexivity.
Qed.

(** Removing a match of an anchored pattern leaves a suffix of the text. *)
Lemma sub_anchored_suffix ic r s :
  exists pre, s = pre ++ sub ic (Cat Bol r) [] s.
Proof.
  unfold sub; simpl.
  destruct (match_at ic (Cat Bol r) 0 s) as [mt|] eqn:E.
  - apply match_at_sound in E as (pre & Hs & He).
    destruct (Nat.ltb 0 (m_end mt)) eqn:El.
    + apply Nat.ltb_lt in El.
      rewrite sub_from_after_start by exact El.
      exists pre; exact Hs.
    + exists []; simpl. destruct s as [|c s]; [reflexivity|].
      rewrite sub_from_after_start by lia; reflexivity.
  - exists []; simpl. destruct s as [|c s]; [reflexivity|].
    rewrite sub_from_after_start by lia; reflexivity.
Qed.

Lemma rstrip_prefix s : exists post, s = rstrip s ++ post.
Proof.
  unfold rstrip.
  destruct (lstrip_suffix (rev s)) as [pre H].
  exists (rev pre).
  rewrite <- rev_app_distr, <- H, rev_involutive; reflexivity.
Qed.

Lemma strip_substring s : exists pre post, s = pre ++ strip s ++ post.
Proof.
  unfold strip.
  destruct (lstrip_suffix s) as [pre H].
  destruct (rstrip_prefix (lstrip s)) as [post H'].
  exists pre, post; rewrite <- H', <- H; reflexivity.
Qed.

(** The cleaned-up region name is a part of the matched region. *)
Lemma clean_region_substring region :
  exists pre post, region = pre ++ clean_region region ++ post.
Proof.
  unfold clean_region.
  set (r1 := sub true article_re [] region).
  assert (E1 : exists p, region = p ++ r1).
  { destruct (sub_anchored_suffix true
               (seq [Grp 1 (Alt (word "the") (Alt (word "a") (word "an")));
                     Rep true 1 blank]) region) as [p Hp].
    exists p; exact Hp. }
  destruct E1 as [p1 H1].
  assert (E2 : exists p, r1 = p ++ sub false punct_re [] r1).
  { destruct (sub_anchored_suffix false
               (seq [Cls (any_of "-:*"); Rep true 0 blank]) r1) as [p Hp].
    exists p; exact Hp. }
  destruct E2 as [p2 H2].
  destruct (strip_substring (sub false punct_re [] r1)) as (p3 & post & H3).
  exists (p1 ++ p2 ++ p3), post.
  rewrite H1 at 1; rewrite H2 at 1; rewrite H3 at 1.
  rewrite <- !app_assoc; reflexivity.
Qed.

Lemma contains_substring x pre s post :
  contains x s = true -> contains x (pre ++ s ++ post) = true.
Proof.
  rewrite !contains_iff; intros (p & q & ->).
  exists (pre ++ p), (q ++ post); rewrite <- !app_assoc; reflexivity.
Qed.

Lemma any_in_false phrases text :
  any_in phrases text = false <->
  forall q, In q phrases -> contains q text = false.
Proof.
  unfold any_in; induction phrases as [|p ps IH]; simpl.
  - split; [intros _ q [] | reflexivity].
  - rewrite orb_false_iff, IH; split.
    + intros [H1 H2] q [<- | Hq]; auto.
    + intros H; split; [apply H; auto | intros q Hq; apply H; auto].
Qed.

Lemma any_in_clean_region phrases region :
  any_in phrases (lower region) = false ->
  any_in phrases (lower (clean_region region)) = false.
Proof.
  rewrite !any_in_false; intros H q Hq.
  destruct (contains q (lower (clean_region region))) eqn:E; [|reflexivity].
  destruct (clean_region_substring region) as (pre & post & Hr).
  rewrite <- (H q Hq); symmetry.
  rewrite Hr at 1; rewrite !lower_app.
  apply contains_substring; exact E.
Qed.

(** ** The extractor *)

Lemma candidate_some lvl mt w :
  candidate lvl mt = Some w ->
  level w = lvl
  /\ (3 <= py_len (region_name w) <= 200)%Z
  /\ any_in skip_phrases (lower (region_name w)) = false
  /\ any_in vague_terms (lower (region_name w)) = false
  /\ any_in skip_phrases (lower (strip (group 1 mt))) = false.
Proof.
  unfold candidate.
  destruct (any_in skip_phrases (lower (strip (group 1 mt)))) eqn:Es;
    [discriminate|].
  destruct (any_in vague_terms (lower (clean_region (strip (group 1 mt)))))
    eqn:Ev; [discriminate|].
  destruct ((py_len (clean_region (strip (group 1 mt))) <? 3)%Z
            || (200 <? py_len (clean_region (strip (group 1 mt))))%Z) eqn:El;
    [discriminate|].
  intros H; inversion H; subst; cbn [level region_name].
  apply orb_false_iff in El as [El1 El2].
  apply Z.ltb_ge in El1, El2.
  repeat split; auto.
  apply any_in_clean_region; exact Es.
Qed.

Lemma scan_matches_in lvl matches : forall warnings w,
  In w (scan_matches lvl matches warnings) ->
  In w warnings \/ exists mt, In mt matches /\ candidate lvl mt = Some w.
Proof.
  induction matches as [|mt rest IH]; intros warnings w H; simpl in H; [auto|].
  destruct (candidate lvl mt) as [c|] eqn:Ec.
  - destruct (already_covered (region_name c) warnings).
    + apply IH in H as [H | (m & Hm & Hc)]; [auto|].
      right; exists m; split; [right|]; assumption.
    + apply IH in H as [H | (m & Hm & Hc)].
      * apply in_app_or in H as [H | [<- | []]]; [auto|].
        right; exists mt; split; [left; reflexivity | exact Ec].
      * right; exists m; split; [right|]; assumption.
  - apply IH in H as [H | (m & Hm & Hc)]; [auto|].
    right; exists m; split; [right|]; assumption.
Qed.

(** Every warning of the extractor comes from a match of one of the two
    scans, and a scan runs only below its level. *)
Lemma extract_in unescape text overall w :
  In w (extract_regional_warnings unescape text overall) ->
  exists lvl mt,
    candidate lvl mt = Some w
    /\ ((lvl = 4%Z /\ (overall < 4)%Z
         /\ In mt (finditer false do_not_travel_re (clean_html unescape text)))
        \/ (lvl = 3%Z /\ (overall < 3)%Z
            /\ In mt (finditer false reconsider_re (clean_html unescape text)))).
Proof.
  unfold extract_regional_warnings.
  destruct (Z.ltb_spec overall 3) as [H3 | H3].
  - intros H; apply scan_matches_in in H as [H | (mt & Hm & Hc)].
    + destruct (Z.ltb_spec overall 4) as [H4 | H4]; [|lia].
      apply scan_matches_in in H as [[] | (mt & Hm & Hc)].
      exists 4%Z, mt; split; [exact Hc | left; auto].
    + exists 3%Z, mt; split; [exact Hc | right; auto].
  - destruct (Z.ltb_spec overall 4) as [H4 | H4]; [|intros []].
    intros H; apply scan_matches_in in H as [[] | (mt & Hm & Hc)].
    exists 4%Z, mt; split; [exact Hc | left; auto].
Qed.

Lemma phrases_lower_case :
  forall q, In q (skip_phrases ++ vague_terms) -> lower q = q.
Proof.
  apply Forall_forall; repeat constructor.
Qed.

(** C7 (emitted warnings).  Every warning the extractor emits has level 3
    or 4 and a region name of 3 to 200 characters that contains no
    country-wide qualifier and no vague-reference phrase, in whatever letter
    case; a matched region phrase that contains "entire country" yields no
    warning, at any level. *)
Theorem extract_regional_warnings_invariant :
  forall (unescape : str -> str) (text : str) (overall : Z),
    (forall w,
        In w (extract_regional_warnings unescape text overall) ->
        (level w = 3 \/ level w = 4)%Z
        /\ (3 <= py_len (region_name w) <= 200)%Z
        /\ any_in skip_phrases (lower (region_name w)) = false
        /\ any_in vague_terms (lower (region_name w)) = false
        /\ (forall q, In q (skip_phrases ++ vague_terms) ->
                      contains q (region_name w) = false)
        /\ contains (lit "entire country") (lower (region_name w)) = false)
    /\ (forall lvl mt,
           contains (lit "entire country") (lower (strip (group 1 mt))) = true ->
           candidate lvl mt = None).
Proof.
  intros unescape text overall; split.
  - intros w Hw.
    apply extract_in in Hw as (lvl & mt & Hc & Hlvl).
    apply candidate_some in Hc as (Hl & Hlen & Hskip & Hvague & _).
    split; [destruct Hlvl as [(-> & _) | (-> & _)]; auto|].
    split; [exact Hlen|].
    split; [exact Hskip|]. split; [exact Hvague|].
    assert (Hnone : forall q, In q (skip_phrases ++ vague_terms) ->
                              contains q (lower (region_name w)) = false).
    { intros q Hq; apply in_app_or in Hq as [Hq | Hq];
        [exact (proj1 (any_in_false _ _) Hskip q Hq)
        | exact (proj1 (any_in_false _ _) Hvague q Hq)]. }
    split.
    + intros q Hq.
      destruct (contains q (region_name w)) eqn:E; [|reflexivity].
      apply contains_lower in E.
      rewrite (phrases_lower_case q Hq), (Hnone q Hq) in E; discriminate.
    + destruct (contains (lit "entire country") (lower (region_name w))) eqn:E;
        [|reflexivity].
      rewrite <- (proj1 (any_in_false _ _) Hskip (lit "entire"));
        [|simpl; auto 10].
      symmetry. apply contains_iff in E as (p & q & E).
      apply contains_iff; exists p, (lit " country" ++ q).
      rewrite E; reflexivity.
  - intros lvl mt H.
    destruct (candidate lvl mt) as [w|] eqn:Ec; [|reflexivity].
    apply candidate_some in Ec as (_ & _ & _ & _ & Hskip).
    assert (E : contains (lit "entire") (lower (strip (group 1 mt))) = false).
    { apply (proj1 (any_in_false _ _) Hskip); simpl; auto 10. }
    apply contains_iff in H as (p & q & H).
    assert (E' : contains (lit "entire") (lower (strip (group 1 mt))) = true).
    { apply contains_iff; exists p, (lit " country" ++ q).
      rewrite H; reflexivity. }
    congruence.
Qed.

Lemma extract_regional_warnings_invariant_witness :
  (3 <= py_len (lit "Sinai Peninsula") <= 200)%Z.
Proof.
  destruct (extract_regional_warnings_invariant
              (fun s => s)
              (lit "Do not travel to the Sinai Peninsula due to terrorism.")
              2%Z) as [H _].
  destruct (H (mk_warning (lit "Sinai Peninsula") 4 (lit "terrorism")))
    as (_ & Hlen & _).
  - vm_compute; left; reflexivity.
  - exact Hlen.
Defined.

(** ** Repetitions *)

Lemma orelse_none_r {A} (a : option A) : orelse a None = a.
Proof. destruct a; reflexivity. Qed.

(** A greedy run of blanks in front of something that cannot start with a
    blank skips all the blanks. *)
Lemma rep_greedy_blank p k :
  (forall c, p c = isspace c) ->
  (forall pos c s cs, isspace c = true -> k pos (c :: s) cs = None) ->
  forall s pos cs,
    exists pos', rep true p k s 0 pos cs = k pos' (lstrip s) cs.
Proof.
  intros Hp Hk; induction s as [|c s IH]; intros pos cs; simpl.
  - exists pos; reflexivity.
  - rewrite Hp; destruct (isspace c) eqn:E.
    + rewrite (Hk pos c s cs E), orelse_none_r. apply IH.
    + exists pos; reflexivity.
Qed.

(** A lazy repetition stops at the first place where the rest matches. *)
Lemma rep_lazy_first p k : forall X t n pos cs mt,
  n <= List.length X ->
  Forall (fun c => p c = true) X ->
  k (pos + List.length X) t cs = Some mt ->
  (forall X' t', X ++ t = X' ++ t' -> n <= List.length X' ->
                 List.length X' < List.length X ->
                 k (pos + List.length X') t' cs = None) ->
  rep false p k (X ++ t) n pos cs = Some mt.
Proof.
  induction X as [|c X IH]; intros t n pos cs mt Hn Hall Hk Hmin.
  - simpl in Hn; assert (n = 0) by lia; subst n.
    simpl in Hk; rewrite Nat.add_0_r in Hk; simpl.
    destruct t as [|c t]; simpl; [exact Hk|].
    destruct (p c); [rewrite Hk; reflexivity | exact Hk].
  - inversion Hall as [|? ? Hc Hall']; subst.
    simpl in Hk; rewrite <- Nat.add_succ_comm in Hk.
    assert (Hmin' : forall n' X' t',
               n' = pred n ->
               X ++ t = X' ++ t' -> n' <= List.length X' ->
               List.length X' < List.length X ->
               k (S pos + List.length X') t' cs = None).
    { intros n' X' t' -> HX Hn' Hlt.
      rewrite Nat.add_succ_comm.
      apply (Hmin (c :: X') t'); simpl; [rewrite HX; reflexivity | lia | lia]. }
    destruct n as [|n]; simpl; rewrite Hc.
    + assert (H0 : k pos (c :: X ++ t) cs = None).
      { rewrite <- (Nat.add_0_r pos).
        apply (Hmin [] (c :: X ++ t)); simpl; auto; lia. }
      rewrite H0; simpl. apply IH; auto; [lia|].
      intros X' t'; apply Hmin'; reflexivity.
    + apply IH; auto; [simpl in Hn; lia|].
      intros X' t'; apply Hmin'; reflexivity.
Qed.

Lemma rep_lazy_none p k : forall s n pos cs,
  (forall X t, s = X ++ t -> n <= List.length X ->
               Forall (fun c => p c = true) X ->
               k (pos + List.length X) t cs = None) ->
  rep false p k s n pos cs = None.
Proof.
  induction s as [|c s IH]; intros n pos cs H.
  - destruct n; simpl; [|reflexivity].
    rewrite <- (Nat.add_0_r pos); apply (H [] []); simpl; auto.
  - assert (Hhere : n = 0 -> k pos (c :: s) cs = None).
    { intros ->; rewrite <- (Nat.add_0_r pos); apply (H [] (c :: s)); simpl; auto. }
    assert (Hnext : p c = true ->
                    rep false p k s (pred n) (S pos) cs = None).
    { intros Hc; apply IH; intros X t -> Hn Hall.
      rewrite Nat.add_succ_comm.
      apply (H (c :: X) t); simpl; [reflexivity | lia | constructor; auto]. }
    destruct n as [|n]; simpl.
    + rewrite (Hhere eq_refl); destruct (p c); [apply Hnext|]; reflexivity.
    + destruct (p c); [apply Hnext|]; reflexivity.
Qed.
(** ** The classes and literals of the title pattern under [re.IGNORECASE] *)

Ltac each_char c := destruct c as [[] [] [] [] [] [] [] []].

Lemma cls_ci_isspace c : cls_matches true blank c = isspace c.
Proof. each_char c; reflexivity. Qed.

Lemma cls_ci_isdigit c : cls_matches true digit c = isdigit c.
Proof. each_char c; reflexivity. Qed.

Lemma cls_ci_dot c : cls_matches true dot c = not_newline c.
Proof. each_char c; reflexivity. Qed.

Lemma chr_ci_dash c : chr_matches true "-" c = eqb_char c "-".
Proof. each_char c; reflexivity. Qed.

Lemma chr_ci c x : chr_matches true x c = eqb_char (lower_char c) (lower_char x).
Proof. unfold chr_matches, eqb_char; apply Ascii.eqb_sym. Qed.

Lemma blank_not_dash c : isspace c = true -> eqb_char c "-" = false.
Proof. each_char c; (discriminate || reflexivity). Qed.

Lemma blank_not_l c : isspace c = true -> eqb_char (lower_char c) "l" = false.
Proof. each_char c; (discriminate || reflexivity). Qed.

Lemma blank_not_digit c : isspace c = true -> isdigit c = false.
Proof. each_char c; (discriminate || reflexivity). Qed.

(** The word "Level" in any letter case. *)
Lemma run_word_level pos s cs k :
  run true (word "Level") pos s cs k =
  if str_eqb (lower (firstn 5 s)) (lit "level")
  then k (pos + 5) (skipn 5 s) cs else None.
Proof.
  unfold word.
  destruct s as [|c1 [|c2 [|c3 [|c4 [|c5 s]]]]];
    cbn [lit list_ascii_of_string map seq run
         firstn skipn lower map str_eqb];
    rewrite ?chr_ci;
    change (lower_char "L") with "l"%char;
    change (lower_char "e") with "e"%char;
    change (lower_char "v") with "v"%char;
    change (lower_char "l") with "l"%char;
    repeat match goal with
           | |- context [eqb_char (lower_char ?c) ?x] =>
               destruct (eqb_char (lower_char c) x); cbn [andb]
           end;
    try reflexivity.
  replace (pos + 5) with (S (S (S (S (S pos))))) by lia; reflexivity.
Qed.

(** ** The title pattern *)

Ltac skip_blanks :=
  lazymatch goal with
  | |- context [rep true ?p ?k ?s 0 ?pos ?cs] =>
      let H := fresh "Hk" in
      let pos' := fresh "pos" in
      let E := fresh "E" in
      assert (H : forall q c u v, isspace c = true -> k q (c :: u) v = None);
      [ | destruct (rep_greedy_blank p k cls_ci_isspace H s pos cs) as [pos' E];
          rewrite E; clear H E ]
  end.

(** The matcher on the tail of the title pattern reads a level token. *)
Lemma run_title_tail pos t cs :
  match level_token t with
  | Some (d, rest) =>
      exists e, run true title_tail_re pos t cs accept
                = Some (mk_rmatch e rest ((2, [d]) :: cs))
  | None => run true title_tail_re pos t cs accept = None
  end.
Proof.
  unfold title_tail_re, level_token; cbn [seq run].
  skip_blanks.
  { intros p c s cs' Hc; cbn [run].
    rewrite chr_ci_dash, (blank_not_dash c Hc); reflexivity. }
  destruct (lstrip t) as [|c t1]; [reflexivity|].
  cbn [run]; rewrite chr_ci_dash.
  destruct (eqb_char c "-"); [|reflexivity].
  skip_blanks.
  { intros p c' s cs' Hc; rewrite run_word_level.
    cbn [firstn lower map str_eqb lit list_ascii_of_string].
    rewrite (blank_not_l c' Hc); reflexivity. }
  rewrite run_word_level.
  destruct (str_eqb (lower (firstn 5 (lstrip t1))) (lit "level")); [|reflexivity].
  skip_blanks.
  { intros p c' s cs' Hc; cbn [run].
    rewrite cls_ci_isdigit, (blank_not_digit c' Hc); reflexivity. }
  destruct (lstrip (skipn 5 (lstrip t1))) as [|d rest]; [reflexivity|].
  cbn [run]; rewrite cls_ci_isdigit.
  destruct (isdigit d); [|reflexivity].
  exists (S pos2); unfold accept.
  replace (S pos2 - pos2) with 1 by lia; reflexivity.
Qed.

Lemma lstrip_blanks ws r :
  Forall (fun c => isspace c = true) ws -> lstrip (ws ++ r) = lstrip r.
Proof.
  induction 1 as [|c ws Hc _ IH]; simpl; [reflexivity|].
  rewrite Hc; exact IH.
Qed.

Lemma lstrip_split s :
  exists ws, s = ws ++ lstrip s /\ Forall (fun c => isspace c = true) ws.
Proof.
  induction s as [|c s (ws & Hs & Hws)]; simpl.
  - exists []; split; [reflexivity | constructor].
  - destruct (isspace c) eqn:E.
    + exists (c :: ws); split; [simpl; rewrite <- Hs; reflexivity|].
      constructor; assumption.
    + exists []; split; [reflexivity | constructor].
Qed.

Lemma lstrip_nonblank c s : isspace c = false -> lstrip (c :: s) = c :: s.
Proof. intros H; simpl; rewrite H; reflexivity. Qed.

Lemma digit_not_blank d : isdigit d = true -> isspace d = false.
Proof. each_char d; (discriminate || reflexivity). Qed.

Lemma lower_l_not_blank c : lower_char c = "l"%char -> isspace c = false.
Proof. each_char c; (discriminate || reflexivity). Qed.

(** The hand-written reader and the declarative shape of a level token
    agree. *)
Lemma level_token_spec t N :
  starts_with_level t N <->
  exists d rest, level_token t = Some (d, rest) /\ N = digit_value d.
Proof.
  split.
  - intros (ws1 & ws2 & lvl & ws3 & d & rest & -> & H1 & H2 & H3 & Hl & Hd & ->).
    exists d, rest; split; [|reflexivity].
    unfold level_token.
    rewrite (lstrip_blanks ws1 _ H1), lstrip_nonblank by reflexivity.
    change (eqb_char "-" "-") with true; cbn iota.
    rewrite (lstrip_blanks ws2 _ H2).
    destruct lvl as [|c1 [|c2 [|c3 [|c4 [|c5 [|c6 lvl]]]]]]; try discriminate Hl.
    assert (Hc1 : lower_char c1 = "l"%char) by (inversion Hl; reflexivity).
    cbn [app]; rewrite (lstrip_nonblank c1) by (apply lower_l_not_blank; exact Hc1).
    cbn [firstn skipn].
    rewrite Hl, str_eqb_refl.
    rewrite (lstrip_blanks ws3 _ H3), lstrip_nonblank
      by (apply digit_not_blank; exact Hd).
    rewrite Hd; reflexivity.
  - intros (d & rest & H & ->).
    unfold level_token in H.
    destruct (lstrip_split t) as (ws1 & Ht & H1).
    destruct (lstrip t) as [|c t1]; [discriminate|].
    destruct (eqb_char c "-") eqn:Ec; [|discriminate].
    apply eqb_char_eq in Ec; subst c.
    destruct (lstrip_split t1) as (ws2 & Ht1 & H2).
    destruct (str_eqb (lower (firstn 5 (lstrip t1))) (lit "level")) eqn:El;
      [|discriminate].
    apply str_eqb_eq in El.
    destruct (lstrip_split (skipn 5 (lstrip t1))) as (ws3 & Ht2 & H3).
    destruct (lstrip (skipn 5 (lstrip t1))) as [|d' rest']; [discriminate|].
    destruct (isdigit d') eqn:Ed; [|discriminate].
    inversion H; subst d' rest'.
    exists ws1, ws2, (firstn 5 (lstrip t1)), ws3, d, rest.
    repeat split; auto.
    rewrite Ht at 1; f_equal; f_equal.
    rewrite Ht1 at 1; f_equal.
    rewrite <- Ht2; symmetry; apply firstn_skipn.
Qed.

Lemma re_match_title title :
  re_match true title_re title =
  rep false (cls_matches true dot)
      (fun pos' s' cs' =>
         run true title_tail_re pos' s' ((1, firstn (pos' - 0) title) :: cs') accept)
      title 1 0 [].
Proof. reflexivity. Qed.

Lemma dot_true c : not_newline c = true <-> c <> LF.
Proof.
  unfold not_newline; rewrite negb_true_iff.
  split.
  - intros H E; apply eqb_char_eq in E; congruence.
  - intros H; destruct (eqb_char c LF) eqn:E; [|reflexivity].
    apply eqb_char_eq in E; contradiction.
Qed.

Lemma one_line_dot X :
  Forall (fun c => c <> LF) X <-> Forall (fun c => cls_matches true dot c = true) X.
Proof.
  rewrite !Forall_forall; split; intros H c Hc.
  - rewrite cls_ci_dot; apply dot_true, H, Hc.
  - apply dot_true; rewrite <- cls_ci_dot; apply H, Hc.
Qed.

Lemma app_prefix {A} (X : list A) : forall t X' t',
  X ++ t = X' ++ t' -> List.length X' <= List.length X ->
  exists Y, X = X' ++ Y.
Proof.
  induction X as [|x X IH]; intros t X' t' H Hlen.
  - destruct X'; [exists []; reflexivity | simpl in Hlen; lia].
  - destruct X' as [|x' X']; [exists (x :: X); reflexivity|].
    simpl in H; inversion H; subst x'.
    destruct (IH t X' t') as [Y HY]; [assumption | simpl in Hlen; lia|].
    exists Y; simpl; rewrite <- HY; reflexivity.
Qed.

Lemma heading_at_spec title n :
  heading_at title n = true <->
  exists X N, heading title X N /\ List.length X = n.
Proof.
  unfold heading_at; rewrite !andb_true_iff, !Nat.leb_le, forallb_forall.
  split.
  - intros [[[H1 H2] Hdot] Htok].
    destruct (level_token (skipn n title)) as [[d rest]|] eqn:E; [|discriminate].
    exists (firstn n title), (digit_value d); split.
    + exists (skipn n title); repeat split.
      * symmetry; apply firstn_skipn.
      * intros HX; apply (f_equal (@List.length _)) in HX.
        rewrite length_firstn in HX; simpl in HX; lia.
      * apply Forall_forall; intros c Hc; apply dot_true, Hdot, Hc.
      * apply level_token_spec; exists d, rest; auto.
    + rewrite length_firstn; lia.
  - intros (X & N & (t & -> & HX & Hline & Htok) & <-).
    apply level_token_spec in Htok as (d & rest & Htok & _).
    rewrite length_app, firstn_app, Nat.sub_diag, firstn_all, skipn_app,
      Nat.sub_diag, skipn_all; simpl; rewrite app_nil_r, Htok.
    repeat split; try lia.
    + destruct X; [contradiction | simpl; lia].
    + intros c Hc; apply dot_true.
      rewrite Forall_forall in Hline; apply Hline, Hc.
Qed.

Lemma least_true (f : nat -> bool) : forall n,
  f n = true -> exists m, f m = true /\ forall k, f k = true -> m <= k.
Proof.
  intros n; induction n as [n IH] using lt_wf_ind; intros Hn.
  destruct (existsb f (List.seq 0 n)) eqn:E.
  - apply existsb_exists in E as (k & Hk & Hfk).
    apply in_seq in Hk; apply (IH k); [lia | exact Hfk].
  - exists n; split; [exact Hn|].
    intros k Hk; destruct (Nat.le_gt_cases n k) as [|Hlt]; [assumption|].
    exfalso.
    assert (existsb f (List.seq 0 n) = true); [|congruence].
    apply existsb_exists; exists k; split; [apply in_seq; lia | exact Hk].
Qed.
(** ** Headings with a dash-free name *)

Lemma lstrip_head s c t : lstrip s = c :: t -> isspace c = false /\ In c s.
Proof.
  induction s as [|x s IH]; simpl; [discriminate|].
  destruct (isspace x) eqn:E.
  - intros H; destruct (IH H); auto.
  - intros H; inversion H; subst; auto.
Qed.

Lemma lstrip_app s t : lstrip s <> [] -> lstrip (s ++ t) = lstrip s ++ t.
Proof.
  induction s as [|x s IH]; simpl; [congruence|].
  destruct (isspace x); [exact IH | reflexivity].
Qed.

Lemma lstrip_nonempty s c :
  In c s -> isspace c = false -> lstrip s <> [].
Proof.
  induction s as [|x s IH]; simpl; [tauto|].
  intros [-> | Hin] Hc.
  - rewrite Hc; discriminate.
  - destruct (isspace x); [auto | discriminate].
Qed.

Lemma rstrip_app_blanks s ws :
  Forall (fun c => isspace c = true) ws -> rstrip (s ++ ws) = rstrip s.
Proof.
  intros H; unfold rstrip.
  rewrite rev_app_distr, lstrip_blanks; [reflexivity|].
  apply Forall_rev; exact H.
Qed.

(** A text is its right-stripped part, which is empty or ends with a
    character that is not blank, followed by blanks. *)
Lemma rstrip_split s :
  exists ws,
    s = rstrip s ++ ws /\ Forall (fun c => isspace c = true) ws
    /\ (rstrip s = [] \/ exists y c, rstrip s = y ++ [c] /\ isspace c = false).
Proof.
  unfold rstrip.
  destruct (lstrip_split (rev s)) as (ws & Hs & Hws).
  exists (rev ws); split; [|split].
  - rewrite <- rev_app_distr, <- Hs, rev_involutive; reflexivity.
  - apply Forall_rev; exact Hws.
  - destruct (lstrip (rev s)) as [|c t] eqn:E; [left; reflexivity|].
    right; exists (rev t), c; split; [reflexivity|].
    apply (lstrip_head _ _ _ E).
Qed.

Lemma strip_rstrip s : strip (rstrip s) = strip s.
Proof.
  destruct (rstrip_split s) as (ws & Hs & Hws & Hcore).
  remember (rstrip s) as core eqn:Ecore; clear Ecore.
  subst s; unfold strip.
  destruct Hcore as [E | (y & c & E & Hc)].
  - rewrite E; simpl; rewrite <- (app_nil_r ws), lstrip_blanks by exact Hws.
    reflexivity.
  - rewrite lstrip_app.
    + rewrite rstrip_app_blanks by exact Hws; reflexivity.
    + apply (lstrip_nonempty _ c); [|exact Hc].
      rewrite E; apply in_or_app; right; left; reflexivity.
Qed.

Lemma strip_blanks ws :
  Forall (fun c => isspace c = true) ws -> strip ws = [].
Proof.
  intros H; unfold strip.
  rewrite <- (app_nil_r ws), lstrip_blanks by exact H; reflexivity.
Qed.

Lemma starts_with_level_literal ws d rest :
  Forall (fun c => isspace c = true) ws -> isdigit d = true ->
  starts_with_level (ws ++ lit " - Level " ++ d :: rest) (digit_value d).
Proof.
  intros Hws Hd.
  exists (ws ++ lit " "), (lit " "), (lit "Level"), (lit " "), d, rest.
  repeat split; auto.
  - rewrite <- app_assoc; reflexivity.
  - apply Forall_app; split; [exact Hws | repeat constructor].
  - repeat constructor.
  - repeat constructor.
Qed.

(** No level token starts inside a text whose first non-blank character is
    not a dash. *)
Lemma level_token_after_name Y t :
  (exists c, In c Y /\ isspace c = false) ->
  Forall (fun c => c <> "-"%char) Y ->
  level_token (Y ++ t) = None.
Proof.
  intros (c & Hin & Hc) Hdash; unfold level_token.
  rewrite lstrip_app by (eapply lstrip_nonempty; eassumption).
  destruct (lstrip Y) as [|x Y'] eqn:E;
    [exfalso; eapply lstrip_nonempty; eassumption|].
  simpl.
  destruct (eqb_char x "-") eqn:Ex; [|reflexivity].
  apply eqb_char_eq in Ex; subst x.
  apply lstrip_head in E as [_ Hx].
  rewrite Forall_forall in Hdash; exfalso; exact (Hdash _ Hx eq_refl).
Qed.

(** The literal shape: a non-empty name on one line and without a dash,
    then " - Level ", a digit and anything. *)
Lemma title_shape_literal X d rest :
  X <> [] ->
  Forall (fun c => c <> LF /\ c <> "-"%char) X ->
  isdigit d = true ->
  exists X', title_shape (X ++ lit " - Level " ++ d :: rest) X' (digit_value d)
             /\ strip X' = strip X.
Proof.
  intros HX Hall Hd.
  assert (Hline : Forall (fun c => c <> LF) X)
    by (eapply Forall_impl; [|exact Hall]; simpl; tauto).
  assert (Hdash : Forall (fun c => c <> "-"%char) X)
    by (eapply Forall_impl; [|exact Hall]; simpl; tauto).
  destruct (rstrip_split X) as (ws & Hs & Hws & Hcore).
  destruct Hcore as [E | (y & c & E & Hc)].
  - (* the name is blank *)
    rewrite E in Hs; simpl in Hs; subst ws.
    destruct X as [|c1 X]; [contradiction|].
    exists [c1]; split; [split|].
    + exists (X ++ lit " - Level " ++ d :: rest); split; [reflexivity|].
      split; [discriminate|]. split.
      * inversion Hline; repeat constructor; assumption.
      * inversion Hws; apply starts_with_level_literal; assumption.
    + intros X' N' (t & _ & HX' & _).
      destruct X'; [contradiction | simpl; lia].
    + inversion Hws; subst.
      rewrite !strip_blanks; [reflexivity | assumption | repeat constructor; assumption].
  - (* the name ends with a character that is not blank *)
    exists (rstrip X); split; [split|].
    + exists (ws ++ lit " - Level " ++ d :: rest); split; [|split; [|split]].
      * rewrite Hs at 1; rewrite <- app_assoc; reflexivity.
      * rewrite E; destruct y; discriminate.
      * rewrite Hs in Hline; apply Forall_app in Hline; tauto.
      * apply starts_with_level_literal; assumption.
    + intros X' N' (t & Ht & HX' & _ & Htok).
      destruct (Nat.le_gt_cases (List.length (rstrip X)) (List.length X'))
        as [|Hlt]; [assumption|].
      exfalso.
      rewrite Hs in Ht at 1; rewrite <- app_assoc in Ht.
      destruct (app_prefix (rstrip X) _ X' t Ht) as [Y HY]; [lia|].
      rewrite HY, <- app_assoc in Ht; apply app_inv_head in Ht.
      apply level_token_spec in Htok as (d' & rest' & Htok & _).
      rewrite <- Ht, level_token_after_name in Htok; [discriminate| |].
      * exists c; split; [|exact Hc].
        assert (HYne : Y <> []).
        { intros ->; rewrite app_nil_r in HY; rewrite HY in Hlt; lia. }
        rewrite E in HY.
        destruct (exists_last HYne) as (Y0 & c' & ->).
        rewrite app_assoc in HY; apply app_inj_tail in HY as [_ ->].
        apply in_or_app; right; left; reflexivity.
      * rewrite Hs in Hdash; apply Forall_app in Hdash as [Hdash _].
        rewrite HY in Hdash; apply Forall_app in Hdash; tauto.
    + apply strip_rstrip.
Qed.

(** A heading with the shape parses to the trimmed prefix and the level. *)
Lemma parse_title_shape title X N :
  title_shape title X N ->
  parse_level_from_title title = (strip X, N).
Proof.
  intros [(t & -> & HX & Hline & Htok) Hmin].
  apply level_token_spec in Htok as (d & rest & Htok & ->).
  unfold parse_level_from_title; rewrite re_match_title.
  pose proof (run_title_tail (0 + List.length X) t
                [(1, firstn (0 + List.length X - 0) (X ++ t))]) as Htail.
  rewrite Htok in Htail; destruct Htail as [e Htail].
  erewrite rep_lazy_first; [| | | exact Htail |].
  + unfold group; cbn [m_caps lookup_group Nat.eqb].
    rewrite Nat.add_0_l, Nat.sub_0_r, firstn_app, Nat.sub_diag, firstn_all.
    simpl; rewrite app_nil_r; reflexivity.
  + destruct X; [contradiction | simpl; lia].
  + apply one_line_dot; exact Hline.
  + intros X' t' HXt Hlen Hlt.
    pose proof (run_title_tail (0 + List.length X') t'
                  [(1, firstn (0 + List.length X' - 0) (X ++ t))]) as Htail'.
    destruct (level_token t') as [[d' rest']|] eqn:Etok; [|exact Htail'].
    exfalso.
    assert (Hh : heading (X ++ t) X' (digit_value d')).
    { exists t'; repeat split; auto.
      - intros ->; simpl in Hlen; lia.
      - destruct (app_prefix X t X' t' HXt) as [Y ->]; [lia|].
        apply Forall_app in Hline; tauto.
      - apply level_token_spec; exists d', rest'; auto. }
    apply Hmin in Hh; lia.
Qed.

(** C8 (title parser).  A heading of the shape "X - Level N: ..." -- a
    one-line prefix X, then blanks, a dash, blanks, the word "Level" in any
    letter case, blanks and the digit N, X being the text before the first
    such level token -- parses to the trimmed X and the level N; a heading
    in which no level token follows a prefix parses to itself and level 0;
    a heading with a level token has the shape for some X and N, so the two
    cases cover every heading.  In particular a name X that is not empty,
    on one line and free of dashes, followed by " - Level N" and anything,
    parses to the trimmed X and N.  "Mexico - Level 2: Exercise Increased
    Caution" gives ("Mexico", 2). *)
Theorem parse_level_from_title_spec :
  (forall title X N,
      title_shape title X N ->
      parse_level_from_title title = (strip X, N))
  /\ (forall title,
         (forall X N, ~ heading title X N) ->
         parse_level_from_title title = (title, 0%Z))
  /\ (forall title X N,
         heading title X N -> exists X' N', title_shape title X' N')
  /\ (forall X d rest,
         X <> [] -> Forall (fun c => c <> LF /\ c <> "-"%char) X ->
         isdigit d = true ->
         parse_level_from_title (X ++ lit " - Level " ++ d :: rest)
         = (strip X, digit_value d))
  /\ title_shape mexico_heading (lit "Mexico") 2
  /\ parse_level_from_title mexico_heading = (lit "Mexico", 2%Z).
Proof.
  split; [|split; [|split; [|split; [|split]]]].
  - exact parse_title_shape.
  - intros title Hnone.
    unfold parse_level_from_title; rewrite re_match_title.
    rewrite rep_lazy_none; [reflexivity|].
    intros X t -> Hlen Hline.
    pose proof (run_title_tail (0 + List.length X) t
                  [(1, firstn (0 + List.length X - 0) (X ++ t))]) as Htail.
    destruct (level_token t) as [[d rest]|] eqn:Etok; [|exact Htail].
    exfalso; apply (Hnone X (digit_value d)).
    exists t; repeat split; auto.
    + intros ->; simpl in Hlen; lia.
    + apply one_line_dot; exact Hline.
    + apply level_token_spec; exists d, rest; auto.
  - intros title X N Hh.
    assert (Hat : heading_at title (List.length X) = true)
      by (apply heading_at_spec; exists X, N; auto).
    apply least_true in Hat as (m & Hm & Hleast).
    apply heading_at_spec in Hm as (X' & N' & Hh' & <-).
    exists X', N'; split; [exact Hh'|].
    intros X'' N'' Hh''; apply Hleast, heading_at_spec.
    exists X'', N''; auto.
  - intros X d rest HX Hall Hd.
    destruct (title_shape_literal X d rest HX Hall Hd) as (X' & Hshape & <-).
    apply parse_title_shape; exact Hshape.
  - split.
    + exists (skipn 6 mexico_heading); split; [reflexivity|].
      split; [discriminate|]. split.
      * repeat constructor; discriminate.
      * apply level_token_spec; eexists; eexists; split;
          [vm_compute; reflexivity | reflexivity].
    + intros X' N' Hh.
      assert (Hat : heading_at mexico_heading (List.length X') = true)
        by (apply heading_at_spec; exists X', N'; auto).
      destruct (Nat.le_gt_cases (List.length (lit "Mexico")) (List.length X'))
        as [|Hlt]; [assumption|].
      exfalso; change (List.length (lit "Mexico")) with 6 in Hlt.
      destruct (List.length X') as [|[|[|[|[|[|n]]]]]];
        try (vm_compute in Hat; discriminate Hat); lia.
  - vm_compute; reflexivity.
Qed.

Lemma parse_level_from_title_spec_witness :
  parse_level_from_title mexico_heading = (strip (lit "Mexico"), 2%Z).
Proof.
  destruct parse_level_from_title_spec as (H & _ & _ & _ & Hshape & _).
  apply (H mexico_heading (lit "Mexico") 2%Z); exact Hshape.
Defined.
(** ** The scans of the extractor *)

Lemma finditer_from_sound ic r : forall fuel pos s mt,
  In mt (finditer_from ic r fuel pos s) ->
  exists pre s', s = pre ++ s' /\ match_at ic r (pos + List.length pre) s' = Some mt.
Proof.
  induction fuel as [|fuel IH]; intros pos s mt H; simpl in H; [contradiction|].
  assert (Hskip : forall c s0, s = c :: s0 ->
                  In mt (finditer_from ic r fuel (S pos) s0) ->
                  exists pre s', s = pre ++ s'
                    /\ match_at ic r (pos + List.length pre) s' = Some mt).
  { intros c s0 -> Hin.
    apply IH in Hin as (pre & s' & -> & Hm).
    exists (c :: pre), s'; split; [reflexivity|].
    simpl; rewrite <- Nat.add_succ_comm; exact Hm. }
  assert (Hhere : forall mt0, match_at ic r pos s = Some mt0 -> mt0 = mt ->
                  exists pre s', s = pre ++ s'
                    /\ match_at ic r (pos + List.length pre) s' = Some mt).
  { intros mt0 Hm <-; exists [], s; simpl; rewrite Nat.add_0_r; auto. }
  destruct (match_at ic r pos s) as [mt0|] eqn:E.
  - destruct (Nat.ltb pos (m_end mt0)).
    + destruct H as [H | H]; [exact (Hhere mt0 eq_refl H)|].
      apply match_at_sound in E as (pre0 & Hs & He).
      apply IH in H as (pre & s' & Hrest & Hm).
      exists (pre0 ++ pre), s'; split.
      * rewrite Hs, Hrest, app_assoc; reflexivity.
      * rewrite length_app, Nat.add_assoc, <- He; exact Hm.
    + destruct H as [H | H]; [exact (Hhere mt0 eq_refl H)|].
      destruct s as [|c s0]; [contradiction|].
      exact (Hskip c s0 eq_refl H).
  - destruct s as [|c s0]; [contradiction|].
    exact (Hskip c s0 eq_refl H).
Qed.

Lemma finditer_sound ic r s mt :
  In mt (finditer ic r s) ->
  exists pre s', s = pre ++ s' /\ match_at ic r (List.length pre) s' = Some mt.
Proof. intros H; apply finditer_from_sound in H; exact H. Qed.







(** ** The two phrases on sentences of one-word regions and reasons *)















(** ** Where a phrase does not match *)











(** ** What the loop body makes of a one-word region *)















(** ** The normalizer on a sentence of single-spaced words *)






Lemma rstrip_last s c : isspace c = false -> rstrip (s ++ [c]) = s ++ [c].
Proof.
  intros Hc; unfold rstrip; rewrite rev_app_distr; cbn [rev app].
  rewrite lstrip_nonblank by exact Hc.
  cbn [rev]; rewrite rev_involutive; reflexivity.
Qed.











(** ** The two scans *)





(** ** The failure-rate test *)

Section FailureRate.

Local Open Scope Z_scope.
Import Float64.

Variables n d : Z.
Hypothesis n_pos : 0 < n.
Hypothesis n_le_d : n <= d.
Hypothesis d_small : d < 2 ^ 53.

Let P := 2 ^ Z.log2 n.
Let l := Z.log2 n - Z.log2 d.

Lemma log2_window :
  -52 <= l <= 0 /\ 1 <= P /\ P <= n < 2 * P
  /\ P * 2 ^ (- l) <= d < 2 * (P * 2 ^ (- l)).
Proof.
  assert (Hd : 0 < d) by lia.
  pose proof (Z.log2_spec n n_pos) as [Hn1 Hn2].
  pose proof (Z.log2_spec d Hd) as [Hd1 Hd2].
  pose proof (Z.log2_nonneg n) as Hln.
  pose proof (Z.log2_nonneg d) as Hld.
  assert (Hl0 : l <= 0).
  { subst l; pose proof (Z.log2_le_mono n d n_le_d); lia. }
  assert (Hl52 : Z.log2 d < 53).
  { apply Z.log2_lt_pow2; lia. }
  assert (HP : 2 ^ Z.log2 d = P * 2 ^ (- l)).
  { subst P l; rewrite <- Z.pow_add_r by lia; f_equal; lia. }
  rewrite Z.pow_succ_r in Hn2, Hd2 by lia.
  subst l; fold P in Hn1, Hn2; rewrite HP in Hd1, Hd2.
  repeat split; lia.
Qed.

(** The binade of the quotient around the threshold. *)
Lemma binade_high : d <= 16 * n -> -56 <= binade n d <= -52.
Proof.
  intros H16; destruct log2_window as (Hl & HP1 & HPn & HPd).
  unfold binade, ratio_geb_pow2; fold l.
  assert (Hl4 : -4 <= l).
  { destruct (Z_lt_le_dec l (-4)) as [Hlt|]; [|assumption].
    exfalso.
    assert (2 ^ 5 <= 2 ^ (- l)) by (apply Z.pow_le_mono_r; lia).
    change (2 ^ 5) with 32 in *; nia. }
  assert (Hcases : l = -4 \/ l = -3 \/ l = -2 \/ l = -1 \/ l = 0) by lia.
  destruct Hcases as [E | [E | [E | [E | E]]]]; rewrite E in *; cbn [Z.leb Z.compare Z.opp];
    match goal with
    | |- context [?a <=? ?b] => destruct (Z.leb_spec a b)
    end; lia.
Qed.

Lemma binade_low : 32 * n < d -> binade n d <= -58.
Proof.
  intros H32; destruct log2_window as (Hl & HP1 & HPn & HPd).
  unfold binade, ratio_geb_pow2; fold l.
  assert (Hl5 : l <= -5).
  { destruct (Z_lt_le_dec (-5) l) as [Hlt|]; [|assumption].
    exfalso.
    assert (2 ^ (- l) <= 2 ^ 4) by (apply Z.pow_le_mono_r; lia).
    change (2 ^ 4) with 16 in *; nia. }
  destruct (0 <=? l) eqn:E0; [apply Z.leb_le in E0; lia|].
  destruct (Z.leb_spec d (n * 2 ^ (- l))); [|lia].
  destruct (Z.eq_dec l (-5)) as [E | E]; [|lia].
  rewrite E in *; change (2 ^ (- -5)) with 32 in *; lia.
Qed.

Lemma binade_at : d <= 32 * n -> 16 * n < d -> binade n d = -57.
Proof.
  intros H32 H16; destruct log2_window as (Hl & HP1 & HPn & HPd).
  unfold binade, ratio_geb_pow2; fold l.
  assert (Hl5 : -5 <= l).
  { destruct (Z_lt_le_dec l (-5)) as [Hlt|]; [|assumption].
    exfalso.
    assert (2 ^ 6 <= 2 ^ (- l)) by (apply Z.pow_le_mono_r; lia).
    change (2 ^ 6) with 64 in *; nia. }
  assert (Hl4 : l <= -4).
  { destruct (Z_lt_le_dec (-4) l) as [Hlt|]; [|assumption].
    exfalso.
    assert (2 ^ (- l) <= 2 ^ 3) by (apply Z.pow_le_mono_r; lia).
    change (2 ^ 3) with 8 in *; nia. }
  assert (Hcases : l = -5 \/ l = -4) by lia.
  destruct Hcases as [E | E]; rewrite E in *; cbn [Z.leb Z.compare Z.opp];
    match goal with
    | |- context [?a <=? ?b] => destruct (Z.leb_spec a b)
    end; lia.
Qed.

(** Rounding never goes below the integer part and at most one above it. *)
Lemma round_scaled_bounds e :
  e <= 0 ->
  let q := (n * 2 ^ (- e)) / d in
  q <= round_scaled n d e <= q + 1.
Proof.
  intros He q; unfold round_scaled.
  destruct (Z.leb_spec e 0); [|lia]. fold q.
  destruct ((d <? 2 * ((n * 2 ^ (- e)) mod d))
            || ((d =? 2 * ((n * 2 ^ (- e)) mod d)) && Z.odd q)); lia.
Qed.

(** The quotient is at least the literal [0.05] exactly when the exact
    ratio is at least one twentieth. *)
Lemma quotient_geb_0_05 :
  geb_pos (true_divide n d) lit_0_05 = true <-> d <= 20 * n.
Proof.
  assert (Hd : 0 < d) by lia.
  unfold true_divide.
  destruct (Z.eqb_spec n 0) as [|_]; [lia|].
  rewrite Z.abs_eq by lia.
  replace (n <? 0) with false by (symmetry; apply Z.ltb_ge; lia).
  destruct (Z_le_gt_dec d (16 * n)) as [H16 | H16].
  - (* the quotient is at least 1/16 *)
    pose proof (binade_high H16) as He.
    pose proof (round_scaled_bounds (binade n d) ltac:(lia)) as Hm.
    cbv zeta in Hm.
    assert (Hq : 1 <= (n * 2 ^ (- binade n d)) / d).
    { apply Z.div_le_lower_bound; [lia|].
      assert (2 ^ 52 <= 2 ^ (- binade n d)) by (apply Z.pow_le_mono_r; lia).
      change (2 ^ 52) with 4503599627370496 in *; nia. }
    split; [intros _; lia | intros _].
    unfold geb_pos, lit_0_05.
    destruct (Z.eqb_spec (round_scaled n d (binade n d)) (2 ^ 53)); cbn [neg mant expo orb].
    + replace (binade n d + 1 =? -57) with false by (symmetry; apply Z.eqb_neq; lia).
      apply Z.ltb_lt; lia.
    + destruct (Z.eqb_spec (round_scaled n d (binade n d)) 0); [lia|].
      replace (binade n d =? -57) with false by (symmetry; apply Z.eqb_neq; lia).
      apply Z.ltb_lt; lia.
  - destruct (Z_le_gt_dec d (32 * n)) as [H32 | H32].
    + (* the quotient is in the binade of 0.05 *)
      rewrite (binade_at H32 ltac:(lia)).
      unfold round_scaled; cbn [Z.leb Z.compare Z.opp].
      pose proof (Z.div_mod (n * 2 ^ 57) d ltac:(lia)) as Hdm.
      pose proof (Z.mod_pos_bound (n * 2 ^ 57) d Hd) as Hr.
      set (q := (n * 2 ^ 57) / d) in *.
      set (r := (n * 2 ^ 57) mod d) in *.
      change (2 ^ 57) with 144115188075855872 in *.
      change (2 ^ 53) with 9007199254740992 in *.
      change (2 ^ 52) with 4503599627370496 in *.
      assert (Hq_hi : q <= 9007199254740991).
      { destruct (Z_le_gt_dec q 9007199254740991) as [|Hgt]; [assumption|].
        exfalso.
        assert (9007199254740992 * d <= d * q) by nia.
        lia. }
      assert (Hup : d <= 20 * n -> 7205759403792793 <= q).
      { intros H20.
        destruct (Z_le_gt_dec 7205759403792793 q) as [|Hlt]; [assumption|].
        exfalso.
        assert (d * q <= 7205759403792792 * d) by nia.
        lia. }
      assert (Hdown : 20 * n < d -> q <= 7205759403792792).
      { intros H20.
        destruct (Z_le_gt_dec q 7205759403792792) as [|Hgt]; [assumption|].
        exfalso.
        assert (7205759403792793 * d <= d * q) by nia.
        lia. }
      unfold geb_pos, lit_0_05.
      destruct (Z.ltb_spec d (2 * r)) as [Hr2 | Hr2]; cbn [orb].
      * (* rounds up *)
        destruct (Z.eqb_spec (q + 1) 9007199254740992) as [Eq | Eq];
          cbn [neg mant expo orb Z.eqb Z.add].
        -- split; [intros _ | intros _; reflexivity].
           assert (Eq' : q = 9007199254740991) by lia.
           assert (d * q = 9007199254740991 * d) by (rewrite Eq'; ring).
           lia.
        -- destruct (Z.eqb_spec (q + 1) 0); [lia|].
           cbn [Z.eqb Pos.eqb]. rewrite Z.leb_le.
           split; intros H.
           ++ destruct (Z_le_gt_dec d (20 * n)); [assumption|].
              pose proof (Hdown ltac:(lia)); lia.
           ++ pose proof (Hup H); lia.
      * destruct ((d =? 2 * r) && Z.odd q) eqn:Etie.
        -- (* a tie on an odd integer part rounds up *)
           apply andb_true_iff in Etie as [Ed Eodd]; apply Z.eqb_eq in Ed.
           destruct (Z.eqb_spec (q + 1) 9007199254740992) as [Eq | Eq];
             cbn [neg mant expo orb Z.eqb Z.add].
           ++ split; [intros _ | intros _; reflexivity].
              assert (Eq' : q = 9007199254740991) by lia.
              assert (d * q = 9007199254740991 * d) by (rewrite Eq'; ring).
              lia.
           ++ destruct (Z.eqb_spec (q + 1) 0); [lia|].
              cbn [Z.eqb Pos.eqb]. rewrite Z.leb_le.
              split; intros H.
              ** destruct (Z_le_gt_dec d (20 * n)); [assumption|].
                 pose proof (Hdown ltac:(lia)); lia.
              ** pose proof (Hup H); lia.
        -- (* rounds down *)
           destruct (Z.eqb_spec q 9007199254740992) as [Eq | Eq]; [lia|].
           cbn [neg mant expo orb].
           destruct (Z.eqb_spec q 0) as [E0 | E0].
           ++ split; [discriminate|].
              intros H; pose proof (Hup H); lia.
           ++ cbn [Z.eqb Pos.eqb]. rewrite Z.leb_le.
              split; intros H.
              ** destruct (Z_le_gt_dec d (20 * n)); [assumption|].
                 pose proof (Hdown ltac:(lia)); lia.
              ** pose proof (Hup H).
                 destruct (Z.eq_dec q 7205759403792793) as [E | E]; [|lia].
                 exfalso.
                 assert (Hodd : Z.odd q = true) by (rewrite E; reflexivity).
                 rewrite Hodd, andb_true_r in Etie.
                 apply Z.eqb_neq in Etie.
                 assert (d * q = 7205759403792793 * d) by (rewrite E; ring).
                 lia.
    + (* the quotient is below 1/32 *)
      pose proof (binade_low ltac:(lia)) as He.
      assert (Hf : geb_pos
                     (if round_scaled n d (binade n d) =? 2 ^ 53
                      then mk_f64 false (2 ^ 52) (binade n d + 1)
                      else mk_f64 false (round_scaled n d (binade n d)) (binade n d))
                     lit_0_05 = false).
      { unfold geb_pos, lit_0_05.
        destruct (Z.eqb_spec (round_scaled n d (binade n d)) (2 ^ 53));
          cbn [neg mant expo orb].
        - destruct (Z.eqb_spec (binade n d + 1) (-57)); [reflexivity|].
          apply Z.ltb_ge; lia.
        - destruct (round_scaled n d (binade n d) =? 0); [reflexivity|].
          destruct (Z.eqb_spec (binade n d) (-57)); [lia|].
          apply Z.ltb_ge; lia. }
      rewrite Hf; split; [discriminate | lia].
Qed.

End FailureRate.

Section MachineArithmetic.

Import PrimFloat.

(** The model of the quotient agrees with the machine on these inputs, and
    the literal is the double the machine reads. *)
Lemma true_divide_machine_samples :
  Forall (fun p => Float64.machine_divide (fst p) (snd p)
                   = Float64.to_spec_float (Float64.true_divide (fst p) (snd p)))
         [ (5, 100); (4, 100); (0, 7); (1, 3); (1, 20); (49, 1000);
           (999999, 20000000); (450359962737049, 9007199254740991);
           (9007199254740990, 9007199254740991) ]%Z
  /\ FloatOps.Prim2SF 0x1.999999999999ap-5%float
     = Float64.to_spec_float Float64.lit_0_05.
Proof. split; [repeat constructor | reflexivity]. Qed.

End MachineArithmetic.

Lemma check_parse_failures_cases v :
  check_parse_failures v = [PARSE_FAILURES (parse_failures v) (raw_count v)]
  \/ check_parse_failures v = [].
Proof.
  unfold check_parse_failures.
  destruct (0 <? raw_count v)%Z; [|auto].
  destruct (Float64.geb_pos _ _); auto.
Qed.

Lemma check_parse_failures_fails v :
  (0 <= parse_failures v <= raw_count v)%Z -> (raw_count v < 2 ^ 53)%Z ->
  check_parse_failures v = [PARSE_FAILURES (parse_failures v) (raw_count v)]
  <-> (0 < raw_count v /\ raw_count v <= 20 * parse_failures v)%Z.
Proof.
  intros Hpf Hraw; unfold check_parse_failures.
  destruct (Z.ltb_spec 0 (raw_count v)) as [Hpos | Hpos].
  - destruct (Z.eq_dec (parse_failures v) 0) as [E0 | E0].
    + rewrite E0; cbn. split; [discriminate | lia].
    + pose proof (quotient_geb_0_05 (parse_failures v) (raw_count v)
                    ltac:(lia) ltac:(lia) Hraw) as Hq.
      destruct (Float64.geb_pos _ _).
      * split; [intros _; split; [lia | apply Hq; reflexivity] | reflexivity].
      * split; [discriminate|].
        intros [_ H]; apply Hq in H; discriminate.
  - split; [discriminate | lia].
Qed.

(** C4 (parse-failure rate).  For counts that a float holds exactly, the
    parse-failure assertion fails exactly when the raw count is positive
    and failures / raw is at least 5%, and reports nothing when the rate is
    below 5% or the raw count is zero.  5 failures of 100 fail, 4 of 100
    pass, and with no raw record the check is skipped. *)
Theorem parse_failure_rate_threshold :
  forall v : VerificationReport,
    (0 <= parse_failures v <= raw_count v)%Z ->
    (raw_count v < 2 ^ 53)%Z ->
    (check_parse_failures v = [PARSE_FAILURES (parse_failures v) (raw_count v)]
     <-> (0 < raw_count v /\ raw_count v <= 20 * parse_failures v)%Z)
    /\ (check_parse_failures v = []
        <-> (raw_count v = 0 \/ 20 * parse_failures v < raw_count v)%Z)
    /\ (forall prohibited high_risk,
           (exists f r, In (PARSE_FAILURES f r)
                           (assertion_errors v prohibited high_risk))
           <-> (0 < raw_count v /\ raw_count v <= 20 * parse_failures v)%Z)
    /\ check_parse_failures report_5_of_100 = [PARSE_FAILURES 5 100]
    /\ check_parse_failures report_4_of_100 = []
    /\ (forall failures, check_parse_failures (mk_report 0 failures) = []).
Proof.
  intros v Hpf Hraw.
  pose proof (check_parse_failures_fails v Hpf Hraw) as Hfail.
  split; [exact Hfail|].
  assert (Hpass : check_parse_failures v = []
                  <-> (raw_count v = 0 \/ 20 * parse_failures v < raw_count v)%Z).
  { destruct (check_parse_failures_cases v) as [E | E]; rewrite E.
    - apply Hfail in E. split; [discriminate | lia].
    - split; [intros _ | reflexivity].
      destruct (Z_le_gt_dec (raw_count v) (20 * parse_failures v)); [|lia].
      destruct (Z.eq_dec (raw_count v) 0); [lia|].
      assert (H : check_parse_failures v
                  = [PARSE_FAILURES (parse_failures v) (raw_count v)])
        by (apply Hfail; lia).
      congruence. }
  split; [exact Hpass|].
  split; [|split; [reflexivity | split; [reflexivity | reflexivity]]].
  intros prohibited high_risk; rewrite <- Hfail.
  split.
  - intros (f & r & Hin).
    apply assertion_errors_kinds in Hin.
    destruct (check_parse_failures_cases v) as [E | E]; [exact E|].
    rewrite E in Hin; destruct Hin.
  - intros E; exists (parse_failures v), (raw_count v).
    unfold assertion_errors.
    apply in_or_app; right; apply in_or_app; left.
    rewrite E; left; reflexivity.
Qed.

Lemma parse_failure_rate_threshold_witness :
  check_parse_failures report_5_of_100 = [PARSE_FAILURES 5 100]
  /\ (report_5_of_100.(raw_count) <= 20 * report_5_of_100.(parse_failures))%Z.
Proof.
  destruct (parse_failure_rate_threshold report_5_of_100) as (H & _).
  - simpl; lia.
  - simpl; lia.
  - split; [apply H; simpl; lia | simpl; lia].
Defined.
(** ** The order of timestamps *)

Section Calendar.

Local Open Scope Z_scope.

Lemma days_before_year_succ y :
  days_before_year (y + 1)
  = days_before_year y + 365 + (if is_leap y then 1 else 0).
Proof.
  unfold days_before_year, is_leap.
  replace (y + 1 - 1) with y by lia.
  destruct (Z.eqb_spec (y mod 4) 0), (Z.eqb_spec (y mod 100) 0),
    (Z.eqb_spec (y mod 400) 0); cbn [negb orb andb];
    Z.div_mod_to_equations; lia.
Qed.

Lemma days_before_year_mono y1 y2 :
  y1 <= y2 -> days_before_year y1 <= days_before_year y2.
Proof.
  unfold days_before_year; intros H.
  Z.div_mod_to_equations; lia.
Qed.

Ltac month_cases m :=
  let H := fresh in
  assert (H : m = 1 \/ m = 2 \/ m = 3 \/ m = 4 \/ m = 5 \/ m = 6 \/ m = 7
              \/ m = 8 \/ m = 9 \/ m = 10 \/ m = 11 \/ m = 12) by lia;
  repeat (destruct H as [H | H]); subst m.

Ltac month_red :=
  cbv beta iota delta [Z.ltb Z.eqb Z.compare Pos.compare Pos.compare_cont
                       Pos.eqb andb] in *.

Lemma day_of_year_bound y m d :
  1 <= m <= 12 -> 1 <= d <= days_in_month y m ->
  1 <= days_before_month y m + d <= 365 + (if is_leap y then 1 else 0).
Proof.
  intros Hm Hd; unfold days_before_month, days_in_month in *.
  month_cases m; month_red; destruct (is_leap y); month_red; lia.
Qed.

Lemma month_step y m1 d1 m2 d2 :
  1 <= m1 -> m1 < m2 -> m2 <= 12 ->
  d1 <= days_in_month y m1 -> 1 <= d2 ->
  days_before_month y m1 + d1 < days_before_month y m2 + d2.
Proof.
  intros H1 H12 H2 Hd1 Hd2; unfold days_before_month, days_in_month in *.
  month_cases m1; month_cases m2; try lia;
    month_red; destruct (is_leap y); month_red; lia.
Qed.

Lemma civil_us_split d :
  civil_us d = toordinal d * 86400000000 + time_of_day d.
Proof. unfold civil_us, time_of_day; ring. Qed.

Lemma valid_ranges d :
  valid d = true ->
  1 <= year d /\ 1 <= month d <= 12 /\ 1 <= day d <= days_in_month (year d) (month d)
  /\ 0 <= hour d <= 23 /\ 0 <= minute d <= 59 /\ 0 <= second d <= 59
  /\ 0 <= microsecond d <= 999999.
Proof.
  unfold valid; rewrite !andb_true_iff, !Z.leb_le; intros H.
  decompose [and] H; repeat split; assumption.
Qed.

(** Later in the calendar is later in days. *)
Lemma toordinal_lt a b :
  valid a = true -> valid b = true ->
  year a < year b
  \/ (year a = year b /\ month a < month b)
  \/ (year a = year b /\ month a = month b /\ day a < day b) ->
  toordinal a < toordinal b.
Proof.
  intros Ha Hb H.
  apply valid_ranges in Ha as (Hya & Hma & Hda & _).
  apply valid_ranges in Hb as (Hyb & Hmb & Hdb & _).
  unfold toordinal.
  destruct H as [Hy | [[Hy Hm] | [Hy [Hm Hd]]]].
  - pose proof (day_of_year_bound _ _ _ Hma Hda).
    pose proof (day_of_year_bound _ _ _ Hmb Hdb).
    pose proof (days_before_year_succ (year a)).
    pose proof (days_before_year_mono (year a + 1) (year b) ltac:(lia)).
    lia.
  - rewrite Hy in *.
    pose proof (month_step (year b) (month a) (day a) (month b) (day b)
                  ltac:(lia) Hm ltac:(lia) ltac:(lia) ltac:(lia)).
    lia.
  - rewrite Hy, Hm; lia.
Qed.

(** On valid values the comparison of the civil fields is the comparison
    of the microsecond counts. *)
Lemma lex_gtb_civil a b :
  valid a = true -> valid b = true ->
  lex_gtb (fields a) (fields b) = (civil_us b <? civil_us a).
Proof.
  intros Ha Hb.
  pose proof (toordinal_lt a b Ha Hb) as Hab.
  pose proof (toordinal_lt b a Hb Ha) as Hba.
  pose proof (valid_ranges a Ha) as (_ & _ & _ & Hha & Hmia & Hsa & Hua).
  pose proof (valid_ranges b Hb) as (_ & _ & _ & Hhb & Hmib & Hsb & Hub).
  rewrite !civil_us_split; unfold time_of_day.
  assert (Hsame : year a = year b -> month a = month b -> day a = day b ->
                  toordinal a = toordinal b).
  { unfold toordinal; intros -> -> ->; reflexivity. }
  unfold fields; cbn [lex_gtb].
  repeat match goal with
         | |- context [?x =? ?y] => destruct (Z.eqb_spec x y)
         end;
    match goal with
    | |- ?lhs = (?p <? ?q) =>
        destruct (Z.ltb_spec p q);
        try match lhs with
            | (?u <? ?v) => destruct (Z.ltb_spec u v)
            end
    end;
    try reflexivity; exfalso;
    try (specialize (Hsame ltac:(assumption) ltac:(assumption) ltac:(assumption)));
    try (assert (toordinal a < toordinal b) by (apply Hab; lia));
    try (assert (toordinal b < toordinal a) by (apply Hba; lia));
    lia.
Qed.

Lemma ok_true_iff (b : bool) (P : Prop) :
  (b = true <-> P) -> (Ok b = Ok true <-> P).
Proof.
  intros H; rewrite <- H; split; [intros E; inversion E; reflexivity|].
  intros ->; reflexivity.
Qed.

Lemma dt_gt_valid a b :
  valid a = true -> valid b = true ->
  (dt_gt a b = Ok true <-> aware a = aware b /\ instant b < instant a).
Proof.
  intros Ha Hb; unfold dt_gt, aware, instant.
  rewrite (lex_gtb_civil a b Ha Hb).
  destruct (utcoffset a) as [oa|], (utcoffset b) as [ob|]; cbn [opt_eqb].
  - destruct (Z.eqb_spec oa ob) as [-> | Hne]; apply ok_true_iff;
      rewrite Z.ltb_lt; split; try (intros [_ H]; lia);
      intros H; (split; [reflexivity | lia]).
  - split; [discriminate | intros [H _]; discriminate H].
  - split; [discriminate | intros [H _]; discriminate H].
  - apply ok_true_iff; rewrite Z.ltb_lt; split; try (intros [_ H]; lia).
    intros H; split; [reflexivity | lia].
Qed.

Lemma dt_gt_trans a b c :
  valid a = true -> valid b = true -> valid c = true ->
  dt_gt a b = Ok true -> dt_gt b c = Ok true -> dt_gt a c = Ok true.
Proof.
  intros Ha Hb Hc Hab Hbc.
  apply (dt_gt_valid a b Ha Hb) in Hab as [E1 L1].
  apply (dt_gt_valid b c Hb Hc) in Hbc as [E2 L2].
  apply (dt_gt_valid a c Ha Hc); split; [congruence | lia].
Qed.

End Calendar.

(** ** What the deduplicator keeps *)

Lemma dict_set_put key adv seen : In (key, adv) (dict_set key adv seen).
Proof.
  induction seen as [|[k v] seen IH]; simpl; [auto|].
  destruct (text_eqb key k) eqn:E; simpl; [|auto].
  apply text_eqb_eq in E; subst; auto.
Qed.

Lemma dict_set_other key adv seen k x :
  In (k, x) seen -> k <> key -> In (k, x) (dict_set key adv seen).
Proof.
  induction seen as [|[k' v] seen IH]; simpl; [tauto|].
  intros [H | H] Hne.
  - inversion H; subst.
    destruct (text_eqb key k) eqn:E; [apply text_eqb_eq in E; congruence|].
    left; reflexivity.
  - destruct (text_eqb key k'); simpl; auto.
Qed.

Lemma nodup_keys_functional {A B} (l : list (A * B)) k x x' :
  NoDup (map fst l) -> In (k, x) l -> In (k, x') l -> x = x'.
Proof.
  induction l as [|[k0 v] l IH]; simpl; [tauto|].
  intros Hnd; inversion Hnd as [|? ? Hnotin Hnd']; subst.
  assert (Hk : forall y, In (k0, y) l -> False).
  { intros y Hy; apply Hnotin, in_map_iff; exists (k0, y); auto. }
  intros [H1 | H1] [H2 | H2].
  - congruence.
  - inversion H1; subst; exfalso; eauto.
  - inversion H2; subst; exfalso; eauto.
  - auto.
Qed.

Lemma nodup_map_injective {A B} (f : A -> B) l a b :
  NoDup (map f l) -> In a l -> In b l -> f a = f b -> a = b.
Proof.
  induction l as [|c l IH]; simpl; [tauto|].
  intros Hnd; inversion Hnd as [|? ? Hnotin Hnd']; subst.
  intros [Ha | Ha] [Hb | Hb] E; subst; auto.
  - exfalso; apply Hnotin; rewrite E; apply in_map; exact Hb.
  - exfalso; apply Hnotin; rewrite <- E; apply in_map; exact Ha.
Qed.

Section DedupOrder.

(** The advisories of one run: their timestamps are valid, and two of them
    with the same identity key are the same record or have timestamps one
    of which is strictly later. *)
Variable all : list TravelAdvisory.
Hypothesis all_valid :
  forall a, In a all -> valid (last_updated a) = true.
Hypothesis no_ties :
  forall a b, In a all -> In b all -> identity_key a = identity_key b ->
    a = b \/ dt_gt (last_updated a) (last_updated b) = Ok true
    \/ dt_gt (last_updated b) (last_updated a) = Ok true.

Lemma dedup_loop_keeps_latest rest : forall done seen dups,
  (forall a, In a done -> In a all) ->
  (forall a, In a rest -> In a all) ->
  keeps_latest seen done ->
  exists seen' dups',
    dedup_loop rest seen dups = Ok (seen', dups')
    /\ keeps_latest seen' (done ++ rest).
Proof.
  induction rest as [|adv rest IH]; intros done seen dups Hdone Hrest Hinv.
  - exists seen, dups; rewrite app_nil_r; auto.
  - assert (Hadv : In adv all) by (apply Hrest; left; reflexivity).
    assert (Hnext : forall seen1 dups1,
               keeps_latest seen1 (done ++ [adv]) ->
               exists seen' dups',
                 dedup_loop rest seen1 dups1 = Ok (seen', dups')
                 /\ keeps_latest seen' (done ++ adv :: rest)).
    { intros seen1 dups1 H1.
      replace (done ++ adv :: rest) with ((done ++ [adv]) ++ rest)
        by (rewrite <- app_assoc; reflexivity).
      apply IH; auto.
      - intros a Ha; apply in_app_or in Ha as [Ha | [<- | []]]; auto.
      - intros a Ha; apply Hrest; right; exact Ha. }
    destruct Hinv as (Hok & Hsub & Hlate).
    cbn [dedup_loop].
    destruct (dict_get (identity_key adv) seen) as [existing|] eqn:Eget.
    + (* the key has been seen *)
      apply dict_get_some in Eget.
      assert (Hex : In existing all) by (apply Hdone, (Hsub _ _ Eget)).
      assert (Hkey : identity_key adv = identity_key existing)
        by (apply (proj2 Hok _ _ Eget)).
      assert (Hkeep : keeps_latest seen (done ++ [adv]) \/ True) by auto.
      assert (Hsame : at_least_as_late existing adv ->
                      keeps_latest seen (done ++ [adv])).
      { intros Hle; split; [exact Hok|]; split.
        - intros k x Hx; apply in_or_app; left; eauto.
        - intros y Hy; apply in_app_or in Hy as [Hy | [<- | []]]; [auto|].
          exists existing; auto. }
      destruct (no_ties adv existing Hadv Hex Hkey) as [E | [Hgt | Hgt]].
      * (* the same record again *)
        subst existing; rewrite dt_gt_irrefl; cbn [bind].
        apply Hnext, Hsame; left; reflexivity.
      * (* the incoming record is strictly later *)
        rewrite Hgt; cbn [bind].
        apply Hnext; split; [apply seen_ok_set; exact Hok|]; split.
        -- intros k x Hx; apply dict_set_in in Hx as [Hx | Hx].
           ++ inversion Hx; subst; apply in_or_app; right; left; reflexivity.
           ++ apply in_or_app; left; eauto.
        -- intros y Hy; apply in_app_or in Hy as [Hy | [<- | []]].
           ++ destruct (Hlate y Hy) as (x & Hx & Hle).
              destruct (list_eq_dec Z.eq_dec (identity_key y) (identity_key adv))
                as [Ey | Ey].
              ** exists adv; split; [rewrite Ey; apply dict_set_put|].
                 rewrite Ey in Hx.
                 assert (x = existing)
                   by (eapply nodup_keys_functional; [exact (proj1 Hok) | exact Hx | exact Eget]).
                 subst x; right.
                 destruct Hle as [<- | Hle]; [exact Hgt|].
                 eapply dt_gt_trans; [| | | exact Hgt | exact Hle]; auto.
              ** exists x; split; [apply dict_set_other; assumption | exact Hle].
           ++ exists adv; split; [apply dict_set_put | left; reflexivity].
      * (* the record already kept is strictly later *)
        rewrite (dt_gt_asym _ _ Hgt); cbn [bind].
        apply Hnext, Hsame; right; exact Hgt.
    + (* a new key *)
      apply Hnext; split; [apply seen_ok_set; exact Hok|]; split.
      * intros k x Hx; apply dict_set_in in Hx as [Hx | Hx].
        -- inversion Hx; subst; apply in_or_app; right; left; reflexivity.
        -- apply in_or_app; left; eauto.
      * intros y Hy; apply in_app_or in Hy as [Hy | [<- | []]].
        -- destruct (Hlate y Hy) as (x & Hx & Hle).
           exists x; split; [|exact Hle].
           apply dict_set_other; [exact Hx|].
           intros Ey; rewrite Ey in Hx.
           apply dict_get_none in Eget; apply Eget.
           apply in_map_iff; exists (identity_key adv, x); auto.
        -- exists adv; split; [apply dict_set_put | left; reflexivity].
Qed.

(** The deduplicator returns on such a list, and what it returns. *)
Lemma deduplicate_returns l :
  (forall a, In a l -> In a all) ->
  exists deduped dups,
    deduplicate_advisories l = Ok (deduped, dups)
    /\ NoDup (map identity_key deduped)
    /\ (forall x, In x deduped -> In x l)
    /\ (forall y, In y l ->
          exists x, In x deduped /\ identity_key x = identity_key y
                    /\ at_least_as_late x y).
Proof.
  intros Hl.
  destruct (dedup_loop_keeps_latest l [] [] [])
    as (seen & dups & Hrun & Hok & Hsub & Hlate); auto.
  { intros a []. }
  { split; [split; [constructor | intros k v []]|].
    split; [intros k x [] | intros y []]. }
  exists (map snd seen), dups; unfold deduplicate_advisories.
  rewrite Hrun; cbn [bind fst snd]; split; [reflexivity|].
  split; [apply seen_ok_values; exact Hok|]. split.
  - intros x Hx; apply in_map_iff in Hx as ([k x'] & <- & Hx).
    exact (Hsub _ _ Hx).
  - intros y Hy; destruct (Hlate y Hy) as (x & Hx & Hle).
    exists x; split; [apply in_map_iff; exists (identity_key y, x); auto|].
    split; [symmetry; apply (proj2 Hok _ _ Hx) | exact Hle].
Qed.

(** Two arrival orders of the same advisories leave the same advisories. *)
Lemma deduplicate_perm l1 l2 :
  Permutation l1 l2 -> (forall a, In a l1 -> In a all) ->
  exists o1 d1 o2 d2,
    deduplicate_advisories l1 = Ok (o1, d1)
    /\ deduplicate_advisories l2 = Ok (o2, d2)
    /\ Permutation o1 o2
    /\ NoDup (map identity_key o1)
    /\ (forall x, In x o1 -> In x l1).
Proof.
  intros Hperm Hl1.
  assert (Hl2 : forall a, In a l2 -> In a all).
  { intros a Ha; apply Hl1; eapply Permutation_in; [symmetry|]; eassumption. }
  destruct (deduplicate_returns l1 Hl1) as (o1 & d1 & E1 & N1 & S1 & L1).
  destruct (deduplicate_returns l2 Hl2) as (o2 & d2 & E2 & N2 & S2 & L2).
  exists o1, d1, o2, d2; repeat split; auto.
  assert (Hsub : forall oa ob la lb,
             NoDup (map identity_key oa) ->
             (forall x, In x oa -> In x la) ->
             (forall x, In x ob -> In x lb) ->
             (forall y, In y la -> exists x, In x oa
                 /\ identity_key x = identity_key y /\ at_least_as_late x y) ->
             (forall y, In y lb -> exists x, In x ob
                 /\ identity_key x = identity_key y /\ at_least_as_late x y) ->
             (forall a, In a la <-> In a lb) ->
             forall x, In x oa -> In x ob).
  { intros oa ob la lb Na Sa Sb La Lb Hab x Hx.
    destruct (Lb x (proj1 (Hab x) (Sa x Hx))) as (x' & Hx' & Ek' & Hle').
    destruct (La x' (proj2 (Hab x') (Sb x' Hx'))) as (x'' & Hx'' & Ek'' & Hle'').
    assert (x'' = x)
      by (apply (nodup_map_injective identity_key oa); auto; congruence).
    subst x''.
    destruct Hle' as [<- | Hgt']; [exact Hx'|].
    destruct Hle'' as [-> | Hgt'']; [exact Hx'|].
    rewrite (dt_gt_asym _ _ Hgt') in Hgt''; discriminate. }
  apply NoDup_Permutation.
  - eapply NoDup_map_inv; exact N1.
  - eapply NoDup_map_inv; exact N2.
  - assert (Hab : forall a, In a l1 <-> In a l2).
    { intros a; split; apply Permutation_in; [|symmetry]; exact Hperm. }
    intros x; split.
    + apply (Hsub o1 o2 l1 l2); auto.
    + apply (Hsub o2 o1 l2 l1); auto. intros a; symmetry; apply Hab.
Qed.

End DedupOrder.
(** ** Sorting two arrangements of the same elements *)

Section SortUnique.

Context {A K : Type}.
Variable key : A -> K.
Variable ltb : K -> K -> bool.

Hypothesis ltb_asym : forall a b, ltb a b = true -> ltb b a = false.
Hypothesis le_trans :
  forall a b c, ltb b a = false -> ltb c b = false -> ltb c a = false.
Hypothesis ltb_total : forall a b, ltb a b = false -> ltb b a = false -> a = b.

Lemma sorted_perm_unique : forall s1 s2,
  StronglySorted (key_le key ltb) s1 -> StronglySorted (key_le key ltb) s2 ->
  Permutation s1 s2 -> NoDup (map key s1) -> s1 = s2.
Proof.
  induction s1 as [|a s1 IH]; intros s2 H1 H2 Hperm Hnd.
  - symmetry; apply Permutation_nil; exact Hperm.
  - destruct s2 as [|b s2];
      [apply Permutation_sym, Permutation_nil in Hperm; discriminate|].
    inversion H1 as [|? ? Hs1 Hall1]; subst.
    inversion H2 as [|? ? Hs2 Hall2]; subst.
    inversion Hnd as [|? ? Hnotin Hnd']; subst.
    rewrite Forall_forall in Hall1, Hall2.
    assert (Hab : a = b).
    { assert (Ha : In a (b :: s2))
        by (eapply Permutation_in; [exact Hperm | left; reflexivity]).
      assert (Hb : In b (a :: s1))
        by (eapply Permutation_in; [symmetry; exact Hperm | left; reflexivity]).
      destruct Ha as [Ha | Ha]; [auto|].
      destruct Hb as [Hb | Hb]; [auto|].
      exfalso; apply Hnotin.
      assert (E : key a = key b)
        by (apply ltb_total; [apply Hall2, Ha | apply Hall1, Hb]).
      rewrite E; apply in_map; exact Hb. }
    subst b; f_equal.
    apply IH; auto.
    eapply Permutation_cons_inv; exact Hperm.
Qed.

Lemma sort_by_perm_eq l1 l2 :
  Permutation l1 l2 -> NoDup (map key l1) ->
  sort_by key ltb l1 = sort_by key ltb l2.
Proof.
  intros Hperm Hnd.
  apply sorted_perm_unique.
  - apply sort_by_sorted; assumption.
  - apply sort_by_sorted; assumption.
  - rewrite !sort_by_perm; exact Hperm.
  - eapply Permutation_NoDup; [|exact Hnd].
    apply Permutation_map; symmetry; apply sort_by_perm.
Qed.

End SortUnique.

Lemma Permutation_filter {A} (f : A -> bool) l1 l2 :
  Permutation l1 l2 -> Permutation (filter f l1) (filter f l2).
Proof.
  induction 1 as [| x l l' _ IH | x y l | l l' l'' _ IH1 _ IH2]; simpl.
  - constructor.
  - destruct (f x); [constructor|]; exact IH.
  - destruct (f x), (f y); try reflexivity; apply perm_swap.
  - etransitivity; eassumption.
Qed.

Lemma nodup_map_transfer {A B C} (f : A -> B) (g : A -> C) l :
  NoDup (map f l) ->
  (forall a b, In a l -> In b l -> g a = g b -> f a = f b) ->
  NoDup (map g l).
Proof.
  induction l as [|a l IH]; simpl; [constructor|].
  intros Hnd Hfg; inversion Hnd as [|? ? Hnotin Hnd']; subst.
  constructor; [|apply IH; auto].
  intros Hin; apply in_map_iff in Hin as (b & Eb & Hb).
  apply Hnotin.
  rewrite (Hfg a b (or_introl eq_refl) (or_intror Hb) (eq_sym Eb)).
  apply in_map; exact Hb.
Qed.

(** The fingerprint does not depend on the order of the list it is given,
    when the sort keys are pairwise distinct. *)
Lemma compute_data_hash_perm l1 l2 :
  Permutation l1 l2 -> NoDup (map hash_key l1) ->
  compute_data_hash l1 = compute_data_hash l2.
Proof.
  intros Hperm Hnd; unfold compute_data_hash.
  rewrite (sort_by_perm_eq hash_key str_ltb str_ltb_asym str_ltb_le_trans
                           str_ltb_total l1 l2 Hperm Hnd).
  reflexivity.
Qed.

(** ** The pipeline on two arrival orders *)

Section ArrivalOrder.

Variable unescape : str -> str.
Variable fromisoformat : str -> option datetime.

(** Every value [datetime.fromisoformat] returns is a [datetime]. *)
Hypothesis fromisoformat_valid :
  forall s d, fromisoformat s = Some d -> valid d = true.

Lemma parse_advisory_clock now now' raw :
  timestamp_parses fromisoformat raw ->
  parse_advisory unescape fromisoformat now raw
  = parse_advisory unescape fromisoformat now' raw.
Proof.
  unfold timestamp_parses, parse_advisory, assemble; intros H.
  destruct (fromisoformat (replace_Z (get (Updated raw) (get (Published raw) []))));
    [reflexivity | contradiction].
Qed.

Lemma parse_advisory_valid now raw a :
  timestamp_parses fromisoformat raw ->
  parse_advisory unescape fromisoformat now raw = Some a ->
  valid (last_updated a) = true.
Proof.
  unfold timestamp_parses, parse_advisory, assemble; intros H.
  destruct (fromisoformat (replace_Z (get (Updated raw) (get (Published raw) []))))
    as [d|] eqn:E; [|contradiction].
  destruct (parse_level_from_title (get (Title raw) [])) as [name lvl].
  destruct (lvl =? 0)%Z; [destruct (is_prohibited_country name)|];
    intros Ha; inversion Ha; subst; simpl; eauto.
Qed.

Lemma parse_all_fst clock now raws : forall i,
  (forall raw, In raw raws -> timestamp_parses fromisoformat raw) ->
  fst (parse_all unescape fromisoformat clock i raws)
  = flat_map (parse_list unescape fromisoformat now) raws.
Proof.
  induction raws as [|raw raws IH]; intros i H; [reflexivity|].
  cbn [parse_all flat_map]; unfold parse_list at 1.
  rewrite <- (IH (S i)) by (intros r Hr; apply H; right; exact Hr).
  rewrite (parse_advisory_clock (clock i) now raw)
    by (apply H; left; reflexivity).
  destruct (parse_all unescape fromisoformat clock (S i) raws) as [advs n].
  destruct (parse_advisory unescape fromisoformat now raw); reflexivity.
Qed.

Lemma pipeline_fingerprint clock raws :
  fingerprint (pipeline unescape fromisoformat clock raws)
  = match deduplicate_advisories
            (fst (parse_all unescape fromisoformat clock 0 raws)) with
    | Ok r => Some (compute_data_hash
                      (fst (filter_high_risk (fst r))
                       ++ snd (filter_high_risk (fst r))))
    | Raise _ => None
    end.
Proof.
  unfold pipeline.
  destruct (parse_all unescape fromisoformat clock 0 raws) as [advs n];
    cbn [fst].
  destruct (deduplicate_advisories advs) as [r|e]; cbn [bind]; [|reflexivity].
  destruct (filter_high_risk (fst r)) as [p h]; reflexivity.
Qed.

(** C3 (fingerprint determinism), as the code has it.  Two arrival orders of
    the same raw records give the same fingerprint when every timestamp is
    one the library reads (so the wall clock is not consulted), when
    records with the same identity key are identical or have timestamps one
    of which is strictly later, and when records with the same fingerprint
    sort key have the same identity key; both runs then return.  The
    fingerprint of a list is the same for every order of the list when the
    sort keys (code, or name when the code is empty) are pairwise
    distinct. *)
Theorem fingerprint_arrival_order :
  (forall l1 l2,
      Permutation l1 l2 -> NoDup (map hash_key l1) ->
      compute_data_hash l1 = compute_data_hash l2)
  /\ (forall (clock1 clock2 : nat -> datetime) (raws1 raws2 : list raw_record),
         Permutation raws1 raws2 ->
         (forall raw, In raw raws1 -> timestamp_parses fromisoformat raw) ->
         (forall a b,
             In a (fst (parse_all unescape fromisoformat clock1 0 raws1)) ->
             In b (fst (parse_all unescape fromisoformat clock1 0 raws1)) ->
             identity_key a = identity_key b ->
             a = b
             \/ dt_gt (last_updated a) (last_updated b) = Ok true
             \/ dt_gt (last_updated b) (last_updated a) = Ok true) ->
         (forall a b,
             In a (fst (parse_all unescape fromisoformat clock1 0 raws1)) ->
             In b (fst (parse_all unescape fromisoformat clock1 0 raws1)) ->
             hash_key a = hash_key b -> identity_key a = identity_key b) ->
         exists h,
           fingerprint (pipeline unescape fromisoformat clock1 raws1) = Some h
           /\ fingerprint (pipeline unescape fromisoformat clock2 raws2) = Some h).
Proof.
  split; [exact compute_data_hash_perm|].
  intros clock1 clock2 raws1 raws2 Hperm Hts Hties Hkeys.
  assert (Hts2 : forall raw, In raw raws2 -> timestamp_parses fromisoformat raw).
  { intros raw Hr; apply Hts; eapply Permutation_in; [symmetry|]; eassumption. }
  rewrite !pipeline_fingerprint.
  rewrite (parse_all_fst clock1 new_year_2024 raws1 0 Hts) in *.
  rewrite (parse_all_fst clock2 new_year_2024 raws2 0 Hts2).
  set (l1 := flat_map (parse_list unescape fromisoformat new_year_2024) raws1) in *.
  set (l2 := flat_map (parse_list unescape fromisoformat new_year_2024) raws2).
  assert (Hl : Permutation l1 l2)
    by (apply Permutation_flat_map; exact Hperm).
  assert (Hvalid : forall a, In a l1 -> valid (last_updated a) = true).
  { intros a Ha; apply in_flat_map in Ha as (raw & Hraw & Ha).
    unfold parse_list in Ha.
    destruct (parse_advisory unescape fromisoformat new_year_2024 raw)
      as [a'|] eqn:E; [|destruct Ha].
    destruct Ha as [<- | []].
    eapply parse_advisory_valid; [apply Hts; exact Hraw | exact E]. }
  destruct (deduplicate_perm l1 Hvalid Hties l1 l2 Hl (fun a H => H))
    as (o1 & d1 & o2 & d2 & E1 & E2 & Ho & Hnd & Hsub).
  rewrite E1, E2; cbn [fst].
  eexists; split; [reflexivity|]; f_equal.
  symmetry; apply compute_data_hash_perm.
  - rewrite !filter_high_risk_perm; apply Permutation_filter; exact Ho.
  - eapply Permutation_NoDup;
      [symmetry; apply Permutation_map, filter_high_risk_perm|].
    apply NoDup_map_filter.
    apply (nodup_map_transfer identity_key hash_key); [exact Hnd|].
    intros a b Ha Hb; apply Hkeys; apply Hsub; assumption.
Qed.

End ArrivalOrder.

Lemma fromisoformat_fixed_valid s d :
  fromisoformat_fixed s = Some d -> valid d = true.
Proof.
  unfold fromisoformat_fixed.
  repeat match goal with
         | |- context [match ?x with _ => _ end] =>
             destruct x eqn:?; try discriminate
         end;
    intros H; inversion H; subst; assumption.
Qed.

Lemma fingerprint_arrival_order_witness :
  exists h,
    fingerprint (pipeline unescape_plain fromisoformat_fixed midnight_clock
                          [raw_mexico_3; raw_cuba_4]) = Some h
    /\ fingerprint (pipeline unescape_plain fromisoformat_fixed midnight_clock
                             [raw_cuba_4; raw_mexico_3]) = Some h.
Proof.
  destruct (fingerprint_arrival_order unescape_plain fromisoformat_fixed
              fromisoformat_fixed_valid) as [_ H].
  apply H.
  - apply perm_swap.
  - intros raw [<- | [<- | []]]; vm_compute; discriminate.
  - intros a b Ha Hb; vm_compute in Ha, Hb.
    destruct Ha as [<- | [<- | []]], Hb as [<- | [<- | []]];
      vm_compute; auto; discriminate.
  - intros a b Ha Hb; vm_compute in Ha, Hb.
    destruct Ha as [<- | [<- | []]], Hb as [<- | [<- | []]];
      vm_compute; auto; discriminate.
Defined.

(** C3 as stated fails: two records for the same country with the same
    timestamp, and the fingerprint follows the arrival order. *)
Lemma fingerprint_depends_on_arrival_order :
  Permutation [raw_mexico_3; raw_mexico_4] [raw_mexico_4; raw_mexico_3]
  /\ fingerprint (pipeline unescape_plain fromisoformat_fixed midnight_clock
                           [raw_mexico_3; raw_mexico_4])
     = Some (lit "ba190daa7ac5bf95f4216ddd4e1316dbda8ead31cba129746b7845c1d7a693d5")
  /\ fingerprint (pipeline unescape_plain fromisoformat_fixed midnight_clock
                           [raw_mexico_4; raw_mexico_3])
     = Some (lit "cf366d3f95b59a79e0dbf958acc7473cc024298a423aa09f9457eaa6f91a0a5c")
  /\ ~ (forall unescape fromisoformat clock raws1 raws2,
          Permutation raws1 raws2 ->
          fingerprint (pipeline unescape fromisoformat clock raws1)
          = fingerprint (pipeline unescape fromisoformat clock raws2)).
Proof.
  split; [apply perm_swap|].
  split; [vm_compute; reflexivity|].
  split; [vm_compute; reflexivity|].
  intros H.
  specialize (H unescape_plain fromisoformat_fixed midnight_clock
                [raw_mexico_3; raw_mexico_4] [raw_mexico_4; raw_mexico_3]
                (perm_swap _ _ _)).
  vm_compute in H; discriminate H.
Qed.
(** ** Sample runs *)

(** The parser, the normalizer and the extractor on sample inputs, with the
    values the program computes on them. *)
Lemma sample_runs :
  parse_level_from_title (lit "Guinea-Bissau - Level 3: Reconsider Travel")
  = (lit "Guinea-Bissau", 3%Z)
  /\ parse_level_from_title (lit "TIMOR-LESTE-level 2") = (lit "TIMOR-LESTE", 2%Z)
  /\ parse_level_from_title (lit "Worldwide Caution") = (lit "Worldwide Caution", 0%Z)
  /\ parse_level_from_title
       (lit "Israel, the West Bank and Gaza - Level 3: Reconsider Travel")
     = (lit "Israel, the West Bank and Gaza", 3%Z)
  /\ clean_html unescape_plain level_3_summary
     = lit "Reconsider travel to: the Northern Province due to crime."
       ++ NL ++ lit "do not travel to an island due to piracy"
  /\ extract_regional_warnings unescape_plain egypt_summary 2
     = [ mk_warning (lit "The Sinai Peninsula") 4 (lit "terrorism");
         mk_warning (lit "border area with Libya") 3 (lit "unrest") ]
  /\ extract_regional_warnings unescape_plain repeated_summary 1
     = [ mk_warning (lit "Sinai Peninsula") 4 (lit "terrorism") ]
  /\ extract_regional_warnings unescape_plain level_3_summary 3
     = [ mk_warning (lit "island") 4 (lit "piracy") ].
Proof. repeat split; vm_compute; reflexivity. Qed.

(** The counts that [main] hands to the assertions: the failures are among
    the raw records. *)
Lemma parse_all_counts unescape fromisoformat clock raws : forall i,
  (0 <= snd (parse_all unescape fromisoformat clock i raws)
   <= Z.of_nat (List.length raws))%Z.
Proof.
  induction raws as [|raw raws IH]; intros i; [simpl; lia|].
  cbn [parse_all]; specialize (IH (S i)).
  destruct (parse_all unescape fromisoformat clock (S i) raws) as [advs n].
  rewrite length_cons, Nat2Z.inj_succ.
  destruct (parse_advisory unescape fromisoformat (clock i) raw);
    simpl in *; lia.
Qed.

(* ===================================================================== *)
(** * Further properties of the program *)
(* ===================================================================== *)

(** ** The deduplicator on lists of any length *)

Lemma dict_get_existsb key seen :
  existsb (text_eqb key) (map fst seen)
  = match dict_get key seen with Some _ => true | None => false end.
Proof.
  induction seen as [|[k v] seen IH]; simpl; [reflexivity|].
  destruct (text_eqb key k); [reflexivity | exact IH].
Qed.

Lemma dict_set_length key adv seen :
  List.length (dict_set key adv seen)
  = match dict_get key seen with
    | Some _ => List.length seen
    | None => S (List.length seen)
    end.
Proof.
  induction seen as [|[k v] seen IH]; simpl; [reflexivity|].
  destruct (text_eqb key k); simpl; [reflexivity|].
  rewrite IH; destruct (dict_get key seen); reflexivity.
Qed.

(** Every step of the loop files the record or reports it. *)
Lemma dedup_loop_length l : forall seen dups seen' dups',
  dedup_loop l seen dups = Ok (seen', dups') ->
  List.length seen' + List.length dups'
  = List.length seen + List.length dups + List.length l.
Proof.
  induction l as [|adv rest IH]; intros seen dups seen' dups' H; simpl in H.
  - inversion H; subst; simpl; lia.
  - pose proof (dict_set_length (identity_key adv) adv seen) as Hlen.
    destruct (dict_get (identity_key adv) seen) as [existing|].
    + destruct (dt_gt (last_updated adv) (last_updated existing)) as [[|]|];
        simpl in H; try discriminate;
        apply IH in H; rewrite H, ?Hlen, length_app; simpl; lia.
    + apply IH in H; rewrite H, Hlen; simpl; lia.
Qed.

Lemma dedup_loop_keys l : forall seen dups seen' dups',
  dedup_loop l seen dups = Ok (seen', dups') ->
  map fst seen' = first_seen (map identity_key l) (map fst seen).
Proof.
  induction l as [|adv rest IH]; intros seen dups seen' dups' H; simpl in H.
  - inversion H; subst; reflexivity.
  - cbn [map first_seen]; rewrite dict_get_existsb.
    destruct (dict_get (identity_key adv) seen) as [existing|] eqn:E.
    + destruct (dt_gt (last_updated adv) (last_updated existing)) as [[|]|];
        simpl in H; try discriminate; apply IH in H; rewrite H.
      * rewrite (dict_set_keys _ _ _ _ E); reflexivity.
      * reflexivity.
    + apply IH in H; rewrite H, (dict_set_new _ _ _ E), map_app; reflexivity.
Qed.

Lemma dedup_loop_members (P : TravelAdvisory -> Prop) l :
  forall seen dups seen' dups',
    (forall k x, In (k, x) seen -> P x) ->
    (forall a, In a l -> P a) ->
    dedup_loop l seen dups = Ok (seen', dups') ->
    forall k x, In (k, x) seen' -> P x.
Proof.
  induction l as [|adv rest IH]; intros seen dups seen' dups' Hs Hl H;
    simpl in H.
  - inversion H; subst; exact Hs.
  - assert (Hset : forall k x,
               In (k, x) (dict_set (identity_key adv) adv seen) -> P x).
    { intros k x Hx; apply dict_set_in in Hx as [Hx | Hx].
      - inversion Hx; subst; apply Hl; left; reflexivity.
      - eapply Hs; exact Hx. }
    assert (Hrest : forall a, In a rest -> P a)
      by (intros a Ha; apply Hl; right; exact Ha).
    destruct (dict_get (identity_key adv) seen) as [existing|].
    + destruct (dt_gt (last_updated adv) (last_updated existing)) as [[|]|];
        simpl in H; try discriminate;
        (eapply IH; [| exact Hrest | exact H]; assumption).
    + eapply IH; [| exact Hrest | exact H]; assumption.
Qed.

Lemma seen_ok_nil : seen_ok [].
Proof. split; [constructor | intros k v []]. Qed.

Lemma seen_values_keys seen :
  seen_ok seen -> map identity_key (map snd seen) = map fst seen.
Proof.
  intros [_ Hkeys]; rewrite map_map; apply map_ext_in.
  intros [k v] Hin; simpl; symmetry; apply Hkeys; exact Hin.
Qed.

Lemma deduplicate_inv l deduped dups :
  deduplicate_advisories l = Ok (deduped, dups) ->
  exists seen,
    dedup_loop l [] [] = Ok (seen, dups) /\ deduped = map snd seen
    /\ seen_ok seen.
Proof.
  unfold deduplicate_advisories.
  destruct (dedup_loop l [] []) as [[seen d]|] eqn:E; simpl; [|discriminate].
  intros H; inversion H; subst.
  exists seen; repeat split; try reflexivity;
    apply (dedup_loop_ok l [] [] seen dups seen_ok_nil E).
Qed.

(** A list without two records of the same key passes unchanged. *)
Lemma dedup_loop_fresh l : forall seen dups,
  NoDup (map identity_key l) ->
  (forall a, In a l -> ~ In (identity_key a) (map fst seen)) ->
  dedup_loop l seen dups
  = Ok (seen ++ map (fun a => (identity_key a, a)) l, dups).
Proof.
  induction l as [|adv rest IH]; intros seen dups Hnd Hfresh; simpl.
  - rewrite app_nil_r; reflexivity.
  - inversion Hnd as [|? ? Hnotin Hnd']; subst.
    assert (E : dict_get (identity_key adv) seen = None)
      by (apply dict_get_none, Hfresh; left; reflexivity).
    rewrite E, (dict_set_new _ _ _ E), IH; auto.
    + rewrite <- app_assoc; reflexivity.
    + intros a Ha; rewrite map_app, in_app_iff; simpl.
      intros [Hin | [Heq | []]].
      * exact (Hfresh a (or_intror Ha) Hin).
      * apply Hnotin; rewrite Heq; apply in_map; exact Ha.
Qed.

Lemma first_seen_acc keys : forall acc k,
  In k acc -> In k (first_seen keys acc).
Proof.
  induction keys as [|x keys IH]; intros acc k H; simpl; [exact H|].
  destruct (existsb (text_eqb x) acc); apply IH; [exact H|].
  apply in_or_app; left; exact H.
Qed.

Lemma first_seen_in keys : forall acc k,
  In k keys -> In k (first_seen keys acc).
Proof.
  induction keys as [|x keys IH]; intros acc k H; simpl; [destruct H|].
  destruct H as [<- | H].
  - destruct (existsb (text_eqb x) acc) eqn:E; apply first_seen_acc.
    + apply existsb_exists in E as (y & Hy & Exy).
      apply text_eqb_eq in Exy; subst y; exact Hy.
    + apply in_or_app; right; left; reflexivity.
  - destruct (existsb (text_eqb x) acc); apply IH; exact H.
Qed.

(** ** Timestamps that do not compare *)

Lemma dt_gt_kind a b :
  match dt_gt a b with
  | Ok _ => aware a = aware b
  | Raise _ => aware a <> aware b
  end.
Proof.
  unfold dt_gt, aware.
  destruct (utcoffset a) as [oa|], (utcoffset b) as [ob|]; cbn [opt_eqb];
    try destruct (oa =? ob)%Z; try reflexivity; discriminate.
Qed.

Lemma dt_gt_ok_kind a b r : dt_gt a b = Ok r -> aware a = aware b.
Proof. intros H; pose proof (dt_gt_kind a b) as K; rewrite H in K; exact K. Qed.

Lemma dt_gt_raise_kind a b e : dt_gt a b = Raise e -> aware a <> aware b.
Proof. intros H; pose proof (dt_gt_kind a b) as K; rewrite H in K; exact K. Qed.

Lemma dt_gt_same_kind a b :
  aware a = aware b -> exists r, dt_gt a b = Ok r.
Proof.
  intros H; pose proof (dt_gt_kind a b) as K.
  destruct (dt_gt a b) as [r|e]; [exists r; reflexivity | contradiction].
Qed.

(** ** An invariant of the deduplication loop *)

Section DedupRelated.

Variable all : list TravelAdvisory.
Variable R : TravelAdvisory -> TravelAdvisory -> Prop.

Hypothesis R_refl : forall a, In a all -> R a a.
Hypothesis R_trans :
  forall a b c, In a all -> In b all -> In c all -> R a b -> R b c -> R a c.
Hypothesis R_later :
  forall a b, In a all -> In b all ->
    dt_gt (last_updated a) (last_updated b) = Ok true -> R a b.
Hypothesis R_not_later :
  forall a b, In a all -> In b all ->
    dt_gt (last_updated a) (last_updated b) = Ok false -> R b a.

Lemma dedup_loop_related rest : forall done seen dups seen' dups',
  (forall a, In a done -> In a all) ->
  (forall a, In a rest -> In a all) ->
  keeps_related R seen done ->
  dedup_loop rest seen dups = Ok (seen', dups') ->
  keeps_related R seen' (done ++ rest).
Proof.
  induction rest as [|adv rest IH];
    intros done seen dups seen' dups' Hdone Hrest Hinv Hrun.
  - simpl in Hrun; inversion Hrun; subst; rewrite app_nil_r; exact Hinv.
  - assert (Hadv : In adv all) by (apply Hrest; left; reflexivity).
    assert (Hnext : forall seen1 dups1,
               keeps_related R seen1 (done ++ [adv]) ->
               dedup_loop rest seen1 dups1 = Ok (seen', dups') ->
               keeps_related R seen' (done ++ adv :: rest)).
    { intros seen1 dups1 H1 Hrun1.
      replace (done ++ adv :: rest) with ((done ++ [adv]) ++ rest)
        by (rewrite <- app_assoc; reflexivity).
      eapply IH; [| | exact H1 | exact Hrun1].
      - intros a Ha; apply in_app_or in Ha as [Ha | [<- | []]]; auto.
      - intros a Ha; apply Hrest; right; exact Ha. }
    destruct Hinv as (Hok & Hsub & Hrel).
    cbn [dedup_loop] in Hrun.
    destruct (dict_get (identity_key adv) seen) as [existing|] eqn:Eget.
    + apply dict_get_some in Eget.
      assert (Hex : In existing all) by (apply Hdone, (Hsub _ _ Eget)).
      destruct (dt_gt (last_updated adv) (last_updated existing))
        as [[|]|] eqn:Egt; cbn [bind] in Hrun; [| |discriminate].
      * (* the incoming record replaces the entry *)
        eapply Hnext; [|exact Hrun].
        split; [apply seen_ok_set; exact Hok|]; split.
        -- intros k x Hx; apply dict_set_in in Hx as [Hx | Hx].
           ++ inversion Hx; subst; apply in_or_app; right; left; reflexivity.
           ++ apply in_or_app; left; eauto.
        -- intros y Hy; apply in_app_or in Hy as [Hy | [<- | []]].
           ++ destruct (Hrel y Hy) as (x & Hx & Hxy).
              destruct (list_eq_dec Z.eq_dec (identity_key y) (identity_key adv))
                as [Ey | Ey].
              ** exists adv; split; [rewrite Ey; apply dict_set_put|].
                 rewrite Ey in Hx.
                 assert (x = existing)
                   by (eapply nodup_keys_functional;
                       [exact (proj1 Hok) | exact Hx | exact Eget]).
                 subst x.
                 apply (R_trans adv existing y); auto.
              ** exists x; split; [apply dict_set_other; assumption | exact Hxy].
           ++ exists adv; split; [apply dict_set_put | apply R_refl; exact Hadv].
      * (* the entry stays *)
        eapply Hnext; [|exact Hrun].
        split; [exact Hok|]; split.
        -- intros k x Hx; apply in_or_app; left; eauto.
        -- intros y Hy; apply in_app_or in Hy as [Hy | [<- | []]]; [auto|].
           exists existing; split; [exact Eget | apply R_not_later; auto].
    + (* a new key *)
      eapply Hnext; [|exact Hrun].
      split; [apply seen_ok_set; exact Hok|]; split.
      * intros k x Hx; apply dict_set_in in Hx as [Hx | Hx].
        -- inversion Hx; subst; apply in_or_app; right; left; reflexivity.
        -- apply in_or_app; left; eauto.
      * intros y Hy; apply in_app_or in Hy as [Hy | [<- | []]].
        -- destruct (Hrel y Hy) as (x & Hx & Hxy).
           exists x; split; [|exact Hxy].
           apply dict_set_other; [exact Hx|].
           intros Ey; rewrite Ey in Hx.
           apply dict_get_none in Eget; apply Eget.
           apply in_map_iff; exists (identity_key adv, x); auto.
        -- exists adv; split; [apply dict_set_put | apply R_refl; exact Hadv].
Qed.

(** What the invariant gives for the list that is returned. *)
Lemma deduplicate_related l deduped dups :
  (forall a, In a l -> In a all) ->
  deduplicate_advisories l = Ok (deduped, dups) ->
  forall x y, In x deduped -> In y l ->
              identity_key y = identity_key x -> R x y.
Proof.
  intros Hl Hd x y Hx Hy Hkey.
  apply deduplicate_inv in Hd as (seen & Hrun & -> & Hok).
  assert (Hinv : keeps_related R seen ([] ++ l)).
  { eapply dedup_loop_related; [| exact Hl | | exact Hrun].
    - intros a [].
    - split; [exact seen_ok_nil|]. split; [intros k v [] | intros v []]. }
  destruct Hinv as (_ & _ & Hrel).
  destruct (Hrel y Hy) as (x' & Hx' & Hxy).
  apply in_map_iff in Hx as ([k x0] & E & Hx); simpl in E; subst x0.
  assert (k = identity_key x) by (apply (proj2 Hok _ _ Hx)); subst k.
  rewrite Hkey in Hx'.
  replace x with x'; [exact Hxy|].
  eapply nodup_keys_functional; [exact (proj1 Hok) | exact Hx' | exact Hx].
Qed.

End DedupRelated.

(** When the loop raises, it has met two records of one key whose
    timestamps are of different kinds. *)
Lemma dedup_loop_raise rest : forall seen dups e,
  seen_ok seen ->
  dedup_loop rest seen dups = Raise e ->
  exists a b,
    In a rest /\ (In b rest \/ In b (map snd seen))
    /\ identity_key a = identity_key b
    /\ aware (last_updated a) <> aware (last_updated b).
Proof.
  induction rest as [|adv rest IH]; intros seen dups e Hok H; simpl in H;
    [discriminate|].
  assert (Hstep : forall seen1 dups1,
             seen_ok seen1 ->
             (forall b, In b (map snd seen1) -> b = adv \/ In b (map snd seen)) ->
             dedup_loop rest seen1 dups1 = Raise e ->
             exists a b,
               In a (adv :: rest)
               /\ (In b (adv :: rest) \/ In b (map snd seen))
               /\ identity_key a = identity_key b
               /\ aware (last_updated a) <> aware (last_updated b)).
  { intros seen1 dups1 Hok1 Hsub H1.
    destruct (IH seen1 dups1 e Hok1 H1) as (a & b & Ha & Hb & Hk & Hm).
    exists a, b; split; [right; exact Ha|]. split; [|auto].
    destruct Hb as [Hb | Hb]; [left; right; exact Hb|].
    destruct (Hsub b Hb) as [-> | Hb']; [left; left; reflexivity | right; exact Hb']. }
  assert (Hset : forall b,
             In b (map snd (dict_set (identity_key adv) adv seen)) ->
             b = adv \/ In b (map snd seen)).
  { intros b Hb; apply in_map_iff in Hb as ([k x] & <- & Hx).
    apply dict_set_in in Hx as [Hx | Hx].
    - inversion Hx; left; reflexivity.
    - right; apply in_map_iff; exists (k, x); auto. }
  destruct (dict_get (identity_key adv) seen) as [existing|] eqn:Eget.
  - apply dict_get_some in Eget.
    destruct (dt_gt (last_updated adv) (last_updated existing))
      as [[|]|e'] eqn:Egt; cbn [bind] in H.
    + eapply Hstep; [apply seen_ok_set; exact Hok | exact Hset | exact H].
    + eapply Hstep; [exact Hok | intros b Hb; right; exact Hb | exact H].
    + exists adv, existing; split; [left; reflexivity|]. split.
      * right; apply in_map_iff; exists (identity_key adv, existing); auto.
      * split; [apply (proj2 Hok _ _ Eget)|].
        eapply dt_gt_raise_kind; exact Egt.
  - eapply Hstep; [apply seen_ok_set; exact Hok | exact Hset | exact H].
Qed.

(** ** Which record of a key the deduplicator keeps *)

(** A record that is not later than one that a third is strictly later
    than is strictly older than the third. *)
Lemma dt_gt_le_lt a b c :
  valid a = true -> valid b = true -> valid c = true ->
  dt_gt a b = Ok true -> dt_gt c b = Ok false -> dt_gt a c = Ok true.
Proof.
  intros Ha Hb Hc Hab Hcb.
  pose proof (dt_gt_ok_kind _ _ _ Hcb) as Kcb.
  apply (dt_gt_valid a b Ha Hb) in Hab as [Kab Lab].
  apply (dt_gt_valid a c Ha Hc); split; [congruence|].
  destruct (Z_lt_le_dec (instant b) (instant c)) as [Hlt | Hle]; [|lia].
  assert (Hgt : dt_gt c b = Ok true)
    by (apply (dt_gt_valid c b Hc Hb); split; assumption).
  rewrite Hgt in Hcb; discriminate Hcb.
Qed.

Lemma first_latest_snoc done x adv :
  first_latest done x ->
  (identity_key adv = identity_key x ->
   dt_gt (last_updated adv) (last_updated x) = Ok false) ->
  first_latest (done ++ [adv]) x.
Proof.
  intros (pre & post & -> & Hpre & Hpost) Hadv.
  exists pre, (post ++ [adv]); split; [|split; [exact Hpre|]].
  - rewrite <- app_assoc; reflexivity.
  - intros y Hy; apply in_app_or in Hy as [Hy | [<- | []]];
      [apply Hpost; exact Hy | exact Hadv].
Qed.

(** The loop keeps, under every key it has met, the first of the latest
    records of that key. *)
Lemma dedup_loop_first_latest rest : forall done seen dups seen' dups',
  Forall (fun a => valid (last_updated a) = true) (done ++ rest) ->
  seen_ok seen ->
  (forall k x, In (k, x) seen -> first_latest done x) ->
  (forall y, In y done -> exists x, In (identity_key y, x) seen) ->
  dedup_loop rest seen dups = Ok (seen', dups') ->
  seen_ok seen'
  /\ (forall k x, In (k, x) seen' -> first_latest (done ++ rest) x)
  /\ (forall y, In y (done ++ rest) -> exists x, In (identity_key y, x) seen').
Proof.
  induction rest as [|adv rest IH];
    intros done seen dups seen' dups' Hvalid Hok Hfl Hcov Hrun.
  - simpl in Hrun; inversion Hrun; subst; rewrite app_nil_r; auto.
  - assert (Hv : forall a, In a done \/ a = adv ->
                           valid (last_updated a) = true).
    { rewrite Forall_forall in Hvalid; intros a Ha; apply Hvalid.
      apply in_or_app; destruct Ha as [Ha | ->]; [left; exact Ha|].
      right; left; reflexivity. }
    assert (Hnext : forall seen1 dups1,
               seen_ok seen1 ->
               (forall k x, In (k, x) seen1 -> first_latest (done ++ [adv]) x) ->
               (forall y, In y (done ++ [adv]) ->
                          exists x, In (identity_key y, x) seen1) ->
               dedup_loop rest seen1 dups1 = Ok (seen', dups') ->
               seen_ok seen'
               /\ (forall k x, In (k, x) seen' ->
                               first_latest (done ++ adv :: rest) x)
               /\ (forall y, In y (done ++ adv :: rest) ->
                             exists x, In (identity_key y, x) seen')).
    { intros seen1 dups1 H1 H2 H3 Hrun1.
      replace (done ++ adv :: rest) with ((done ++ [adv]) ++ rest) in *
        by (rewrite <- app_assoc; reflexivity).
      eapply IH; eassumption. }
    (* the entries of the dict after [seen[key] = adv] *)
    assert (Hset : forall k x,
               In (k, x) (dict_set (identity_key adv) adv seen) ->
               (k = identity_key adv /\ x = adv)
               \/ (k <> identity_key adv /\ In (k, x) seen)).
    { intros k x Hx.
      destruct (list_eq_dec Z.eq_dec k (identity_key adv)) as [-> | Hne].
      - left; split; [reflexivity|].
        eapply nodup_keys_functional;
          [exact (proj1 (seen_ok_set adv seen Hok)) | exact Hx
          | apply dict_set_put].
      - right; split; [exact Hne|].
        apply dict_set_in in Hx as [Hx | Hx]; [|exact Hx].
        inversion Hx; contradiction. }
    assert (Hcov_set : forall y, In y (done ++ [adv]) ->
               exists x, In (identity_key y, x)
                            (dict_set (identity_key adv) adv seen)).
    { intros y Hy; apply in_app_or in Hy as [Hy | [<- | []]];
        [|exists adv; apply dict_set_put].
      destruct (Hcov y Hy) as (x & Hx).
      destruct (list_eq_dec Z.eq_dec (identity_key y) (identity_key adv))
        as [E | Hne].
      - exists adv; rewrite E; apply dict_set_put.
      - exists x; apply dict_set_other; assumption. }
    cbn [dedup_loop] in Hrun.
    destruct (dict_get (identity_key adv) seen) as [existing|] eqn:Eget.
    + pose proof (dict_get_some _ _ _ Eget) as Hin.
      assert (Hkey : identity_key adv = identity_key existing)
        by (apply (proj2 Hok _ _ Hin)).
      destruct (dt_gt (last_updated adv) (last_updated existing))
        as [[|]|] eqn:Egt; cbn [bind] in Hrun; [| |discriminate].
      * (* the incoming record is strictly later and replaces the entry *)
        eapply Hnext; [apply seen_ok_set; exact Hok | | exact Hcov_set
                      | exact Hrun].
        intros k x Hx; destruct (Hset k x Hx) as [[-> ->] | [Hne Hx']].
        -- exists done, []; split; [reflexivity|]. split; [|intros y []].
           intros y Hy Ey.
           destruct (Hfl _ _ Hin) as (pre & post & Hdone & Hpre & Hpost).
           assert (Hy' : In y (pre ++ existing :: post))
             by (rewrite <- Hdone; exact Hy).
           assert (Vex : valid (last_updated existing) = true).
           { apply Hv; left; rewrite Hdone; apply in_or_app; right; left.
             reflexivity. }
           apply in_app_or in Hy' as [Hy' | [<- | Hy']].
           ++ eapply dt_gt_trans; [| | | exact Egt | apply Hpre];
                auto; congruence.
           ++ exact Egt.
           ++ eapply dt_gt_le_lt; [| | | exact Egt | apply Hpost];
                auto; congruence.
        -- apply first_latest_snoc; [eapply Hfl; exact Hx'|].
           intros E; exfalso; apply Hne.
           rewrite (proj2 Hok _ _ Hx'); symmetry; exact E.
      * (* the entry stays *)
        eapply Hnext; [exact Hok | | | exact Hrun].
        -- intros k x Hx; apply first_latest_snoc; [eapply Hfl; exact Hx|].
           intros E.
           assert (x = existing); [|subst x; exact Egt].
           eapply nodup_keys_functional; [exact (proj1 Hok) | | exact Hin].
           rewrite E, <- (proj2 Hok _ _ Hx); exact Hx.
        -- intros y Hy; apply in_app_or in Hy as [Hy | [<- | []]];
             [apply Hcov; exact Hy | exists existing; exact Hin].
    + (* a new key *)
      apply dict_get_none in Eget.
      eapply Hnext; [apply seen_ok_set; exact Hok | | exact Hcov_set
                    | exact Hrun].
      intros k x Hx; destruct (Hset k x Hx) as [[-> ->] | [Hne Hx']].
      * exists done, []; split; [reflexivity|]. split; [|intros y []].
        intros y Hy Ey; exfalso; apply Eget.
        destruct (Hcov y Hy) as (x & Hx0); rewrite Ey in Hx0.
        apply in_map_iff; exists (identity_key adv, x); auto.
      * apply first_latest_snoc; [eapply Hfl; exact Hx'|].
        intros E; exfalso; apply Hne.
        rewrite (proj2 Hok _ _ Hx'); symmetry; exact E.
Qed.

(** C2 (tie-break), as the code has it.  Of two advisories with the same
    identity key the deduplicator keeps the one whose timestamp is strictly
    later; when neither is later -- in particular when the two timestamps
    are equal -- it keeps the earlier-seen record and drops the incoming
    one.  In a list of any length, the record kept under a key is the first
    of the latest records of that key: every earlier record of the key is
    strictly older, no later record of the key is strictly later. *)
Theorem deduplicate_pair :
  (forall a b : TravelAdvisory,
      identity_key a = identity_key b ->
      (dt_gt (last_updated b) (last_updated a) = Ok true ->
       deduplicate_advisories [a; b] = Ok ([b], [mk_duplicate a b]))
      /\ (dt_gt (last_updated a) (last_updated b) = Ok true ->
          deduplicate_advisories [a; b] = Ok ([a], [mk_duplicate b a]))
      /\ (dt_gt (last_updated b) (last_updated a) = Ok false ->
          deduplicate_advisories [a; b] = Ok ([a], [mk_duplicate b a]))
      /\ (last_updated a = last_updated b ->
          deduplicate_advisories [a; b] = Ok ([a], [mk_duplicate b a])))
  /\ (forall (l kept : list TravelAdvisory) (dups : list duplicate),
         Forall (fun a => valid (last_updated a) = true) l ->
         deduplicate_advisories l = Ok (kept, dups) ->
         (forall x, In x kept -> first_latest l x)
         /\ (forall y, In y l ->
               exists x, In x kept /\ identity_key x = identity_key y)
         /\ NoDup (map identity_key kept)).
Proof.
  split.
  - intros a b Hkey.
    assert (Hrun : forall later,
               dt_gt (last_updated b) (last_updated a) = Ok later ->
               deduplicate_advisories [a; b] =
               Ok (if later then ([b], [mk_duplicate a b])
                   else ([a], [mk_duplicate b a]))).
    { intros later Hgt.
      unfold deduplicate_advisories; simpl.
      rewrite <- Hkey, text_eqb_refl, Hgt; simpl.
      destruct later; reflexivity. }
    split; [|split; [|split]].
    + intros H; exact (Hrun true H).
    + intros H; exact (Hrun false (dt_gt_asym _ _ H)).
    + intros H; exact (Hrun false H).
    + intros H; apply (Hrun false); rewrite H; apply dt_gt_irrefl.
  - intros l kept dups Hvalid Hd.
    apply deduplicate_inv in Hd as (seen & Hrun & -> & _).
    destruct (dedup_loop_first_latest l [] [] [] seen dups Hvalid seen_ok_nil)
      as (Hok & Hfl & Hcov); auto.
    { intros k x []. }
    { intros y []. }
    split; [|split].
    + intros x Hx; apply in_map_iff in Hx as ([k x'] & <- & Hx).
      exact (Hfl _ _ Hx).
    + intros y Hy; destruct (Hcov y Hy) as (x & Hx).
      exists x; split; [apply in_map_iff; exists (identity_key y, x); auto|].
      symmetry; apply (proj2 Hok _ _ Hx).
    + apply seen_ok_values; exact Hok.
Qed.

Lemma deduplicate_pair_witness :
  deduplicate_advisories [mexico_3; mexico_4]
  = Ok ([mexico_3], [mk_duplicate mexico_4 mexico_3])
  /\ first_latest [mexico_3; north_korea_4; mexico_4] mexico_3.
Proof.
  destruct deduplicate_pair as [Hpair Hlist]; split.
  - destruct (Hpair mexico_3 mexico_4) as (_ & _ & H & _);
      [reflexivity | apply H; reflexivity].
  - destruct (Hlist [mexico_3; north_korea_4; mexico_4]
                    [mexico_3; north_korea_4]
                    [mk_duplicate mexico_4 mexico_3]) as (H & _).
    + repeat constructor.
    + reflexivity.
    + apply H; left; reflexivity.
Defined.

(** C2 as stated fails: two records with the same key and the same
    timestamp, and the incoming one is the one dropped. *)
Lemma deduplicate_tie_incoming_dropped :
  identity_key mexico_3 = identity_key mexico_4
  /\ last_updated mexico_3 = last_updated mexico_4
  /\ mexico_3 <> mexico_4
  /\ deduplicate_advisories [mexico_3; mexico_4]
     = Ok ([mexico_3], [mk_duplicate mexico_4 mexico_3])
  /\ ~ (forall a b : TravelAdvisory,
          identity_key a = identity_key b ->
          last_updated a = last_updated b ->
          exists dups, deduplicate_advisories [a; b] = Ok ([b], dups)).
Proof.
  split; [reflexivity|]. split; [reflexivity|].
  split; [discriminate|]. split; [reflexivity|].
  intros H.
  destruct (H mexico_3 mexico_4 eq_refl eq_refl) as [dups Hd].
  discriminate Hd.
Qed.

(** The entries of [duplicates] name two records of one key, the dropped
    one not later than the one kept. *)
Lemma dedup_loop_duplicates (all : list TravelAdvisory) rest :
  forall seen dups seen' dups',
    seen_ok seen ->
    (forall k x, In (k, x) seen -> In x all) ->
    (forall a, In a rest -> In a all) ->
    (forall e, In e dups -> duplicate_ok all e) ->
    dedup_loop rest seen dups = Ok (seen', dups') ->
    forall e, In e dups' -> duplicate_ok all e.
Proof.
  induction rest as [|adv rest IH];
    intros seen dups seen' dups' Hok Hseen Hrest Hdups H; simpl in H.
  - inversion H; subst; exact Hdups.
  - assert (Hadv : In adv all) by (apply Hrest; left; reflexivity).
    assert (Hrest' : forall a, In a rest -> In a all)
      by (intros a Ha; apply Hrest; right; exact Ha).
    assert (Hset : forall k x,
               In (k, x) (dict_set (identity_key adv) adv seen) -> In x all).
    { intros k x Hx; apply dict_set_in in Hx as [Hx | Hx];
        [inversion Hx; subst; exact Hadv | eapply Hseen; exact Hx]. }
    destruct (dict_get (identity_key adv) seen) as [existing|] eqn:Eget.
    + apply dict_get_some in Eget.
      assert (Hex : In existing all) by (eapply Hseen; exact Eget).
      assert (Hkey : identity_key adv = identity_key existing)
        by (apply (proj2 Hok _ _ Eget)).
      destruct (dt_gt (last_updated adv) (last_updated existing))
        as [[|]|] eqn:Egt; cbn [bind] in H; [| |discriminate].
      * eapply (IH _ _ _ _ (seen_ok_set adv seen Hok) Hset Hrest'); [|exact H].
        intros e He; apply in_app_or in He as [He | [<- | []]]; [auto|].
        unfold duplicate_ok, not_later; cbn [dropped in_favor_of].
        repeat split; auto. apply dt_gt_asym; exact Egt.
      * eapply (IH _ _ _ _ Hok Hseen Hrest'); [|exact H].
        intros e He; apply in_app_or in He as [He | [<- | []]]; [auto|].
        unfold duplicate_ok, not_later; cbn [dropped in_favor_of].
        repeat split; auto.
    + eapply (IH _ _ _ _ (seen_ok_set adv seen Hok) Hset Hrest'); eauto.
Qed.

(** X1 (every record is accounted for).  When the deduplicator returns, the
    number of advisories it keeps and the number of duplicates it reports
    add up to the number of advisories it was given; every reported
    duplicate names a dropped record and a kept record of the input with
    the same identity key, the dropped one not later than the other. *)
Theorem deduplicate_accounts :
  forall (advisories deduped : list TravelAdvisory) (dups : list duplicate),
    deduplicate_advisories advisories = Ok (deduped, dups) ->
    List.length deduped + List.length dups = List.length advisories
    /\ (forall e, In e dups ->
          In (dropped e) advisories /\ In (in_favor_of e) advisories
          /\ identity_key (dropped e) = identity_key (in_favor_of e)
          /\ dt_gt (last_updated (dropped e)) (last_updated (in_favor_of e))
             = Ok false).
Proof.
  intros l deduped dups Hd.
  apply deduplicate_inv in Hd as (seen & Hrun & -> & Hok); split.
  - apply dedup_loop_length in Hrun; rewrite length_map; simpl in Hrun; lia.
  - intros e He.
    apply (dedup_loop_duplicates l l [] [] seen dups seen_ok_nil) with (e := e);
      auto.
    + intros k x [].
    + intros e' [].
Qed.

Lemma deduplicate_accounts_witness :
  List.length [mexico_3; north_korea_4]
  + List.length [mk_duplicate mexico_4 mexico_3]
  = List.length [mexico_3; mexico_4; north_korea_4].
Proof.
  apply (deduplicate_accounts [mexico_3; mexico_4; north_korea_4]
           [mexico_3; north_korea_4] [mk_duplicate mexico_4 mexico_3]).
  reflexivity.
Defined.

(** Every key of the input is the key of a record that is kept. *)
Lemma deduplicate_key_kept l deduped dups :
  deduplicate_advisories l = Ok (deduped, dups) ->
  map identity_key deduped = first_seen (map identity_key l) []
  /\ forall y, In y l -> In (identity_key y) (map identity_key deduped).
Proof.
  intros Hd; apply deduplicate_inv in Hd as (seen & Hrun & -> & Hok).
  assert (Hkeys : map identity_key (map snd seen)
                  = first_seen (map identity_key l) []).
  { rewrite (seen_values_keys seen Hok).
    apply (dedup_loop_keys l [] [] seen dups Hrun). }
  split; [exact Hkeys|].
  intros y Hy; rewrite Hkeys; apply first_seen_in, in_map; exact Hy.
Qed.

(** X2 (one advisory per key, in order of first appearance).  When the
    deduplicator returns, the identity keys of the advisories it keeps are
    the distinct identity keys of its input in the order in which they
    first occur; every advisory kept is one of the input and every key of
    the input is the key of an advisory kept. *)
Theorem deduplicate_first_seen_order :
  forall (advisories deduped : list TravelAdvisory) (dups : list duplicate),
    deduplicate_advisories advisories = Ok (deduped, dups) ->
    map identity_key deduped = first_seen (map identity_key advisories) []
    /\ NoDup (map identity_key deduped)
    /\ (forall x, In x deduped -> In x advisories)
    /\ (forall y, In y advisories ->
          In (identity_key y) (map identity_key deduped)).
Proof.
  intros l deduped dups Hd.
  pose proof (deduplicate_keys_nodup _ _ _ Hd) as Hnd.
  destruct (deduplicate_key_kept _ _ _ Hd) as [Hkeys Hall].
  apply deduplicate_inv in Hd as (seen & Hrun & -> & Hok).
  split; [exact Hkeys|]. split; [exact Hnd|]. split; [|exact Hall].
  intros x Hx; apply in_map_iff in Hx as ([k x'] & <- & Hx).
  apply (dedup_loop_members (fun a => In a l) l [] [] seen dups) with (k := k);
    auto.
  intros k' x0 [].
Qed.

Lemma deduplicate_first_seen_order_witness :
  map identity_key [mexico_3; north_korea_4]
  = first_seen (map identity_key [mexico_3; mexico_4; north_korea_4]) [].
Proof.
  apply (deduplicate_first_seen_order [mexico_3; mexico_4; north_korea_4]
           [mexico_3; north_korea_4] [mk_duplicate mexico_4 mexico_3]).
  reflexivity.
Defined.

(** X3 (idempotence).  A list whose identity keys are pairwise distinct
    passes the deduplicator unchanged, with no duplicate reported and no
    timestamp compared; so deduplicating the list the deduplicator returned
    gives it back. *)
Theorem deduplicate_idempotent :
  (forall l : list TravelAdvisory,
      NoDup (map identity_key l) -> deduplicate_advisories l = Ok (l, []))
  /\ (forall (advisories deduped : list TravelAdvisory) (dups : list duplicate),
         deduplicate_advisories advisories = Ok (deduped, dups) ->
         deduplicate_advisories deduped = Ok (deduped, [])).
Proof.
  assert (Hfresh : forall l : list TravelAdvisory,
             NoDup (map identity_key l) ->
             deduplicate_advisories l = Ok (l, [])).
  { intros l Hnd; unfold deduplicate_advisories.
    rewrite dedup_loop_fresh; [|exact Hnd | intros a _ []].
    cbn [bind fst snd app]; rewrite map_map; cbn [snd]; rewrite map_id.
    reflexivity. }
  split; [exact Hfresh|].
  intros l deduped dups Hd; apply Hfresh.
  eapply deduplicate_keys_nodup; exact Hd.
Qed.

(** X4 (timestamps that do not compare).  The deduplicator raises
    [TypeError] exactly when two advisories of its input have the same
    identity key and timestamps of different kinds, one with a UTC offset
    and one without. *)
Theorem deduplicate_type_error :
  forall advisories : list TravelAdvisory,
    deduplicate_advisories advisories = Raise TypeError
    <-> exists a b,
          In a advisories /\ In b advisories
          /\ identity_key a = identity_key b
          /\ aware (last_updated a) = true
          /\ aware (last_updated b) = false.
Proof.
  intros l; split.
  - unfold deduplicate_advisories.
    destruct (dedup_loop l [] []) as [r|e] eqn:E; cbn [bind]; [discriminate|].
    intros _.
    destruct (dedup_loop_raise l [] [] e seen_ok_nil E)
      as (a & b & Ha & Hb & Hk & Hm).
    destruct Hb as [Hb | []].
    destruct (aware (last_updated a)) eqn:Ea,
             (aware (last_updated b)) eqn:Eb; try congruence.
    + exists a, b; auto.
    + exists b, a; auto.
  - intros (a & b & Ha & Hb & Hk & Ea & Eb).
    destruct (deduplicate_advisories l) as [[deduped dups]|[]] eqn:E;
      [exfalso | reflexivity].
    assert (Hrel : forall x y, In x deduped -> In y l ->
                     identity_key y = identity_key x -> same_kind x y).
    { apply (deduplicate_related l same_kind) with (l := l) (dups := dups);
        unfold same_kind.
      - reflexivity.
      - intros; congruence.
      - intros x y _ _ H; eapply dt_gt_ok_kind; exact H.
      - intros x y _ _ H; symmetry; eapply dt_gt_ok_kind; exact H.
      - auto.
      - exact E. }
    destruct (deduplicate_key_kept l deduped dups E) as [_ Hall].
    specialize (Hall a Ha); apply in_map_iff in Hall as (x & Hx & Hin).
    pose proof (Hrel x a Hin Ha (eq_sym Hx)) as H1.
    pose proof (Hrel x b Hin Hb) as H2.
    unfold same_kind in *; rewrite <- Hk, Hx in H2.
    specialize (H2 eq_refl); congruence.
Qed.

(** X5 (the latest record of a key is the one kept).  On advisories whose
    timestamps are [datetime] values, when the deduplicator returns, no
    advisory of the input is later than the advisory kept under its
    identity key: the comparison [y.last_updated > x.last_updated] is false
    for the kept [x] and every input [y] of the same key. *)
Theorem deduplicate_keeps_latest :
  forall (advisories deduped : list TravelAdvisory) (dups : list duplicate),
    (forall a, In a advisories -> valid (last_updated a) = true) ->
    deduplicate_advisories advisories = Ok (deduped, dups) ->
    forall x y,
      In x deduped -> In y advisories -> identity_key y = identity_key x ->
      dt_gt (last_updated y) (last_updated x) = Ok false.
Proof.
  intros l deduped dups Hvalid Hd x y Hx Hy Hkey.
  assert (Hxl : In x l).
  { apply deduplicate_inv in Hd as (seen & Hrun & -> & Hok).
    apply in_map_iff in Hx as ([k x'] & <- & Hx).
    apply (dedup_loop_members (fun a => In a l) l [] [] seen dups) with (k := k);
      auto.
    intros k' x0 []. }
  assert (Hrel : at_least_as_recent x y).
  { apply (deduplicate_related l at_least_as_recent)
      with (l := l) (deduped := deduped) (dups := dups);
      auto; unfold at_least_as_recent, same_kind.
    - intros a _; split; [reflexivity | lia].
    - intros a b c _ _ _ [E1 L1] [E2 L2]; split; [congruence | lia].
    - intros a b Ha Hb H.
      apply (dt_gt_valid _ _ (Hvalid a Ha) (Hvalid b Hb)) in H as [E L].
      split; [exact E | lia].
    - intros a b Ha Hb H; split; [symmetry; eapply dt_gt_ok_kind; exact H|].
      destruct (Z_le_gt_dec (instant (last_updated a)) (instant (last_updated b)))
        as [Hle | Hgt]; [exact Hle | exfalso].
      assert (H' : dt_gt (last_updated a) (last_updated b) = Ok true).
      { apply (dt_gt_valid _ _ (Hvalid a Ha) (Hvalid b Hb)); split;
          [eapply dt_gt_ok_kind; exact H | lia]. }
      congruence. }
  destruct Hrel as [Ekind Hle]; unfold same_kind in Ekind.
  destruct (dt_gt_same_kind (last_updated y) (last_updated x) (eq_sym Ekind))
    as [[|] Hr]; [exfalso | exact Hr].
  apply (dt_gt_valid _ _ (Hvalid y Hy) (Hvalid x Hxl)) in Hr as [_ Hlt]; lia.
Qed.

Lemma deduplicate_keeps_latest_witness :
  dt_gt (last_updated mexico_4) (last_updated mexico_3) = Ok false.
Proof.
  apply (deduplicate_keeps_latest [mexico_3; mexico_4; north_korea_4]
           [mexico_3; north_korea_4] [mk_duplicate mexico_4 mexico_3]).
  - intros a [<- | [<- | [<- | []]]]; reflexivity.
  - reflexivity.
  - left; reflexivity.
  - right; left; reflexivity.
  - reflexivity.
Defined.

(** ** Regional elevation *)

Lemma max_level_fold ws : forall acc : Z,
  let m := fold_left (fun acc x => Z.max acc (level x)) ws acc in
  (acc <= m)%Z
  /\ (forall w, In w ws -> (level w <= m)%Z)
  /\ (m = acc \/ exists w, In w ws /\ level w = m).
Proof.
  induction ws as [|x ws IH]; intros acc; simpl.
  - split; [lia|]. split; [intros w []|]. left; reflexivity.
  - destruct (IH (Z.max acc (level x))) as (H1 & H2 & H3).
    split; [lia|]. split.
    + intros w [<- | Hw]; [lia | apply H2; exact Hw].
    + destruct H3 as [E | (w & Hw & E)].
      * destruct (Z.max_spec acc (level x)) as [[_ Em] | [_ Em]].
        -- right; exists x; split; [left; reflexivity | congruence].
        -- left; congruence.
      * right; exists w; split; [right; exact Hw | exact E].
Qed.

Lemma max_regional_level_bound a w :
  In w (regional_warnings a) -> (level w <= max_regional_level a)%Z.
Proof.
  unfold max_regional_level, max_level.
  destruct (regional_warnings a) as [|w0 ws]; [intros []|].
  destruct (max_level_fold ws (level w0)) as (H1 & H2 & _).
  intros [<- | Hw]; [exact H1 | apply H2; exact Hw].
Qed.

Lemma max_regional_level_attained a :
  regional_warnings a <> [] ->
  exists w, In w (regional_warnings a) /\ level w = max_regional_level a.
Proof.
  unfold max_regional_level, max_level.
  destruct (regional_warnings a) as [|w0 ws]; [congruence | intros _].
  destruct (max_level_fold ws (level w0)) as (_ & _ & [E | (w & Hw & E)]).
  - exists w0; split; [left; reflexivity | symmetry; exact E].
  - exists w; split; [right; exact Hw | exact E].
Qed.

Lemma has_regional_elevation_iff a :
  has_regional_elevation a = true
  <-> (overall_level a < max_regional_level a)%Z.
Proof.
  unfold has_regional_elevation; rewrite existsb_exists; split.
  - intros (w & Hw & Hlt); apply Z.ltb_lt in Hlt.
    pose proof (max_regional_level_bound a w Hw); lia.
  - intros Hlt.
    destruct (regional_warnings a) as [|w0 ws] eqn:E.
    + unfold max_regional_level in Hlt; rewrite E in Hlt; lia.
    + destruct (max_regional_level_attained a) as (w & Hw & Ew);
        [rewrite E; discriminate|].
      exists w; split; [rewrite <- E; exact Hw | apply Z.ltb_lt; lia].
Qed.

(** The test of the classifier reads: the overall level or the highest
    regional level is 3 or more. *)
Lemma is_high_risk_max a :
  is_high_risk a
  = (3 <=? overall_level a)%Z || (3 <=? max_regional_level a)%Z.
Proof.
  unfold is_high_risk.
  destruct (Z.leb_spec 3 (overall_level a)) as [H3 | H3]; [reflexivity|].
  destruct (Z.leb_spec 3 (max_regional_level a)) as [Hm | Hm];
    [|rewrite andb_false_r; reflexivity].
  rewrite andb_true_r; simpl.
  apply has_regional_elevation_iff; lia.
Qed.

(** X6 (regional elevation).  The highest regional level of an advisory is
    an upper bound of the levels of its regional warnings, is the level of
    one of them when there is any, and is the overall level when there is
    none; the advisory has a regional elevation exactly when its highest
    regional level is above its overall level. *)
Theorem regional_elevation_spec :
  forall a : TravelAdvisory,
    (forall w, In w (regional_warnings a) ->
               (level w <= max_regional_level a)%Z)
    /\ (regional_warnings a <> [] ->
        exists w, In w (regional_warnings a)
                  /\ level w = max_regional_level a)
    /\ (regional_warnings a = [] ->
        max_regional_level a = overall_level a
        /\ has_regional_elevation a = false)
    /\ (has_regional_elevation a = true
        <-> (overall_level a < max_regional_level a)%Z).
Proof.
  intros a.
  split; [exact (max_regional_level_bound a)|].
  split; [exact (max_regional_level_attained a)|].
  split; [|exact (has_regional_elevation_iff a)].
  unfold max_regional_level, has_regional_elevation.
  intros ->; split; reflexivity.
Qed.

(** ** What the classifier keeps *)

(** X7 (the high-risk criterion).  An advisory is in the high-risk output
    of the classifier exactly when it is in the input, its name is not a
    prohibited country, and its overall level or its highest regional level
    is 3 or more; it is in the prohibited output exactly when it is in the
    input and its name is prohibited.  The two outputs together are a
    rearrangement of the advisories of the input that pass one of the two
    tests, each as often as it occurs. *)
Theorem filter_high_risk_members :
  forall (advisories : list TravelAdvisory),
    (forall a,
        In a (snd (filter_high_risk advisories))
        <-> In a advisories
            /\ is_prohibited_country (country_name a) = false
            /\ (3 <= overall_level a \/ 3 <= max_regional_level a)%Z)
    /\ (forall a,
           In a (fst (filter_high_risk advisories))
           <-> In a advisories
               /\ is_prohibited_country (country_name a) = true)
    /\ Permutation
         (fst (filter_high_risk advisories) ++ snd (filter_high_risk advisories))
         (filter (fun a => is_prohibited_country (country_name a)
                           || (3 <=? overall_level a)%Z
                           || (3 <=? max_regional_level a)%Z) advisories).
Proof.
  intros l; split; [|split].
  - intros a; rewrite in_high_risk_list, is_high_risk_max, orb_true_iff.
    rewrite !Z.leb_le; reflexivity.
  - intros a; apply in_prohibited_list.
  - rewrite filter_high_risk_perm.
    erewrite filter_ext; [reflexivity|].
    intros a; rewrite is_high_risk_max.
    destruct (is_prohibited_country (country_name a)); reflexivity.
Qed.

(** ** When the assertions pass *)

Lemma check_parse_failures_passes v :
  (0 <= parse_failures v <= raw_count v)%Z -> (raw_count v < 2 ^ 53)%Z ->
  check_parse_failures v = []
  <-> (raw_count v = 0 \/ 20 * parse_failures v < raw_count v)%Z.
Proof.
  intros Hpf Hraw.
  pose proof (check_parse_failures_fails v Hpf Hraw) as Hfail.
  destruct (check_parse_failures_cases v) as [E | E]; rewrite E.
  - apply Hfail in E. split; [discriminate | lia].
  - split; [intros _ | reflexivity].
    destruct (Z_le_gt_dec (raw_count v) (20 * parse_failures v)); [|lia].
    destruct (Z.eq_dec (raw_count v) 0); [lia|].
    assert (H : check_parse_failures v
                = [PARSE_FAILURES (parse_failures v) (raw_count v)])
      by (apply Hfail; lia).
    congruence.
Qed.

Lemma check_sanity_nil h : check_sanity h = [] <-> h <> [].
Proof. destruct h; simpl; split; congruence. Qed.

Lemma check_duplicates_nil p h :
  check_duplicates p h = []
  <-> NoDup (filter truthy (map country_code (p ++ h))).
Proof.
  unfold check_duplicates; rewrite check_codes_nil; split; [tauto|].
  intros H; split; [exact H | intros c _ []].
Qed.

Lemma run_assertions_true v p h :
  run_assertions v p h = true
  <-> check_leak h = [] /\ check_parse_failures v = []
      /\ check_sanity h = [] /\ check_duplicates p h = [].
Proof.
  unfold run_assertions, assertion_errors.
  destruct (check_leak h); simpl; [|split; [discriminate | intros [H _]; discriminate]].
  destruct (check_parse_failures v); simpl;
    [|split; [discriminate | intros (_ & H & _); discriminate]].
  destruct (check_sanity h); simpl;
    [|split; [discriminate | intros (_ & _ & H & _); discriminate]].
  destruct (check_duplicates p h); simpl; [tauto|].
  split; [discriminate | intros (_ & _ & _ & H); discriminate].
Qed.

(** X8 (when the assertions pass).  For counts that a float holds exactly,
    [run_assertions] returns [True] exactly when no advisory of the
    high-risk list has a prohibited name, the raw count is zero or the
    parse failures are fewer than one in twenty of it, the high-risk list
    is not empty, and no non-empty country code occurs twice across the
    prohibited and the high-risk list. *)
Theorem run_assertions_passes :
  forall (v : VerificationReport) (prohibited high_risk : list TravelAdvisory),
    (0 <= parse_failures v <= raw_count v)%Z ->
    (raw_count v < 2 ^ 53)%Z ->
    run_assertions v prohibited high_risk = true
    <-> Forall (fun a => is_prohibited_country (country_name a) = false)
               high_risk
        /\ (raw_count v = 0 \/ 20 * parse_failures v < raw_count v)%Z
        /\ high_risk <> []
        /\ NoDup (filter truthy (map country_code (prohibited ++ high_risk))).
Proof.
  intros v p h Hpf Hraw.
  rewrite run_assertions_true, check_leak_nil,
    (check_parse_failures_passes v Hpf Hraw), check_sanity_nil,
    check_duplicates_nil.
  reflexivity.
Qed.

Lemma run_assertions_passes_witness :
  run_assertions report_4_of_100 [north_korea_4] [mexico_3] = true.
Proof.
  apply (run_assertions_passes report_4_of_100 [north_korea_4] [mexico_3]).
  - simpl; lia.
  - simpl; lia.
  - split; [repeat constructor|].
    split; [right; simpl; lia|].
    split; [discriminate|].
    repeat constructor; simpl; intuition discriminate.
Defined.

(** ** The parsing loop of [main] *)

Lemma parse_advisory_none unescape fromisoformat now raw :
  parse_advisory unescape fromisoformat now raw = None
  <-> discarded raw = true.
Proof.
  unfold parse_advisory, discarded.
  destruct (parse_level_from_title (get (Title raw) [])) as [name lvl].
  destruct (lvl =? 0)%Z; simpl; [|split; discriminate].
  destruct (is_prohibited_country name); simpl; split;
    try discriminate; reflexivity.
Qed.

Lemma parse_advisory_name unescape fromisoformat now raw a :
  parse_advisory unescape fromisoformat now raw = Some a ->
  country_name a = fst (parse_level_from_title (get (Title raw) []))
  /\ overall_level a = snd (parse_level_from_title (get (Title raw) []))
  /\ regional_warnings a
     = extract_regional_warnings unescape (get (Summary raw) [])
                                 (overall_level a)
  /\ summary a = clean_html unescape (get (Summary raw) []).
Proof.
  unfold parse_advisory, assemble.
  destruct (parse_level_from_title (get (Title raw) [])) as [name lvl].
  destruct (lvl =? 0)%Z; [destruct (is_prohibited_country name)|];
    intros H; try discriminate H; injection H as <-;
    cbn [country_name overall_level regional_warnings summary fst snd];
    repeat split; reflexivity.
Qed.

Lemma parse_all_spec unescape fromisoformat clock raws : forall i,
  snd (parse_all unescape fromisoformat clock i raws)
  = Z.of_nat (List.length (filter discarded raws))
  /\ map country_name (fst (parse_all unescape fromisoformat clock i raws))
     = map (fun raw => fst (parse_level_from_title (get (Title raw) [])))
           (filter (fun raw => negb (discarded raw)) raws).
Proof.
  induction raws as [|raw raws IH]; intros i; [split; reflexivity|].
  cbn [parse_all filter]; destruct (IH (S i)) as [IH1 IH2].
  destruct (parse_all unescape fromisoformat clock (S i) raws) as [advs n].
  simpl in IH1, IH2.
  destruct (parse_advisory unescape fromisoformat (clock i) raw) as [a|] eqn:E.
  - assert (Hd : discarded raw = false).
    { destruct (discarded raw) eqn:Ed; [|reflexivity].
      apply (parse_advisory_none unescape fromisoformat (clock i)) in Ed.
      congruence. }
    rewrite Hd; cbn [negb fst snd map]; split; [exact IH1|].
    apply parse_advisory_name in E as (-> & _); rewrite IH2; reflexivity.
  - apply parse_advisory_none in E; rewrite E; cbn [negb fst snd].
    split; [|exact IH2].
    rewrite IH1, length_cons, Nat2Z.inj_succ; lia.
Qed.

Lemma filter_length_split {A} (f : A -> bool) l :
  List.length (filter f l) + List.length (filter (fun x => negb (f x)) l)
  = List.length l.
Proof.
  induction l as [|x l IH]; simpl; [reflexivity|].
  destruct (f x); simpl; lia.
Qed.

Lemma parse_all_total unescape fromisoformat clock i raws :
  (Z.of_nat (List.length (fst (parse_all unescape fromisoformat clock i raws)))
   + snd (parse_all unescape fromisoformat clock i raws)
   = Z.of_nat (List.length raws))%Z.
Proof.
  destruct (parse_all_spec unescape fromisoformat clock raws i) as [H1 H2].
  apply (f_equal (@List.length _)) in H2; rewrite !length_map in H2.
  rewrite H1, H2, <- (filter_length_split discarded raws); lia.
Qed.

(** X9 (every record is parsed or counted as a failure).  In the parsing
    loop of [main] the number of advisories and the number of failures add
    up to the number of raw records; the failures are the records whose
    title carries no level and names no prohibited country, whatever their
    other fields and the clock; the advisories come in the order of the
    other records, under the names their titles parse to. *)
Theorem parse_all_accounts :
  forall (unescape : str -> str) (fromisoformat : str -> option datetime)
         (clock : nat -> datetime) (i : nat) (raw_data : list raw_record),
    (Z.of_nat (List.length
                 (fst (parse_all unescape fromisoformat clock i raw_data)))
     + snd (parse_all unescape fromisoformat clock i raw_data)
     = Z.of_nat (List.length raw_data))%Z
    /\ snd (parse_all unescape fromisoformat clock i raw_data)
       = Z.of_nat (List.length (filter discarded raw_data))
    /\ map country_name
           (fst (parse_all unescape fromisoformat clock i raw_data))
       = map (fun raw => fst (parse_level_from_title (get (Title raw) [])))
             (filter (fun raw => negb (discarded raw)) raw_data).
Proof.
  intros unescape fromisoformat clock i raws.
  split; [apply parse_all_total|]. apply parse_all_spec.
Qed.

(** ** The assertions on the pipeline's own data *)

Lemma pipeline_ok unescape fromisoformat clock raws res :
  pipeline unescape fromisoformat clock raws = Ok res ->
  exists deduped dups,
    deduplicate_advisories
      (fst (parse_all unescape fromisoformat clock 0 raws))
    = Ok (deduped, dups)
    /\ prohibited_list res = fst (filter_high_risk deduped)
    /\ high_risk_list res = snd (filter_high_risk deduped)
    /\ errors res
       = assertion_errors
           (mk_report (Z.of_nat (List.length raws))
                      (snd (parse_all unescape fromisoformat clock 0 raws)))
           (prohibited_list res) (high_risk_list res)
    /\ assertions_passed res
       = run_assertions
           (mk_report (Z.of_nat (List.length raws))
                      (snd (parse_all unescape fromisoformat clock 0 raws)))
           (prohibited_list res) (high_risk_list res)
    /\ data_hash res
       = compute_data_hash (prohibited_list res ++ high_risk_list res).
Proof.
  unfold pipeline.
  destruct (parse_all unescape fromisoformat clock 0 raws) as [advs n];
    cbn [fst snd].
  destruct (deduplicate_advisories advs) as [[deduped dups]|e]; cbn [bind fst];
    [|discriminate].
  destruct (filter_high_risk deduped) as [p h] eqn:E.
  intros H; injection H as <-.
  cbn [prohibited_list high_risk_list errors assertions_passed data_hash
       fst snd].
  exists deduped, dups; rewrite E; repeat split; reflexivity.
Qed.

(** On a list the deduplicator returned, the classifier's outputs raise
    neither the leak nor the duplicate-code assertion. *)
Lemma deduplicated_outputs_clean l deduped dups :
  deduplicate_advisories l = Ok (deduped, dups) ->
  check_leak (snd (filter_high_risk deduped)) = []
  /\ check_duplicates (fst (filter_high_risk deduped))
                      (snd (filter_high_risk deduped)) = [].
Proof.
  intros Hd; split.
  - apply check_leak_nil, Forall_forall; intros a Ha.
    apply in_high_risk_list in Ha; tauto.
  - apply check_duplicates_nil, nodup_codes.
    eapply Permutation_NoDup;
      [symmetry; apply Permutation_map, filter_high_risk_perm|].
    apply NoDup_map_filter.
    eapply deduplicate_keys_nodup; exact Hd.
Qed.

Lemma deduplicate_subset l deduped dups :
  deduplicate_advisories l = Ok (deduped, dups) ->
  forall x, In x deduped -> In x l.
Proof.
  intros Hd x Hx.
  apply deduplicate_inv in Hd as (seen & Hrun & -> & Hok).
  apply in_map_iff in Hx as ([k x'] & <- & Hx).
  apply (dedup_loop_members (fun a => In a l) l [] [] seen dups) with (k := k);
    auto.
  intros k' x0 [].
Qed.

(** X10 (the assertions on the pipeline's own data).  When the pipeline of
    [main] returns on fewer than 2^53 raw records, the only assertion errors
    it can report are the sanity error and the parse-failure error with the
    counts of the parsing loop, and the assertions pass exactly when the
    high-risk list is not empty and the parse failures are fewer than one
    in twenty of the raw records; on no raw record at all they fail. *)
Theorem pipeline_assertions :
  forall (unescape : str -> str) (fromisoformat : str -> option datetime)
         (clock : nat -> datetime) (raw_data : list raw_record)
         (res : pipeline_result),
    (Z.of_nat (List.length raw_data) < 2 ^ 53)%Z ->
    pipeline unescape fromisoformat clock raw_data = Ok res ->
    (forall e, In e (errors res) ->
        e = SANITY
        \/ e = PARSE_FAILURES
                 (snd (parse_all unescape fromisoformat clock 0 raw_data))
                 (Z.of_nat (List.length raw_data)))
    /\ (assertions_passed res = true
        <-> high_risk_list res <> []
            /\ (20 * snd (parse_all unescape fromisoformat clock 0 raw_data)
                < Z.of_nat (List.length raw_data))%Z)
    /\ (raw_data = [] -> assertions_passed res = false).
Proof.
  intros unescape fromisoformat clock raws res Hsmall Hrun.
  destruct (pipeline_ok _ _ _ _ _ Hrun)
    as (deduped & dups & Hd & Hp & Hh & He & Ha & _).
  destruct (deduplicated_outputs_clean _ _ _ Hd) as [Hleak Hdup].
  rewrite <- Hp, <- Hh in Hdup; rewrite <- Hh in Hleak.
  set (v := mk_report (Z.of_nat (List.length raws))
                      (snd (parse_all unescape fromisoformat clock 0 raws))) in *.
  pose proof (parse_all_total unescape fromisoformat clock 0 raws) as Htot.
  pose proof (parse_all_counts unescape fromisoformat clock raws 0) as Hcnt.
  assert (Hpass : assertions_passed res = true
        <-> high_risk_list res <> []
            /\ (20 * snd (parse_all unescape fromisoformat clock 0 raws)
                < Z.of_nat (List.length raws))%Z).
  { rewrite Ha, run_assertions_true, Hleak, Hdup, check_sanity_nil,
      (check_parse_failures_passes v Hcnt Hsmall).
    cbn [raw_count parse_failures v].
    split.
    - intros (_ & Hr & Hne & _); split; [exact Hne|].
      destruct Hr as [H0 | Hlt]; [exfalso | exact Hlt].
      apply Hne.
      destruct (high_risk_list res) as [|a h] eqn:Eh; [reflexivity | exfalso].
      assert (Hin : In a (fst (parse_all unescape fromisoformat clock 0 raws))).
      { eapply deduplicate_subset; [exact Hd|].
        assert (Hin : In a (snd (filter_high_risk deduped)))
          by (rewrite <- Hh; left; reflexivity).
        apply in_high_risk_list in Hin; tauto. }
      destruct (fst (parse_all unescape fromisoformat clock 0 raws));
        [destruct Hin|].
      rewrite length_cons, Nat2Z.inj_succ in Htot.
      lia.
    - intros [Hne Hlt]; repeat split; auto. }
  split; [|split; [exact Hpass|]].
  - intros e Hin; rewrite He in Hin.
    apply assertion_errors_kinds in Hin.
    destruct e as [n | f r | | c].
    + rewrite Hleak in Hin; destruct Hin.
    + right.
      destruct (check_parse_failures_cases v) as [E | E]; rewrite E in Hin;
        [destruct Hin as [<- | []]; reflexivity | destruct Hin].
    + left; reflexivity.
    + rewrite Hdup in Hin; destruct Hin.
  - intros ->; apply not_true_is_false; intros E.
    apply Hpass in E as [_ Hlt]; simpl in Hlt; lia.
Qed.

Lemma pipeline_assertions_witness :
  exists res,
    pipeline unescape_plain fromisoformat_fixed midnight_clock
             [raw_mexico_3; raw_cuba_4] = Ok res
    /\ assertions_passed res = true.
Proof.
  eexists; split; [reflexivity|].
  eapply (pipeline_assertions unescape_plain fromisoformat_fixed midnight_clock
            [raw_mexico_3; raw_cuba_4]).
  - simpl; lia.
  - reflexivity.
  - split; [vm_compute; discriminate | vm_compute; reflexivity].
Defined.

(** ** What the title parser returns *)

Lemma isdigit_value d : isdigit d = true -> (0 <= digit_value d <= 9)%Z.
Proof.
  unfold isdigit, in_range, digit_value.
  rewrite andb_true_iff, !N.leb_le; lia.
Qed.

Lemma lstrip_idem s : lstrip (lstrip s) = lstrip s.
Proof.
  induction s as [|c s IH]; simpl; [reflexivity|].
  destruct (isspace c) eqn:E; [exact IH | simpl; rewrite E; reflexivity].
Qed.

Lemma strip_idem s : strip (strip s) = strip s.
Proof.
  unfold strip at 2; rewrite strip_rstrip.
  unfold strip; rewrite lstrip_idem; reflexivity.
Qed.

Lemma strip_length s : List.length (strip s) <= List.length s.
Proof.
  destruct (strip_substring s) as (pre & post & H).
  apply (f_equal (@List.length _)) in H; rewrite !length_app in H; lia.
Qed.

(** The two ways the title parser returns. *)
Lemma parse_title_cases title :
  parse_level_from_title title = (title, 0%Z)
  \/ exists pre t d rest,
       title = pre ++ t /\ pre <> []
       /\ Forall (fun c => c <> LF) pre
       /\ level_token t = Some (d, rest)
       /\ parse_level_from_title title = (strip pre, digit_value d).
Proof.
  unfold parse_level_from_title; rewrite re_match_title.
  destruct (rep false (cls_matches true dot) _ title 1 0 []) as [mt|] eqn:E;
    [right | left; reflexivity].
  apply rep_sound in E as (pre & t & -> & Hlen & Hline & Hk).
  cbv beta in Hk.
  pose proof (run_title_tail (0 + List.length pre) t
                [(1, firstn (0 + List.length pre - 0) (pre ++ t))]) as Htail.
  destruct (level_token t) as [[d rest]|] eqn:Etok.
  2: { pose proof (eq_trans (eq_sym Hk) Htail) as X; discriminate X. }
  destruct Htail as [e Htail].
  pose proof (eq_trans (eq_sym Hk) Htail) as X; injection X as ->.
  exists pre, t, d, rest; split; [reflexivity|].
  split; [intros ->; simpl in Hlen; lia|].
  split; [apply one_line_dot; exact Hline|].
  split; [exact Etok|].
  unfold group; cbn [m_caps lookup_group Nat.eqb].
  rewrite Nat.sub_0_r, firstn_app, Nat.sub_diag, firstn_all.
  cbn [firstn]; rewrite app_nil_r; reflexivity.
Qed.

Lemma level_token_digit t d rest :
  level_token t = Some (d, rest) ->
  isdigit d = true /\ List.length rest < List.length t.
Proof.
  unfold level_token; intros H.
  destruct (lstrip_suffix t) as [ws1 Ht].
  destruct (lstrip t) as [|c t1]; [discriminate|].
  destruct (eqb_char c "-"); [|discriminate].
  destruct (lstrip_suffix t1) as [ws2 Ht1].
  destruct (str_eqb (lower (firstn 5 (lstrip t1))) (lit "level"));
    [|discriminate].
  destruct (lstrip_suffix (skipn 5 (lstrip t1))) as [ws3 Ht2].
  destruct (lstrip (skipn 5 (lstrip t1))) as [|d' rest']; [discriminate|].
  destruct (isdigit d') eqn:Ed; [|discriminate].
  injection H as <- <-; split; [exact Ed|].
  apply (f_equal (@List.length _)) in Ht, Ht1, Ht2.
  rewrite length_skipn in Ht2.
  rewrite !length_app in *; simpl in *; lia.
Qed.

(** X11 (what the title parser returns).  For every title the level
    returned is a single digit, from 0 to 9, and the name returned is a
    part of the title; either the title is returned as it is with level 0,
    or the name is on one line, has no blank at either end and is shorter
    than the title. *)
Theorem parse_level_from_title_range :
  forall title : str,
    (0 <= snd (parse_level_from_title title) <= 9)%Z
    /\ (exists pre post,
          title = pre ++ fst (parse_level_from_title title) ++ post)
    /\ (parse_level_from_title title = (title, 0%Z)
        \/ (strip (fst (parse_level_from_title title))
            = fst (parse_level_from_title title)
            /\ ~ In LF (fst (parse_level_from_title title))
            /\ List.length (fst (parse_level_from_title title))
               < List.length title)).
Proof.
  intros title.
  destruct (parse_title_cases title)
    as [E | (pre & t & d & rest & -> & Hne & Hline & Htok & E)]; rewrite E;
    cbn [fst snd].
  - split; [lia|]. split; [|left; reflexivity].
    exists [], []; rewrite app_nil_r; reflexivity.
  - destruct (level_token_digit _ _ _ Htok) as [Hd Hlen].
    split; [apply isdigit_value; exact Hd|].
    destruct (strip_substring pre) as (a & b & Hpre).
    split.
    + exists a, (b ++ t); rewrite Hpre at 1; rewrite <- !app_assoc; reflexivity.
    + right; split; [apply strip_idem|]. split.
      * intros Hin; rewrite Forall_forall in Hline; apply (Hline LF);
          [|reflexivity].
        rewrite Hpre; apply in_or_app; right; apply in_or_app; left; exact Hin.
      * pose proof (strip_length pre); rewrite length_app; lia.
Qed.

(** ** What the record parser returns *)

Lemma extract_levels unescape text overall w :
  In w (extract_regional_warnings unescape text overall) ->
  (overall < level w)%Z /\ (level w = 3 \/ level w = 4)%Z.
Proof.
  intros Hw; apply extract_in in Hw as (lvl & mt & Hc & Hlvl).
  apply candidate_some in Hc as (Hl & _).
  destruct Hlvl as [(-> & Ho & _) | (-> & Ho & _)]; rewrite Hl; lia.
Qed.

(** X12 (the advisories the record parser returns).  An advisory the
    record parser returns has an overall level from 0 to 9; each of its
    regional warnings has level 3 or 4 and is above the overall level, so
    the advisory has a regional elevation exactly when it has a regional
    warning, and then its highest regional level is 3 or 4; the test of the
    classifier on it reads: the overall level is 3 or more, or there is a
    regional warning. *)
Theorem parse_advisory_invariant :
  forall (unescape : str -> str) (fromisoformat : str -> option datetime)
         (now : datetime) (raw : raw_record) (a : TravelAdvisory),
    parse_advisory unescape fromisoformat now raw = Some a ->
    (0 <= overall_level a <= 9)%Z
    /\ (forall w, In w (regional_warnings a) ->
          (overall_level a < level w)%Z /\ (level w = 3 \/ level w = 4)%Z)
    /\ (has_regional_elevation a = true <-> regional_warnings a <> [])
    /\ (regional_warnings a <> [] -> (3 <= max_regional_level a <= 4)%Z)
    /\ (is_high_risk a = true
        <-> (3 <= overall_level a)%Z \/ regional_warnings a <> []).
Proof.
  intros unescape fromisoformat now raw a Hp.
  apply parse_advisory_name in Hp as (_ & Hlvl & Hws & _).
  assert (Hrange : (0 <= overall_level a <= 9)%Z).
  { rewrite Hlvl.
    destruct (parse_title_cases (get (Title raw) []))
      as [E | (pre & t & d & rest & _ & _ & _ & Htok & E)]; rewrite E;
      cbn [snd]; [lia|].
    apply isdigit_value, (level_token_digit _ _ _ Htok). }
  assert (Hall : forall w, In w (regional_warnings a) ->
            (overall_level a < level w)%Z /\ (level w = 3 \/ level w = 4)%Z).
  { intros w Hw; rewrite Hws in Hw; eapply extract_levels; exact Hw. }
  assert (Hmax : regional_warnings a <> [] -> (3 <= max_regional_level a <= 4)%Z).
  { intros Hne.
    destruct (max_regional_level_attained a Hne) as (w & Hw & <-).
    destruct (Hall w Hw) as [_ [-> | ->]]; lia. }
  assert (Helev : has_regional_elevation a = true <-> regional_warnings a <> []).
  { rewrite has_regional_elevation_iff; split.
    - intros Hlt Hnil; unfold max_regional_level in Hlt.
      rewrite Hnil in Hlt; lia.
    - intros Hne.
      destruct (max_regional_level_attained a Hne) as (w & Hw & <-).
      apply Hall; exact Hw. }
  split; [exact Hrange|]. split; [exact Hall|]. split; [exact Helev|].
  split; [exact Hmax|].
  rewrite is_high_risk_max, orb_true_iff, !Z.leb_le; split.
  - intros [H | H]; [left; exact H|].
    destruct (regional_warnings a) eqn:E; [|right; discriminate].
    left; unfold max_regional_level in H; rewrite E in H; exact H.
  - intros [H | H]; [left; exact H | right; apply Hmax; exact H].
Qed.

Lemma parse_advisory_invariant_witness :
  exists a,
    parse_advisory unescape_plain fromisoformat_fixed new_year_2024 raw_mexico_3
    = Some a
    /\ (0 <= overall_level a <= 9)%Z.
Proof.
  eexists; split; [reflexivity|].
  eapply (parse_advisory_invariant unescape_plain fromisoformat_fixed
            new_year_2024 raw_mexico_3).
  reflexivity.
Defined.

(** ** The prohibited-country predicate *)

Lemma bool_eq_iff (a b : bool) : (a = true <-> b = true) -> a = b.
Proof. destruct a, b; intuition congruence. Qed.

Lemma contains_rev p s : contains (rev p) (rev s) = contains p s.
Proof.
  apply bool_eq_iff; rewrite !contains_iff; split.
  - intros (a & b & H); exists (rev b), (rev a).
    apply (f_equal (@rev _)) in H.
    rewrite rev_involutive, !rev_app_distr, rev_involutive in H.
    rewrite H, app_assoc; reflexivity.
  - intros (a & b & ->); exists (rev b), (rev a).
    rewrite !rev_app_distr, app_assoc; reflexivity.
Qed.

Lemma contains_lstrip p s :
  match p with x :: _ => isspace x = false | [] => False end ->
  contains p (lstrip s) = contains p s.
Proof.
  destruct p as [|x p]; [intros []|]; intros Hx.
  induction s as [|c s IH]; [reflexivity|].
  cbn [lstrip]; destruct (isspace c) eqn:Ec; [|reflexivity].
  rewrite IH; cbn [contains startswith].
  destruct (eqb_char x c) eqn:E; [|reflexivity].
  apply eqb_char_eq in E; congruence.
Qed.

Lemma contains_strip p s :
  no_blank_ends p = true -> contains p (strip s) = contains p s.
Proof.
  unfold no_blank_ends; intros H.
  destruct p as [|x p'] eqn:Ep; [discriminate|]; rewrite <- Ep in *.
  destruct (rev p) as [|y q] eqn:Er; [discriminate|].
  apply andb_true_iff in H as [Hx Hy]; apply negb_true_iff in Hx, Hy.
  unfold strip, rstrip.
  rewrite <- contains_rev, rev_involutive, contains_lstrip
    by (rewrite Er; exact Hy).
  rewrite contains_rev; apply contains_lstrip; rewrite Ep; exact Hx.
Qed.

Lemma prohibited_names_no_blank_ends :
  Forall (fun p => no_blank_ends p = true) PROHIBITED_COUNTRY_NAMES.
Proof. repeat constructor. Qed.

Lemma existsb_ext_in {A} (f g : A -> bool) l :
  Forall (fun x => f x = g x) l -> existsb f l = existsb g l.
Proof.
  induction 1 as [|x l Hx _ IH]; simpl; [reflexivity|].
  rewrite Hx, IH; reflexivity.
Qed.

(** The exact-match test and the [strip] add nothing to the substring
    test. *)
Lemma is_prohibited_any_in name :
  is_prohibited_country name
  = any_in PROHIBITED_COUNTRY_NAMES (lower name).
Proof.
  unfold is_prohibited_country, any_in.
  set (n := strip (lower name)).
  transitivity (existsb (fun p => contains p n) PROHIBITED_COUNTRY_NAMES).
  - destruct (existsb (str_eqb n) PROHIBITED_COUNTRY_NAMES) eqn:E;
      [|reflexivity].
    symmetry; apply existsb_exists in E as (p & Hp & Ep).
    apply str_eqb_eq in Ep; subst p.
    apply existsb_exists; exists n; split; [exact Hp|].
    apply contains_iff; exists [], []; rewrite app_nil_r; reflexivity.
  - apply existsb_ext_in.
    eapply Forall_impl; [|exact prohibited_names_no_blank_ends].
    intros p Hp; apply contains_strip; exact Hp.
Qed.

Lemma is_prohibited_iff name :
  is_prohibited_country name = true
  <-> exists p pre post,
        In p PROHIBITED_COUNTRY_NAMES /\ lower name = pre ++ p ++ post.
Proof.
  rewrite is_prohibited_any_in; unfold any_in; rewrite existsb_exists.
  split.
  - intros (p & Hp & Hc); apply contains_iff in Hc as (pre & post & E).
    exists p, pre, post; auto.
  - intros (p & pre & post & Hp & E); exists p; split; [exact Hp|].
    apply contains_iff; exists pre, post; exact E.
Qed.

(** X13 (the prohibited-country predicate is a substring test).  A name is
    prohibited exactly when its lower-case form contains one of the twelve
    listed names; the exact-match test and the removal of surrounding
    blanks change nothing.  So every name that contains a prohibited name
    is prohibited. *)
Theorem is_prohibited_country_substring :
  forall name : str,
    is_prohibited_country name
    = any_in PROHIBITED_COUNTRY_NAMES (lower name)
    /\ (is_prohibited_country name = true
        <-> exists p pre post,
              In p PROHIBITED_COUNTRY_NAMES /\ lower name = pre ++ p ++ post)
    /\ (forall pre post,
           is_prohibited_country name = true ->
           is_prohibited_country (pre ++ name ++ post) = true).
Proof.
  intros name.
  split; [apply is_prohibited_any_in|].
  split; [apply is_prohibited_iff|].
  intros pre post H.
  apply is_prohibited_iff in H as (p & a & b & Hp & E).
  apply is_prohibited_iff; exists p, (lower pre ++ a), (b ++ lower post).
  split; [exact Hp|].
  rewrite !lower_app, E, <- !app_assoc; reflexivity.
Qed.

Lemma ord_char u z : ord u = z -> u = ascii_of_N (Z.to_N z).
Proof.
  unfold ord, code; intros <-.
  rewrite N2Z.id; symmetry; apply ascii_N_embedding.
Qed.

(** On the ASCII range [str.upper] maps a character to one character. *)
Lemma upper_char_ascii c :
  is_ascii c = true -> upper_char c = [ord (capital_char c)].
Proof. each_char c; intros H; try discriminate H; reflexivity. Qed.

Lemma upper_ascii code :
  Forall (fun c => is_ascii c = true) code ->
  upper code = to_text (map capital_char code).
Proof.
  induction 1 as [|c code Hc _ IH]; [reflexivity|].
  cbn [upper flat_map]; fold (upper code).
  rewrite (upper_char_ascii c Hc), IH; reflexivity.
Qed.

(** On the ASCII range [str.upper] maps a character to one character, with
    the same lower-case form. *)
Lemma lower_upper_char c u :
  is_ascii c = true -> upper_char c = [ord u] ->
  lower_char u = lower_char c.
Proof.
  each_char c; intros Hc; try discriminate Hc; intros H;
    injection H as H; symmetry in H; apply ord_char in H; subst u;
    reflexivity.
Qed.

Lemma lower_upper name : forall name_upper,
  Forall (fun c => is_ascii c = true) name ->
  to_text name_upper = upper name ->
  lower name_upper = lower name.
Proof.
  induction name as [|c name IH]; intros name_upper Hascii H.
  - destruct name_upper; [reflexivity | discriminate H].
  - inversion Hascii as [|? ? Hc Hrest]; subst.
    assert (Hone : exists z, upper_char c = [z]).
    { clear - Hc; each_char c; try discriminate Hc; eexists; reflexivity. }
    destruct Hone as [z Hz].
    cbn [upper flat_map] in H; rewrite Hz in H.
    destruct name_upper as [|u name_upper]; [discriminate H|].
    cbn [to_text map app] in H; injection H as Hu Htail.
    cbn [lower map]; f_equal.
    + apply lower_upper_char; [exact Hc | rewrite Hz, Hu; reflexivity].
    + apply IH; assumption.
Qed.

Lemma isspace_lower_char c : isspace (lower_char c) = isspace c.
Proof. each_char c; reflexivity. Qed.

Lemma lower_blanks ws :
  Forall (fun c => isspace c = true) ws ->
  Forall (fun c => isspace c = true) (lower ws).
Proof.
  intros H; apply Forall_map; eapply Forall_impl; [|exact H].
  intros c Hc; rewrite isspace_lower_char; exact Hc.
Qed.

Lemma strip_padded ws1 s ws2 :
  Forall (fun c => isspace c = true) ws1 ->
  Forall (fun c => isspace c = true) ws2 ->
  strip (ws1 ++ s ++ ws2) = strip s.
Proof.
  intros H1 H2; unfold strip; rewrite (lstrip_blanks ws1 _ H1).
  destruct (lstrip s) as [|c t] eqn:E.
  - destruct (lstrip_split s) as (ws & Hs & Hws); rewrite E, app_nil_r in Hs.
    subst s; rewrite <- (app_nil_r (ws ++ ws2)), lstrip_blanks;
      [reflexivity | apply Forall_app; auto].
  - rewrite lstrip_app by (rewrite E; discriminate).
    rewrite E; apply rstrip_app_blanks; exact H2.
Qed.

(** X14 (the predicate ignores letter case and surrounding blanks).  On a
    name of ASCII characters the prohibited-country predicate gives the
    same answer on the name, on its upper-case and lower-case forms, on the
    name without its surrounding blanks and on the name with blanks added
    at either end. *)
Theorem is_prohibited_country_insensitive :
  forall name : str,
    Forall (fun c => is_ascii c = true) name ->
    (exists name_upper,
        to_text name_upper = upper name
        /\ is_prohibited_country name_upper = is_prohibited_country name)
    /\ is_prohibited_country (lower name) = is_prohibited_country name
    /\ is_prohibited_country (strip name) = is_prohibited_country name
    /\ (forall ws1 ws2,
           Forall (fun c => isspace c = true) ws1 ->
           Forall (fun c => isspace c = true) ws2 ->
           is_prohibited_country (ws1 ++ name ++ ws2)
           = is_prohibited_country name).
Proof.
  assert (Hpad : forall s ws1 ws2,
             Forall (fun c => isspace c = true) ws1 ->
             Forall (fun c => isspace c = true) ws2 ->
             is_prohibited_country (ws1 ++ s ++ ws2)
             = is_prohibited_country s).
  { intros s ws1 ws2 H1 H2; unfold is_prohibited_country.
    rewrite !lower_app, strip_padded by (apply lower_blanks; assumption).
    reflexivity. }
  intros name Hascii.
  split.
  { exists (map capital_char name).
    assert (Hu : to_text (map capital_char name) = upper name)
      by (symmetry; apply upper_ascii; exact Hascii).
    split; [exact Hu|].
    rewrite !is_prohibited_any_in, (lower_upper name _ Hascii Hu).
    reflexivity. }
  split; [rewrite !is_prohibited_any_in, lower_idem; reflexivity|].
  split; [|exact (Hpad name)].
  destruct (lstrip_split name) as (ws1 & Hs & H1).
  destruct (rstrip_split (lstrip name)) as (ws2 & Hs' & H2 & _).
  fold (strip name) in Hs'.
  rewrite Hs at 2; rewrite Hs' at 1.
  symmetry; apply Hpad; assumption.
Qed.

Lemma is_prohibited_country_insensitive_witness :
  exists name_upper,
    to_text name_upper = upper (lit "North Korea")
    /\ is_prohibited_country name_upper
       = is_prohibited_country (lit "North Korea").
Proof.
  destruct (is_prohibited_country_insensitive (lit "North Korea")) as (H & _);
    [repeat constructor | exact H].
Defined.

(** ** The warnings of the extractor *)

Lemma FOP_snoc {A} (R : A -> A -> Prop) l x :
  ForallOrdPairs R l -> Forall (fun a => R a x) l ->
  ForallOrdPairs R (l ++ [x]).
Proof.
  induction 1 as [|a l Ha _ IH]; intros Hx; simpl.
  - constructor; constructor.
  - inversion Hx as [|? ? Hax Hlx]; subst.
    constructor; [|apply IH; exact Hlx].
    apply Forall_app; split; [exact Ha | constructor; [exact Hax | constructor]].
Qed.

Lemma already_covered_false region warnings :
  already_covered region warnings = false
  <-> Forall (fun a => contains (lower region) (lower (region_name a)) = false)
             warnings.
Proof.
  unfold already_covered; induction warnings as [|a ws IH]; simpl.
  - split; [constructor | reflexivity].
  - rewrite orb_false_iff, IH; split.
    + intros [H1 H2]; constructor; assumption.
    + intros H; inversion H; auto.
Qed.

Lemma scan_matches_uncovered lvl matches : forall warnings,
  ForallOrdPairs not_covering warnings ->
  ForallOrdPairs not_covering (scan_matches lvl matches warnings).
Proof.
  induction matches as [|mt rest IH]; intros ws H; simpl; [exact H|].
  destruct (candidate lvl mt) as [w|]; [|apply IH; exact H].
  destruct (already_covered (region_name w) ws) eqn:E; apply IH; [exact H|].
  apply FOP_snoc; [exact H|].
  apply already_covered_false in E; exact E.
Qed.

Lemma scan_matches_new lvl matches : forall warnings,
  exists new,
    scan_matches lvl matches warnings = warnings ++ new
    /\ Forall (fun w => level w = lvl) new.
Proof.
  induction matches as [|mt rest IH]; intros ws; simpl.
  - exists []; rewrite app_nil_r; split; [reflexivity | constructor].
  - destruct (candidate lvl mt) as [w|] eqn:Ec; [|apply IH].
    destruct (already_covered (region_name w) ws); [apply IH|].
    destruct (IH (ws ++ [w])) as (new & E & Hnew).
    exists (w :: new); split; [rewrite E, <- app_assoc; reflexivity|].
    constructor; [|exact Hnew].
    apply candidate_some in Ec; tauto.
Qed.

Lemma contains_refl x : contains x x = true.
Proof. apply contains_iff; exists [], []; rewrite app_nil_r; reflexivity. Qed.

Lemma FOP_nodup {A B} (R : A -> A -> Prop) (f : A -> B) l :
  (forall a b, R a b -> f a <> f b) ->
  ForallOrdPairs R l -> NoDup (map f l).
Proof.
  intros HR; induction 1 as [|a l Ha _ IH]; simpl; constructor; [|exact IH].
  intros Hin; apply in_map_iff in Hin as (b & Eb & Hb).
  rewrite Forall_forall in Ha.
  exact (HR a b (Ha b Hb) (eq_sym Eb)).
Qed.

Lemma extract_uncovered unescape text overall :
  ForallOrdPairs not_covering
    (extract_regional_warnings unescape text overall).
Proof.
  unfold extract_regional_warnings.
  destruct (overall <? 3)%Z, (overall <? 4)%Z;
    repeat apply scan_matches_uncovered; constructor.
Qed.

(** X15 (no region twice).  In the list the extractor returns, the name of
    a warning never occurs, in whatever letter case, in the name of an
    earlier warning; so no two warnings have the same name, even up to
    letter case. *)
Theorem extract_regional_warnings_distinct :
  forall (unescape : str -> str) (text : str) (overall : Z),
    ForallOrdPairs not_covering
      (extract_regional_warnings unescape text overall)
    /\ NoDup (map (fun w => lower (region_name w))
                  (extract_regional_warnings unescape text overall)).
Proof.
  intros unescape text overall.
  split; [apply extract_uncovered|].
  apply (FOP_nodup not_covering); [|apply extract_uncovered].
  unfold not_covering; intros a b H E.
  rewrite E, contains_refl in H; discriminate.
Qed.

(** X16 (level 4 first).  The list the extractor returns is its level-4
    warnings, which are those of the first scan, followed by its level-3
    warnings; there is no level-3 warning when the overall level is 3 or
    more, and no warning at all when it is 4 or more. *)
Theorem extract_regional_warnings_order :
  forall (unescape : str -> str) (text : str) (overall : Z),
    exists l4 l3,
      extract_regional_warnings unescape text overall = l4 ++ l3
      /\ Forall (fun w => level w = 4%Z) l4
      /\ Forall (fun w => level w = 3%Z) l3
      /\ l4 = (if (overall <? 4)%Z
               then scan_matches 4 (finditer false do_not_travel_re
                                      (clean_html unescape text)) []
               else [])
      /\ ((3 <= overall)%Z -> l3 = [])
      /\ ((4 <= overall)%Z -> l4 = []).
Proof.
  intros unescape text overall; unfold extract_regional_warnings.
  set (ms4 := finditer false do_not_travel_re (clean_html unescape text)).
  set (ms3 := finditer false reconsider_re (clean_html unescape text)).
  destruct (scan_matches_new 4 ms4 []) as (n4 & E4 & H4); simpl in E4.
  destruct (Z.ltb_spec overall 4) as [L4 | L4].
  - destruct (Z.ltb_spec overall 3) as [L3 | L3].
    + destruct (scan_matches_new 3 ms3 (scan_matches 4 ms4 []))
        as (n3 & E3 & H3).
      exists (scan_matches 4 ms4 []), n3; rewrite E3, E4.
      repeat split; auto; lia.
    + exists (scan_matches 4 ms4 []), []; rewrite E4, app_nil_r.
      repeat split; auto; lia.
  - destruct (Z.ltb_spec overall 3) as [L3 | L3]; [lia|].
    exists [], []; repeat split; auto.
Qed.

(** ** The texts of a warning *)

(** The groups of a match are parts of the matched text. *)
Lemma run_captures ic r : forall pos s cs k mt,
  run ic r pos s cs k = Some mt ->
  exists pre s' cs',
    s = pre ++ s'
    /\ k (pos + List.length pre) s' cs' = Some mt
    /\ (forall i t, In (i, t) cs' -> In (i, t) cs \/ part_of t pre).
Proof.
  induction r as [ | x | p | r1 IH1 r2 IH2 | r1 IH1 r2 IH2 | g n p | i r IH | ];
    intros pos s cs k mt H; simpl in H.
  - exists [], s, cs; simpl; rewrite Nat.add_0_r; auto.
  - destruct s as [|c s]; [discriminate|].
    destruct (chr_matches ic x c); [|discriminate].
    exists [c], s, cs; simpl; rewrite Nat.add_1_r; auto.
  - destruct s as [|c s]; [discriminate|].
    destruct (cls_matches ic p c); [|discriminate].
    exists [c], s, cs; simpl; rewrite Nat.add_1_r; auto.
  - apply IH1 in H as (pre1 & s1 & cs1 & -> & H & Hc1).
    apply IH2 in H as (pre2 & s2 & cs2 & -> & H & Hc2).
    exists (pre1 ++ pre2), s2, cs2; split; [apply app_assoc|].
    rewrite length_app, Nat.add_assoc; split; [exact H|].
    intros j t Hin; destruct (Hc2 j t Hin) as [Hin1 | (a & b & ->)].
    + destruct (Hc1 j t Hin1) as [Hin0 | (a & b & ->)]; [left; exact Hin0|].
      right; exists a, (b ++ pre2); rewrite <- !app_assoc; reflexivity.
    + right; exists (pre1 ++ a), b; rewrite <- !app_assoc; reflexivity.
  - apply orelse_some in H as [H | H]; [apply IH1 in H | apply IH2 in H];
      exact H.
  - apply rep_sound in H as (pre & s' & -> & _ & _ & H).
    exists pre, s', cs; auto.
  - apply IH in H as (pre & s' & cs' & -> & H & Hc).
    exists pre, s'; eexists; split; [reflexivity|]. split; [exact H|].
    replace (pos + List.length pre - pos) with (List.length pre) by lia.
    rewrite firstn_app, Nat.sub_diag, firstn_all; cbn [firstn].
    rewrite app_nil_r.
    intros j t [E | Hin]; [|apply Hc; exact Hin].
    injection E as <- <-; right; exists [], []; rewrite app_nil_r; reflexivity.
  - destruct (Nat.eqb pos 0); [|discriminate].
    exists [], s, cs; simpl; rewrite Nat.add_0_r; auto.
Qed.

Lemma lookup_group_in i cs :
  lookup_group i cs = [] \/ In (i, lookup_group i cs) cs.
Proof.
  induction cs as [|[j t] cs IH]; simpl; [left; reflexivity|].
  destruct (Nat.eqb_spec i j) as [-> | Hne]; [right; left; reflexivity|].
  destruct IH as [E | Hin]; [left; exact E | right; right; exact Hin].
Qed.

Lemma part_of_nil s : part_of [] s.
Proof. exists [], s; reflexivity. Qed.

Lemma part_of_trans x y z : part_of x y -> part_of y z -> part_of x z.
Proof.
  intros (a & b & ->) (c & d & ->).
  exists (c ++ a), (b ++ d); rewrite <- !app_assoc; reflexivity.
Qed.

Lemma match_group_part ic r pos s mt i :
  match_at ic r pos s = Some mt -> part_of (group i mt) s.
Proof.
  unfold match_at; intros H.
  apply run_captures in H as (pre & s' & cs' & -> & H & Hc).
  injection H as <-; unfold group; cbn [m_caps].
  destruct (lookup_group_in i cs') as [E | Hin]; [rewrite E; apply part_of_nil|].
  destruct (Hc _ _ Hin) as [[] | Hp].
  eapply part_of_trans; [exact Hp|].
  exists [], s'; reflexivity.
Qed.

Lemma finditer_group_part ic r text mt i :
  In mt (finditer ic r text) -> part_of (group i mt) text.
Proof.
  intros H; apply finditer_sound in H as (pre & s' & -> & Hm).
  eapply part_of_trans; [eapply match_group_part; exact Hm|].
  exists pre, []; rewrite app_nil_r; reflexivity.
Qed.

(** The last pattern of a sequence sees the end of the match. *)
Lemma run_seq_last ic rs r : forall pos s cs k mt,
  run ic (seq (rs ++ [r])) pos s cs k = Some mt ->
  exists pos1 s1 cs1,
    run ic r pos1 s1 cs1 (fun p s' c => k p s' c) = Some mt.
Proof.
  induction rs as [|r1 rs IH]; intros pos s cs k mt H.
  - exists pos, s, cs; exact H.
  - cbn [app seq run] in H.
    apply run_sound in H as (pre & s' & cs' & _ & _ & H).
    apply IH in H; exact H.
Qed.

Lemma none_of_stop_char c :
  cls_matches false (none_of ".") c = true -> c <> "."%char.
Proof.
  unfold cls_matches, none_of, one_of; cbn; intros H ->; discriminate H.
Qed.

(** The second group of either scan holds no full stop. *)
Lemma run_reason_group rs pos s mt :
  match_at false (seq (rs ++ [Grp 2 (Rep true 1 (none_of "."))])) pos s
  = Some mt ->
  Forall (fun c => c <> "."%char) (group 2 mt).
Proof.
  unfold match_at; intros H.
  apply run_seq_last in H as (pos1 & s1 & cs1 & H).
  cbn [run] in H.
  apply rep_sound in H as (pre & s' & -> & _ & Hall & H).
  injection H as <-; unfold group; cbn [m_caps lookup_group Nat.eqb].
  replace (pos1 + List.length pre - pos1) with (List.length pre) by lia.
  rewrite firstn_app, Nat.sub_diag, firstn_all; cbn [firstn].
  rewrite app_nil_r.
  eapply Forall_impl; [|exact Hall].
  intros c Hc; apply none_of_stop_char; exact Hc.
Qed.

Lemma candidate_texts lvl mt w :
  candidate lvl mt = Some w ->
  region_name w = clean_region (strip (group 1 mt))
  /\ reasons w = strip (group 2 mt).
Proof.
  unfold candidate.
  destruct (any_in skip_phrases _); [discriminate|].
  destruct (any_in vague_terms _); [discriminate|].
  destruct (_ || _); [discriminate|].
  intros H; injection H as <-; split; reflexivity.
Qed.

Lemma part_of_strip s : part_of (strip s) s.
Proof. apply strip_substring. Qed.

Lemma part_of_forall (P : ascii -> Prop) x s :
  part_of x s -> Forall P s -> Forall P x.
Proof.
  intros (a & b & ->) H.
  apply Forall_app in H as [_ H]; apply Forall_app in H as [H _]; exact H.
Qed.

(** X17 (the texts of a warning).  The region name and the reasons of
    every warning the extractor emits occur as they are in the normalized
    text and have no blank at either end; the reasons contain no full
    stop. *)
Theorem extract_regional_warnings_texts :
  forall (unescape : str -> str) (text : str) (overall : Z)
         (w : RegionalWarning),
    In w (extract_regional_warnings unescape text overall) ->
    part_of (region_name w) (clean_html unescape text)
    /\ part_of (reasons w) (clean_html unescape text)
    /\ strip (region_name w) = region_name w
    /\ strip (reasons w) = reasons w
    /\ ~ In "."%char (reasons w).
Proof.
  intros unescape text overall w Hw.
  apply extract_in in Hw as (lvl & mt & Hc & Hscan).
  apply candidate_texts in Hc as [-> ->].
  assert (Hparts : forall i, part_of (group i mt) (clean_html unescape text)).
  { intros i; destruct Hscan as [(_ & _ & Hin) | (_ & _ & Hin)];
      eapply finditer_group_part; exact Hin. }
  assert (Hstop : Forall (fun c => c <> "."%char) (group 2 mt)).
  { destruct Hscan as [(_ & _ & Hin) | (_ & _ & Hin)];
      apply finditer_sound in Hin as (pre & s' & _ & Hm).
    - exact (run_reason_group
               [ Cls (any_of "Dd"); Chr "o"; Rep true 1 blank; word "not";
                 Rep true 1 blank; word "travel"; Rep true 1 blank; word "to";
                 Rep true 1 (blank_or ":"); Grp 1 (Rep false 1 dot);
                 Rep true 1 blank; word "due"; Rep true 1 blank; word "to";
                 Rep true 1 blank ] _ _ _ Hm).
    - exact (run_reason_group
               [ Cls (any_of "Rr"); word "econsider"; Rep true 1 blank;
                 word "travel"; Rep true 1 blank; word "to";
                 Rep true 1 (blank_or ":"); Grp 1 (Rep false 1 dot);
                 Rep true 1 blank; word "due"; Rep true 1 blank; word "to";
                 Rep true 1 blank ] _ _ _ Hm). }
  split; [|split; [|split; [|split]]].
  - eapply part_of_trans; [apply clean_region_substring|].
    eapply part_of_trans; [apply part_of_strip | apply Hparts].
  - eapply part_of_trans; [apply part_of_strip | apply Hparts].
  - unfold clean_region; apply strip_idem.
  - apply strip_idem.
  - intros Hin.
    pose proof (part_of_forall _ _ _ (part_of_strip (group 2 mt)) Hstop) as H.
    rewrite Forall_forall in H; exact (H _ Hin eq_refl).
Qed.

Lemma extract_regional_warnings_texts_witness :
  strip (lit "Sinai Peninsula") = lit "Sinai Peninsula".
Proof.
  apply (extract_regional_warnings_texts unescape_plain sinai_text 2
           sinai_warning).
  vm_compute; left; reflexivity.
Defined.

(** ** Greedy runs *)

Lemma span_split p s :
  s = firstn (span_len p s) s ++ drop_while p s
  /\ Forall (fun c => p c = true) (firstn (span_len p s) s)
  /\ List.length (firstn (span_len p s) s) = span_len p s
  /\ match drop_while p s with c :: _ => p c = false | [] => True end.
Proof.
  induction s as [|c s (H1 & H2 & H3 & H4)]; simpl; [repeat split; constructor|].
  destruct (p c) eqn:E; simpl.
  - repeat split; [f_equal; exact H1 | constructor; assumption | f_equal; exact H3
                   | exact H4].
  - rewrite E; repeat split; constructor.
Qed.

(** A greedy run in front of something that cannot start with a character
    of the run takes the whole run. *)
Lemma rep_greedy_stop p k :
  (forall pos c s cs, p c = true -> k pos (c :: s) cs = None) ->
  forall s n pos cs,
    rep true p k s n pos cs
    = if Nat.leb n (span_len p s)
      then k (pos + span_len p s) (drop_while p s) cs
      else None.
Proof.
  intros Hk; induction s as [|c s IH]; intros n pos cs.
  - destruct n; simpl; [rewrite Nat.add_0_r|]; reflexivity.
  - destruct n as [|n]; simpl; destruct (p c) eqn:E.
    + rewrite (Hk pos c s cs E), orelse_none_r, IH; simpl.
      rewrite Nat.add_succ_r; reflexivity.
    + rewrite Nat.add_0_r; reflexivity.
    + rewrite IH, Nat.add_succ_r; reflexivity.
    + reflexivity.
Qed.

(** A greedy run at the end of a pattern takes the whole run. *)
Lemma rep_greedy_accept p : forall s n pos cs,
  rep true p accept s n pos cs
  = if Nat.leb n (span_len p s)
    then Some (mk_rmatch (pos + span_len p s) (drop_while p s) cs)
    else None.
Proof.
  induction s as [|c s IH]; intros n pos cs.
  - destruct n; simpl; [rewrite Nat.add_0_r|]; reflexivity.
  - destruct n as [|n]; simpl; destruct (p c) eqn:E.
    + rewrite IH; simpl; rewrite Nat.add_succ_r; reflexivity.
    + unfold accept; rewrite Nat.add_0_r; reflexivity.
    + rewrite IH, Nat.add_succ_r; reflexivity.
    + reflexivity.
Qed.

Lemma match_at_run n cls pos s :
  match_at false (Rep true n cls) pos s
  = if Nat.leb n (span_len (cls_matches false cls) s)
    then Some (mk_rmatch (pos + span_len (cls_matches false cls) s)
                         (drop_while (cls_matches false cls) s) [])
    else None.
Proof. apply (rep_greedy_accept (cls_matches false cls)). Qed.

(** ** The pass that removes the tags *)

Lemma none_of_gt c :
  cls_matches false (none_of ">") c = negb (eqb_char c ">").
Proof.
  unfold cls_matches, none_of, one_of; cbn.
  rewrite orb_false_r; reflexivity.
Qed.

Lemma eqb_char_sym a b : eqb_char a b = eqb_char b a.
Proof. apply bool_eq_iff; rewrite !eqb_char_eq; split; congruence. Qed.

(** One attempt of the tag pattern. *)
Lemma match_at_tag pos s :
  match_at false tag_re pos s
  = match s with
    | c :: s1 =>
        if eqb_char "<" c then
          if Nat.leb 1 (span_len (cls_matches false (none_of ">")) s1) then
            match drop_while (cls_matches false (none_of ">")) s1 with
            | d :: rest =>
                Some (mk_rmatch
                        (S (S pos + span_len (cls_matches false (none_of ">")) s1))
                        rest [])
            | [] => None
            end
          else None
        else None
    | [] => None
    end.
Proof.
  unfold match_at, tag_re; cbn [seq run].
  destruct s as [|c s1]; [reflexivity|].
  unfold chr_matches at 1; destruct (eqb_char "<" c); [|reflexivity].
  rewrite rep_greedy_stop.
  - destruct (Nat.leb 1 _); [|reflexivity].
    destruct (span_split (cls_matches false (none_of ">")) s1) as (_ & _ & _ & Hd).
    destruct (drop_while (cls_matches false (none_of ">")) s1) as [|d rest];
      [reflexivity|].
    rewrite none_of_gt in Hd; apply negb_false_iff in Hd.
    unfold chr_matches; rewrite eqb_char_sym, Hd; reflexivity.
  - intros q c' u v Hc; unfold chr_matches.
    rewrite none_of_gt in Hc; apply negb_true_iff in Hc.
    rewrite eqb_char_sym, Hc; reflexivity.
Qed.

(** Substituting the empty text only removes characters. *)
Lemma sub_from_erase_in ic r x : forall fuel pos s,
  In x (sub_from ic r [] fuel pos s) -> In x s.
Proof.
  induction fuel as [|fuel IH]; intros pos s H; simpl in H; [exact H|].
  destruct (match_at ic r pos s) as [mt|] eqn:E.
  - destruct (Nat.ltb pos (m_end mt)).
    + apply match_at_sound in E as (pre & -> & _).
      apply in_or_app; right; eapply IH; exact H.
    + destruct s as [|c s]; [exact H|].
      destruct H as [<- | H]; [left; reflexivity | right; eapply IH; exact H].
  - destruct s as [|c s]; [exact H|].
    destruct H as [<- | H]; [left; reflexivity | right; eapply IH; exact H].
Qed.

Lemma tag_free_nil : tag_free [].
Proof. intros [|c pre] body post H; discriminate H. Qed.

Lemma tag_free_cons c s :
  tag_free s ->
  (c = "<"%char ->
   forall body post, s = body ++ ">"%char :: post ->
                     Forall (fun c => c <> ">"%char) body -> body = []) ->
  tag_free (c :: s).
Proof.
  intros Hs Hc [|c' pre] body post H Hall.
  - injection H as -> ->; eapply Hc; eauto.
  - injection H as -> ->; eapply Hs; eauto.
Qed.

Lemma tag_free_tail c s : tag_free (c :: s) -> tag_free s.
Proof.
  intros H pre body post -> Hall.
  apply (H (c :: pre) body post); [reflexivity | exact Hall].
Qed.

Lemma tag_pass_free : forall fuel pos s,
  List.length s < fuel -> tag_free (sub_from false tag_re [] fuel pos s).
Proof.
  induction fuel as [|fuel IH]; intros pos s Hlen; [lia|].
  cbn [sub_from]; rewrite match_at_tag.
  destruct s as [|c s1]; [apply tag_free_nil|].
  simpl in Hlen.
  pose proof (span_split (cls_matches false (none_of ">")) s1)
    as (Hs1 & Hall & Hl & Hd).
  assert (Hkeep : (c = "<"%char ->
                   Nat.leb 1 (span_len (cls_matches false (none_of ">")) s1) = false
                   \/ drop_while (cls_matches false (none_of ">")) s1 = []) ->
                  tag_free (c :: sub_from false tag_re [] fuel (S pos) s1)).
  { intros Hfail; apply tag_free_cons; [apply IH; lia|].
    intros Hc body post Hout Hbody.
    destruct (Hfail Hc) as [Hspan | Hdrop].
    - (* nothing but [>] may follow the [<] *)
      destruct s1 as [|d s2].
      + destruct fuel; simpl in Hout; destruct body; discriminate Hout.
      + simpl in Hspan.
        destruct (cls_matches false (none_of ">") d) eqn:Ed; [discriminate|].
        rewrite none_of_gt in Ed; apply negb_false_iff, eqb_char_eq in Ed.
        subst d.
        destruct fuel as [|fuel']; [simpl in Hlen; lia|].
        cbn [sub_from] in Hout; rewrite match_at_tag in Hout.
        change (eqb_char "<" ">") with false in Hout; cbv iota in Hout.
        destruct body as [|b body]; [reflexivity|].
        injection Hout as <- _.
        inversion Hbody; congruence.
    - (* no [>] follows the [<] *)
      exfalso.
      assert (Hin : In ">"%char s1).
      { eapply sub_from_erase_in; rewrite Hout.
        apply in_or_app; right; left; reflexivity. }
      rewrite Hs1, Hdrop, app_nil_r in Hin.
      rewrite Forall_forall in Hall; specialize (Hall _ Hin).
      rewrite none_of_gt in Hall; discriminate Hall. }
  destruct (eqb_char "<" c) eqn:Ec.
  - destruct (Nat.leb 1 _) eqn:Espan; [|apply Hkeep; auto].
    destruct (drop_while _ s1) as [|d rest] eqn:Edrop; [apply Hkeep; auto|].
    (* a tag: it is removed *)
    cbn [m_end m_rest].
    replace (Nat.ltb pos _) with true by (symmetry; apply Nat.ltb_lt; lia).
    cbn [app]; apply IH.
    apply (f_equal (@List.length _)) in Hs1.
    rewrite length_app in Hs1; simpl in Hs1; lia.
  - apply Hkeep; intros ->; discriminate Ec.
Qed.

(** ** Leaving out blanks *)

Lemma thins_refl p s : thins p s s.
Proof. induction s; constructor; assumption. Qed.

Lemma thins_trans p s t u : thins p s t -> thins p t u -> thins p s u.
Proof.
  intros H; revert u; induction H as [|c s t _ IH|c s t Hc _ IH]; intros u Hu.
  - exact Hu.
  - inversion Hu; subst; [apply thins_keep | apply thins_drop]; auto.
  - apply thins_drop; auto.
Qed.

Lemma thins_app p s1 o1 s2 o2 :
  thins p s1 o1 -> thins p s2 o2 -> thins p (s1 ++ s2) (o1 ++ o2).
Proof.
  induction 1; intros H2; simpl; [exact H2 | apply thins_keep | apply thins_drop];
    auto.
Qed.

Lemma thins_all p s : Forall (fun c => p c = true) s -> thins p s [].
Proof. induction 1; [constructor | apply thins_drop; assumption]. Qed.

Lemma thins_nil_inv p s :
  thins p s [] -> Forall (fun c => p c = true) s.
Proof.
  intros H; remember [] as o eqn:E; induction H; try discriminate;
    constructor; auto.
Qed.

(** A kept character splits the text. *)
Lemma thins_cons_inv p s c out :
  thins p s (c :: out) ->
  exists d s', s = d ++ c :: s' /\ Forall (fun x => p x = true) d
               /\ thins p s' out.
Proof.
  intros H; remember (c :: out) as o eqn:E.
  induction H as [|c0 s o' H IH|c0 s o' Hc H IH].
  - discriminate.
  - injection E as -> ->; exists [], s; repeat split; [constructor | exact H].
  - destruct (IH E) as (d & s' & -> & Hd & Hs).
    exists (c0 :: d), s'; repeat split; [constructor; assumption | exact Hs].
Qed.

Lemma thins_app_inv p : forall o1 s o2,
  thins p s (o1 ++ o2) ->
  exists s1 s2, s = s1 ++ s2 /\ thins p s1 o1 /\ thins p s2 o2.
Proof.
  induction o1 as [|c o1 IH]; intros s o2 H.
  - exists [], s; repeat split; [constructor | exact H].
  - simpl in H; apply thins_cons_inv in H as (d & s' & -> & Hd & H).
    apply IH in H as (s1 & s2 & -> & H1 & H2).
    exists (d ++ c :: s1), s2; rewrite <- app_assoc; repeat split; [|exact H2].
    apply (thins_app p d [] (c :: s1) (c :: o1));
      [apply thins_all; exact Hd | apply thins_keep; exact H1].
Qed.

Lemma thins_forall p (P : ascii -> Prop) s out :
  (forall c, p c = true -> P c) ->
  thins p s out -> Forall P out -> Forall P s.
Proof.
  intros Hp; induction 1; intros Ho; [constructor | |].
  - inversion Ho; constructor; auto.
  - constructor; auto.
Qed.

(** Leaving out characters other than ["<"] and [">"] makes no tag. *)
Lemma thins_tag_free p s out :
  p "<"%char = false -> p ">"%char = false ->
  thins p s out -> tag_free s -> tag_free out.
Proof.
  intros Hlt Hgt H Hs pre body post -> Hbody.
  apply thins_app_inv in H as (s1 & s2 & -> & H1 & H).
  apply thins_cons_inv in H as (d & s3 & -> & Hd & H).
  apply thins_app_inv in H as (s4 & s5 & -> & H4 & H).
  apply thins_cons_inv in H as (d' & s6 & -> & Hd' & H6).
  assert (Hne : forall c, p c = true -> c <> ">"%char)
    by (intros c Hc ->; congruence).
  assert (E : s4 ++ d' = []).
  { apply (Hs (s1 ++ d) (s4 ++ d') s6).
    - rewrite <- !app_assoc; reflexivity.
    - apply Forall_app; split.
      + eapply thins_forall; [exact Hne | exact H4 | exact Hbody].
      + eapply Forall_impl; [|exact Hd']. exact Hne. }
  apply app_eq_nil in E as [-> _].
  inversion H4; reflexivity.
Qed.

Lemma thins_lstrip s : thins isspace s (lstrip s).
Proof.
  induction s as [|c s IH]; simpl; [constructor|].
  destruct (isspace c) eqn:E; [apply thins_drop; assumption | apply thins_refl].
Qed.

Lemma thins_rev p s out : thins p s out -> thins p (rev s) (rev out).
Proof.
  induction 1 as [|c s o _ IH|c s o Hc _ IH]; simpl; [constructor | |].
  - apply thins_app; [exact IH | apply thins_refl].
  - rewrite <- (app_nil_r (rev o)).
    apply thins_app; [exact IH | apply thins_drop; [exact Hc | constructor]].
Qed.

Lemma thins_strip s : thins isspace s (strip s).
Proof.
  unfold strip, rstrip.
  eapply thins_trans; [apply thins_lstrip|].
  rewrite <- (rev_involutive (lstrip s)) at 1.
  apply thins_rev, thins_lstrip.
Qed.

(** ** The passes that squeeze runs *)

Lemma span_only x s :
  firstn (span_len (cls_matches false (only x)) s) s
  = repeat x (span_len (cls_matches false (only x)) s).
Proof.
  induction s as [|c s IH]; simpl; [reflexivity|].
  unfold cls_matches at 1 3; cbn [only negated member xorb].
  destruct (eqb_char x c) eqn:E; [|reflexivity].
  apply eqb_char_eq in E; subst c; simpl; f_equal; exact IH.
Qed.

Lemma only_eqb x c : cls_matches false (only x) c = eqb_char x c.
Proof. reflexivity. Qed.

Lemma thins_repeat p x m n s out :
  p x = true -> m <= n -> thins p s out ->
  thins p (repeat x n ++ s) (repeat x m ++ out).
Proof.
  intros Hx Hmn Hs; revert m Hmn; induction n as [|n IH]; intros m Hmn.
  - assert (m = 0) by lia; subst m; exact Hs.
  - destruct m as [|m]; simpl.
    + apply thins_drop; [exact Hx | apply (IH 0); lia].
    + apply thins_keep, IH; lia.
Qed.

(** Replacing the runs of [n] or more [x] by [m <= n] of them leaves out
    some [x]. *)
Lemma run_pass_thins p x n m : 
  p x = true -> 1 <= n -> m <= n ->
  forall fuel pos s,
    thins p s (sub_from false (Rep true n (only x)) (repeat x m) fuel pos s).
Proof.
  intros Hx Hn Hm; induction fuel as [|fuel IH]; intros pos s;
    [apply thins_refl|].
  cbn [sub_from]; rewrite match_at_run.
  destruct (Nat.leb_spec n (span_len (cls_matches false (only x)) s))
    as [Hspan | Hspan].
  - cbn [m_end m_rest].
    replace (Nat.ltb pos _) with true by (symmetry; apply Nat.ltb_lt; lia).
    destruct (span_split (cls_matches false (only x)) s) as (Hs & _).
    rewrite Hs at 1; rewrite span_only.
    apply thins_repeat; [exact Hx | lia | apply IH].
  - destruct s as [|c s]; [constructor | apply thins_keep, IH].
Qed.

(** ** The text the normalizer returns *)

Lemma tag_free_no_match s :
  tag_free s -> forall fuel pos, finditer_from false tag_re fuel pos s = [].
Proof.
  intros Hs fuel; revert s Hs; induction fuel as [|fuel IH]; intros s Hs pos;
    [reflexivity|].
  cbn [finditer_from]; rewrite match_at_tag.
  destruct s as [|c s1]; [reflexivity|].
  assert (Hnext : finditer_from false tag_re fuel (S pos) s1 = [])
    by (apply IH; eapply tag_free_tail; exact Hs).
  destruct (eqb_char "<" c) eqn:Ec; [|exact Hnext].
  destruct (Nat.leb_spec 1 (span_len (cls_matches false (none_of ">")) s1))
    as [Hspan | Hspan]; [|exact Hnext].
  destruct (span_split (cls_matches false (none_of ">")) s1)
    as (Hs1 & Hall & Hl & Hd).
  destruct (drop_while (cls_matches false (none_of ">")) s1) as [|d rest];
    [exact Hnext | exfalso].
  rewrite none_of_gt in Hd; apply negb_false_iff, eqb_char_eq in Hd; subst d.
  apply eqb_char_eq in Ec; subst c.
  assert (E : firstn (span_len (cls_matches false (none_of ">")) s1) s1 = []).
  { apply (Hs [] _ rest); [simpl; rewrite <- Hs1; reflexivity|].
    eapply Forall_impl; [|exact Hall].
    intros c Hc ->; rewrite none_of_gt in Hc; discriminate Hc. }
  rewrite E in Hl; simpl in Hl; lia.
Qed.

(** X18 (no tag is left).  Whatever [html.unescape] returns, the text the
    normalizer returns holds no tag: the pattern [<[^>]+>] has no match in
    it, that is, no ["<"] in it is followed by one or more characters other
    than [">"] and then a [">"]. *)
Theorem clean_html_no_tag :
  forall (unescape : str -> str) (text : str),
    finditer false tag_re (clean_html unescape text) = []
    /\ tag_free (clean_html unescape text).
Proof.
  intros unescape text.
  assert (H : tag_free (clean_html unescape text)).
  { unfold clean_html.
    set (t := sub true li_re _ _).
    apply (thins_tag_free isspace
             (sub false spaces_re (lit " ")
                (sub false newlines_re (NL ++ NL) (sub false tag_re [] t))));
      [reflexivity | reflexivity | apply thins_strip |].
    apply (thins_tag_free isspace
             (sub false newlines_re (NL ++ NL) (sub false tag_re [] t)));
      [reflexivity | reflexivity | |].
    { apply (run_pass_thins isspace " " 1 1); auto; reflexivity. }
    apply (thins_tag_free isspace (sub false tag_re [] t));
      [reflexivity | reflexivity | |].
    { apply (run_pass_thins isspace LF 3 2); auto; reflexivity. }
    apply tag_pass_free; auto. }
  split; [|exact H].
  apply tag_free_no_match; exact H.
Qed.

(** ** Runs of newlines and spaces *)

Lemma span_len_app_le p u b : span_len p u <= span_len p (u ++ b).
Proof.
  induction u as [|c u IH]; simpl; [lia|].
  destruct (p c); lia.
Qed.

Lemma max_run_part x k t s : part_of t s -> max_run x k s -> max_run x k t.
Proof.
  intros (a & b & ->) Hs pre u ->.
  pose proof (span_len_app_le (eqb_char x) u b).
  specialize (Hs (a ++ pre) (u ++ b)).
  rewrite <- !app_assoc in Hs; specialize (Hs eq_refl); lia.
Qed.

Lemma max_run_nil x k : max_run x k [].
Proof.
  intros pre t H; symmetry in H; apply app_eq_nil in H as [_ ->]; simpl; lia.
Qed.

Lemma max_run_cons x k c s :
  span_len (eqb_char x) (c :: s) <= k -> max_run x k s -> max_run x k (c :: s).
Proof.
  intros Hc Hs [|c' pre] t H.
  - simpl in H; subst t; exact Hc.
  - injection H as _ ->; eapply Hs; reflexivity.
Qed.

Lemma max_run_tail x k c s : max_run x k (c :: s) -> max_run x k s.
Proof. intros H pre t ->; apply (H (c :: pre) t); reflexivity. Qed.

Lemma max_run_contains x k s :
  max_run x k s -> contains (repeat x (S k)) s = false.
Proof.
  intros H; destruct (contains (repeat x (S k)) s) eqn:E; [|reflexivity].
  apply contains_iff in E as (pre & post & ->).
  specialize (H pre _ eq_refl).
  assert (Hr : forall n t, n <= span_len (eqb_char x) (repeat x n ++ t)).
  { induction n as [|n IH]; intros t; simpl; [lia|].
    change (eqb_char x x) with (Ascii.eqb x x); rewrite Ascii.eqb_refl.
    specialize (IH t); lia. }
  specialize (Hr (S k) post); lia.
Qed.

Lemma span_repeat_other x y n t :
  x <> y -> 1 <= n -> span_len (eqb_char y) (repeat x n ++ t) = 0.
Proof.
  intros Hne Hn; destruct n as [|n]; [lia|]; simpl.
  destruct (eqb_char y x) eqn:E; [|reflexivity].
  apply eqb_char_eq in E; congruence.
Qed.

Lemma span_repeat_same x n t :
  span_len (eqb_char x) t = 0 ->
  span_len (eqb_char x) (repeat x n ++ t) = n.
Proof.
  intros Ht; induction n as [|n IH]; simpl; [exact Ht|].
  change (eqb_char x x) with (Ascii.eqb x x); rewrite Ascii.eqb_refl.
  rewrite IH; reflexivity.
Qed.

Lemma max_run_repeat x y k n t :
  (x = y -> n <= k /\ span_len (eqb_char y) t = 0) ->
  max_run y k t -> max_run y k (repeat x n ++ t).
Proof.
  intros Hxy Ht; induction n as [|n IH]; [exact Ht|].
  cbn [repeat app]; apply max_run_cons.
  - destruct (ascii_dec x y) as [E | Hne].
    + destruct (Hxy E) as [Hn Hz]; subst y.
      change (x :: repeat x n ++ t) with (repeat x (S n) ++ t).
      rewrite span_repeat_same by exact Hz; exact Hn.
    + change (x :: repeat x n ++ t) with (repeat x (S n) ++ t).
      rewrite span_repeat_other by (auto; lia); lia.
  - apply IH; intros E; destruct (Hxy E); split; [lia | assumption].
Qed.

Lemma span_drop_while p s : span_len p (drop_while p s) = 0.
Proof.
  destruct (span_split p s) as (_ & _ & _ & Hd).
  destruct (drop_while p s) as [|c t]; [reflexivity|].
  simpl; rewrite Hd; reflexivity.
Qed.

Lemma drop_while_length p s :
  List.length (drop_while p s) + span_len p s = List.length s.
Proof.
  induction s as [|c s IH]; simpl; [reflexivity|].
  destruct (p c); simpl; lia.
Qed.

Lemma drop_while_part p s : part_of (drop_while p s) s.
Proof.
  destruct (span_split p s) as (Hs & _).
  exists (firstn (span_len p s) s), []; rewrite app_nil_r; exact Hs.
Qed.

(** After a pass that replaces the runs of [n] or more [x] by [m <= n] of
    them, the runs of [x] are of [max m (n - 1)] at most. *)
Lemma run_pass_same x n m :
  1 <= n -> m <= n ->
  forall fuel pos s,
    List.length s < fuel ->
    max_run x (Nat.max m (n - 1))
            (sub_from false (Rep true n (only x)) (repeat x m) fuel pos s)
    /\ span_len (eqb_char x)
                (sub_from false (Rep true n (only x)) (repeat x m) fuel pos s)
       <= span_len (eqb_char x) s.
Proof.
  intros Hn Hm; induction fuel as [|fuel IH]; intros pos s Hlen; [lia|].
  cbn [sub_from]; rewrite match_at_run.
  change (cls_matches false (only x)) with (eqb_char x).
  destruct (Nat.leb_spec n (span_len (eqb_char x) s)) as [Hspan | Hspan].
  - cbn [m_end m_rest].
    replace (Nat.ltb pos _) with true by (symmetry; apply Nat.ltb_lt; lia).
    pose proof (drop_while_length (eqb_char x) s) as Hl.
    destruct (IH (pos + span_len (eqb_char x) s) (drop_while (eqb_char x) s))
      as [Hmax Hlead]; [lia|].
    rewrite span_drop_while in Hlead.
    split.
    + apply max_run_repeat; [intros _; split; lia | exact Hmax].
    + rewrite span_repeat_same by lia; lia.
  - destruct s as [|c s1]; [split; [apply max_run_nil | simpl; lia]|].
    simpl in Hlen; destruct (IH (S pos) s1) as [Hmax Hlead]; [lia|].
    assert (Hle : span_len (eqb_char x)
                    (c :: sub_from false (Rep true n (only x)) (repeat x m)
                            fuel (S pos) s1)
                  <= span_len (eqb_char x) (c :: s1)).
    { simpl; destruct (eqb_char x c); lia. }
    split; [|exact Hle].
    apply max_run_cons; [lia | exact Hmax].
Qed.

(** Such a pass, with [m >= 1], makes no run of another character
    longer. *)
Lemma run_pass_other x y n m k :
  x <> y -> 1 <= n -> 1 <= m ->
  forall fuel pos s,
    List.length s < fuel ->
    max_run y k s ->
    max_run y k (sub_from false (Rep true n (only x)) (repeat x m) fuel pos s)
    /\ span_len (eqb_char y)
                (sub_from false (Rep true n (only x)) (repeat x m) fuel pos s)
       <= span_len (eqb_char y) s.
Proof.
  intros Hxy Hn Hm; induction fuel as [|fuel IH]; intros pos s Hlen Hs; [lia|].
  cbn [sub_from]; rewrite match_at_run.
  change (cls_matches false (only x)) with (eqb_char x).
  destruct (Nat.leb_spec n (span_len (eqb_char x) s)) as [Hspan | Hspan].
  - cbn [m_end m_rest].
    replace (Nat.ltb pos _) with true by (symmetry; apply Nat.ltb_lt; lia).
    pose proof (drop_while_length (eqb_char x) s) as Hl.
    destruct (IH (pos + span_len (eqb_char x) s) (drop_while (eqb_char x) s))
      as [Hmax _]; [lia | eapply max_run_part; [apply drop_while_part | exact Hs]|].
    split.
    + apply max_run_repeat; [intros E; contradiction | exact Hmax].
    + rewrite span_repeat_other by assumption; lia.
  - destruct s as [|c s1]; [split; [apply max_run_nil | simpl; lia]|].
    simpl in Hlen.
    destruct (IH (S pos) s1) as [Hmax Hlead];
      [lia | eapply max_run_tail; exact Hs|].
    assert (Hle : span_len (eqb_char y)
                    (c :: sub_from false (Rep true n (only x)) (repeat x m)
                            fuel (S pos) s1)
                  <= span_len (eqb_char y) (c :: s1)).
    { simpl; destruct (eqb_char y c); lia. }
    split; [|exact Hle].
    apply max_run_cons; [|exact Hmax].
    pose proof (Hs [] (c :: s1) eq_refl); lia.
Qed.

(** X19 (blanks of the normalized text).  Whatever [html.unescape]
    returns, the text the normalizer returns has no blank at either end,
    no two spaces in a row and no three newlines in a row. *)
Theorem clean_html_whitespace :
  forall (unescape : str -> str) (text : str),
    strip (clean_html unescape text) = clean_html unescape text
    /\ contains (lit "  ") (clean_html unescape text) = false
    /\ contains (NL ++ NL ++ NL) (clean_html unescape text) = false.
Proof.
  intros unescape text; unfold clean_html.
  set (t := sub false tag_re [] _).
  assert (Hnl : max_run LF 2 (sub false newlines_re (NL ++ NL) t)).
  { apply (run_pass_same LF 3 2); auto. }
  assert (Hsp : max_run " " 1
                  (sub false spaces_re (lit " ")
                     (sub false newlines_re (NL ++ NL) t))).
  { apply (run_pass_same " " 1 1); auto. }
  assert (Hnl' : max_run LF 2
                   (sub false spaces_re (lit " ")
                      (sub false newlines_re (NL ++ NL) t))).
  { apply (run_pass_other " " LF 1 1 2); auto; discriminate. }
  split; [apply strip_idem|]. split.
  - apply (max_run_contains " " 1).
    eapply max_run_part; [apply part_of_strip | exact Hsp].
  - apply (max_run_contains LF 2).
    eapply max_run_part; [apply part_of_strip | exact Hnl'].
Qed.
(** ** Flags *)

Lemma regional_indicator_letter c :
  is_ascii c = true ->
  is_regional_indicator (0x1F1E6 + ord (capital_char c) - ord "A")%Z
  = is_letter c.
Proof. each_char c; intros H; try discriminate H; reflexivity. Qed.

Lemma upper_lower_char c : upper_char (lower_char c) = upper_char c.
Proof. each_char c; reflexivity. Qed.

Lemma upper_lower s : upper (lower s) = upper s.
Proof.
  unfold lower, upper; rewrite flat_map_concat_map, map_map.
  rewrite (map_ext _ _ upper_lower_char), <- flat_map_concat_map.
  reflexivity.
Qed.

Lemma is_ascii_lower_char c : is_ascii c = true -> is_ascii (lower_char c) = true.
Proof. each_char c; intros H; try discriminate H; reflexivity. Qed.

Lemma upper_ascii_length code :
  Forall (fun c => is_ascii c = true) code ->
  List.length (upper code) = List.length code.
Proof.
  intros H; rewrite (upper_ascii code H); unfold to_text.
  rewrite !length_map; reflexivity.
Qed.

Lemma truthy_length (s : str) : truthy s = negb (Nat.eqb (List.length s) 0).
Proof. destruct s; reflexivity. Qed.

Lemma join_chars_ascii code :
  Forall (fun c => is_ascii c = true) code ->
  join_chars regional_indicator code
  = Ok (map (fun u => (0x1F1E6 + u - ord "A")%Z) (upper code)).
Proof.
  induction 1 as [|c code Hc _ IH]; [reflexivity|].
  cbn [join_chars upper flat_map]; fold (upper code).
  unfold regional_indicator at 1.
  rewrite (upper_char_ascii c Hc), IH; reflexivity.
Qed.

(** The flag of a code of ASCII characters is read off the upper-case form
    of the code. *)
Lemma flag_upper code :
  Forall (fun c => is_ascii c = true) code ->
  country_code_to_flag code
  = Ok (if Nat.eqb (List.length (upper code)) 2
        then map (fun u => (0x1F1E6 + u - ord "A")%Z) (upper code)
        else []).
Proof.
  intros H; unfold country_code_to_flag.
  rewrite (upper_ascii_length code H), truthy_length.
  destruct (Nat.eqb_spec (List.length code) 2) as [E | E].
  - rewrite E; cbn [Nat.eqb negb orb]; apply join_chars_ascii; exact H.
  - rewrite orb_true_r; reflexivity.
Qed.

Lemma map_inj {A B} (f : A -> B) (l l' : list A) :
  (forall x y, f x = f y -> x = y) -> map f l = map f l' -> l = l'.
Proof.
  intros Hf; revert l'; induction l as [|x l IH]; intros [|y l'] E;
    try discriminate E; [reflexivity|].
  cbn [map] in E; injection E as Exy E.
  f_equal; [apply Hf; exact Exy | apply IH; exact E].
Qed.

Lemma ok_inj {A} (a b : A) : Ok a = Ok b -> a = b.
Proof. intros H; injection H as H; exact H. Qed.

Lemma ord_inj a b : ord a = ord b -> a = b.
Proof. unfold ord; intros H; apply code_inj; lia. Qed.

(** X20 (flags are pairs of regional indicators).  On a code of ASCII
    characters, [country_code_to_flag] returns the empty text unless the
    code has two characters; on two characters it returns two characters,
    and these are regional indicator symbols -- a flag -- exactly when the
    two characters of the code are letters. *)
Theorem country_code_to_flag_spec :
  forall code : str,
    Forall (fun c => is_ascii c = true) code ->
    (List.length code <> 2 -> country_code_to_flag code = Ok [])
    /\ (List.length code = 2 ->
        exists flag,
          country_code_to_flag code = Ok flag
          /\ List.length flag = 2
          /\ forallb is_regional_indicator flag = forallb is_letter code).
Proof.
  intros code Hascii; rewrite (flag_upper code Hascii).
  rewrite (upper_ascii_length code Hascii); split.
  - intros Hne.
    destruct (Nat.eqb_spec (List.length code) 2) as [E | _]; [contradiction|].
    reflexivity.
  - intros Hlen; rewrite Hlen; cbn [Nat.eqb].
    eexists; split; [reflexivity|].
    rewrite length_map, (upper_ascii_length code Hascii); split; [exact Hlen|].
    rewrite (upper_ascii code Hascii); unfold to_text; rewrite !map_map.
    clear Hlen; induction Hascii as [|c code Hc _ IH]; [reflexivity|].
    cbn [map forallb]; rewrite IH, (regional_indicator_letter c Hc).
    reflexivity.
Qed.

Lemma country_code_to_flag_spec_witness :
  exists flag,
    country_code_to_flag (lit "mx") = Ok flag
    /\ forallb is_regional_indicator flag = true.
Proof.
  destruct (country_code_to_flag_spec (lit "mx")) as [_ H].
  - repeat constructor.
  - destruct (H eq_refl) as (flag & E & _ & Hf).
    exists flag; split; [exact E | rewrite Hf; reflexivity].
Defined.

(** X21 (flags ignore letter case).  On codes of ASCII characters the flag
    depends on the upper-case form of the code only, so a code and its
    lower-case form have the same flag, and two advisories with non-empty
    codes and the same identity key have the same flag; two codes of two
    characters with the same flag are the same up to letter case. *)
Theorem country_code_to_flag_case :
  forall code1 code2 : str,
    Forall (fun c => is_ascii c = true) code1 ->
    Forall (fun c => is_ascii c = true) code2 ->
    (upper code1 = upper code2 ->
     country_code_to_flag code1 = country_code_to_flag code2)
    /\ country_code_to_flag (lower code1) = country_code_to_flag code1
    /\ (List.length code1 = 2 -> List.length code2 = 2 ->
        country_code_to_flag code1 = country_code_to_flag code2 ->
        upper code1 = upper code2)
    /\ (forall a b,
           country_code a = code1 -> country_code b = code2 ->
           truthy code1 = true -> truthy code2 = true ->
           identity_key a = identity_key b -> flag_emoji a = flag_emoji b).
Proof.
  intros code1 code2 H1 H2.
  assert (Hup : upper code1 = upper code2 ->
                country_code_to_flag code1 = country_code_to_flag code2).
  { intros E; rewrite (flag_upper code1 H1), (flag_upper code2 H2), E.
    reflexivity. }
  split; [exact Hup|].
  split.
  { assert (Hl : Forall (fun c => is_ascii c = true) (lower code1)).
    { apply Forall_map; eapply Forall_impl; [|exact H1].
      intros c Hc; apply is_ascii_lower_char; exact Hc. }
    rewrite (flag_upper _ Hl), (flag_upper code1 H1), upper_lower.
    reflexivity. }
  split.
  - intros L1 L2; rewrite (flag_upper code1 H1), (flag_upper code2 H2).
    rewrite !upper_ascii_length, L1, L2 by assumption; cbn [Nat.eqb].
    intros E; apply ok_inj in E.
    apply (map_inj (fun u => (0x1F1E6 + u - ord "A")%Z)); [|exact E].
    intros x y; generalize (ord "A"); intros k Hxy; lia.
  - intros a b Ea Eb T1 T2 Hkey; unfold flag_emoji.
    rewrite Ea, Eb; apply Hup; unfold identity_key in Hkey.
    rewrite Ea, Eb, T1, T2 in Hkey; exact Hkey.
Qed.

Lemma country_code_to_flag_case_witness :
  country_code_to_flag (lit "mx") = country_code_to_flag (lit "MX").
Proof.
  destruct (country_code_to_flag_case (lit "mx") (lit "MX")) as [H _].
  - repeat constructor.
  - repeat constructor.
  - apply H; reflexivity.
Defined.

(** ** The audit of the prohibited countries *)

Lemma assoc_set_new key value d :
  ~ In key (map fst d) -> assoc_set key value d = d ++ [(key, value)].
Proof.
  induction d as [|[k v] d IH]; simpl; [reflexivity|].
  intros H; destruct (str_eqb key k) eqn:E.
  - apply str_eqb_eq in E; subst; tauto.
  - rewrite IH by tauto; reflexivity.
Qed.

Lemma find_first {A} (f : A -> bool) l a :
  find f l = Some a ->
  exists pre post,
    l = pre ++ a :: post /\ f a = true
    /\ Forall (fun b => f b = false) pre.
Proof.
  induction l as [|x l IH]; simpl; [discriminate|].
  destruct (f x) eqn:E.
  - intros H; injection H as <-; exists [], l; repeat split; auto.
  - intros H; destruct (IH H) as (pre & post & -> & Ha & Hpre).
    exists (x :: pre), post; repeat split; auto.
Qed.

Lemma first_match_none name advisories :
  first_match name advisories = None <-> matches_name advisories name = false.
Proof.
  unfold first_match, matches_name; induction advisories as [|a l IH]; simpl;
    [tauto|].
  destruct (contains (lower name) (lower (country_name a))); simpl;
    [split; discriminate | exact IH].
Qed.

Lemma audit_loop_spec advisories names : forall self,
  NoDup names ->
  (forall n, In n names -> ~ In n (map fst (prohibited_matched self))) ->
  audit_loop names advisories self
  = mk_lists
      (prohibited_matched self
       ++ flat_map (fun n => match first_match n advisories with
                             | Some m => [(n, country_name m)]
                             | None => []
                             end) names)
      (prohibited_unmatched self
       ++ filter (fun n => negb (matches_name advisories n)) names)
      (level_4_countries self) (level_3_countries self)
      (regional_countries self) (high_risk_names self).
Proof.
  induction names as [|n names IH]; intros self Hnd Hfresh.
  - simpl; rewrite !app_nil_r; destruct self; reflexivity.
  - inversion Hnd as [|? ? Hnotin Hnd']; subst.
    cbn [audit_loop flat_map filter].
    pose proof (first_match_none n advisories) as Hnone.
    destruct (first_match n advisories) as [m|].
    + assert (Hm : matches_name advisories n = true).
      { destruct (matches_name advisories n) eqn:Em; [reflexivity|].
        discriminate (proj2 Hnone eq_refl). }
      rewrite Hm, IH; cbn [negb prohibited_matched prohibited_unmatched
                          level_4_countries level_3_countries
                          regional_countries high_risk_names]; auto.
      * rewrite assoc_set_new by (apply Hfresh; left; reflexivity).
        rewrite <- app_assoc; reflexivity.
      * intros x Hx; cbn [prohibited_matched].
        rewrite assoc_set_new by (apply Hfresh; left; reflexivity).
        rewrite map_app, in_app_iff; simpl.
        intros [H | [H | []]]; [exact (Hfresh x (or_intror Hx) H)|].
        subst x; contradiction.
    + rewrite (proj1 Hnone eq_refl), IH;
        cbn [negb prohibited_matched prohibited_unmatched
             level_4_countries level_3_countries
             regional_countries high_risk_names]; auto.
      * rewrite <- app_assoc; reflexivity.
      * intros x Hx; apply Hfresh; right; exact Hx.
Qed.

Lemma prohibited_keys_nodup : NoDup (map fst PROHIBITED_COUNTRIES).
Proof.
  repeat constructor; simpl; intuition discriminate.
Qed.

Lemma audit_lists advisories :
  prohibited_matched (populate_prohibited_audit new_lists advisories)
  = flat_map (fun n => match first_match n advisories with
                       | Some m => [(n, country_name m)]
                       | None => []
                       end) (map fst PROHIBITED_COUNTRIES)
  /\ prohibited_unmatched (populate_prohibited_audit new_lists advisories)
     = filter (fun n => negb (matches_name advisories n))
              (map fst PROHIBITED_COUNTRIES).
Proof.
  unfold populate_prohibited_audit.
  rewrite audit_loop_spec; [split; reflexivity | exact prohibited_keys_nodup|].
  intros n _ [].
Qed.

Lemma matched_keys advisories names :
  map fst (flat_map (fun n => match first_match n advisories with
                              | Some m => [(n, country_name m)]
                              | None => []
                              end) names)
  = filter (matches_name advisories) names.
Proof.
  induction names as [|n names IH]; simpl; [reflexivity|].
  pose proof (first_match_none n advisories) as Hnone.
  destruct (first_match n advisories) as [m|].
  - destruct (matches_name advisories n) eqn:Em;
      [simpl; rewrite IH; reflexivity|].
    discriminate (proj2 Hnone eq_refl).
  - rewrite (proj1 Hnone eq_refl); exact IH.
Qed.

(** X22 (the audit lists).  Starting from empty lists,
    [populate_prohibited_audit] files each of the six prohibited countries
    once: under [prohibited_matched], with the name of the first advisory
    whose name contains the country's name in whatever letter case, or
    under [prohibited_unmatched] when there is no such advisory; both keep
    the order of [PROHIBITED_COUNTRIES]. *)
Theorem populate_prohibited_audit_spec :
  forall advisories : list TravelAdvisory,
    map fst (prohibited_matched (populate_prohibited_audit new_lists advisories))
    = filter (matches_name advisories) (map fst PROHIBITED_COUNTRIES)
    /\ prohibited_unmatched (populate_prohibited_audit new_lists advisories)
       = filter (fun n => negb (matches_name advisories n))
                (map fst PROHIBITED_COUNTRIES)
    /\ List.length
         (prohibited_matched (populate_prohibited_audit new_lists advisories))
       + List.length
           (prohibited_unmatched (populate_prohibited_audit new_lists advisories))
       = 6
    /\ (forall n v,
           In (n, v)
              (prohibited_matched (populate_prohibited_audit new_lists advisories)) ->
           exists pre a post,
             advisories = pre ++ a :: post /\ v = country_name a
             /\ contains (lower n) (lower v) = true
             /\ Forall (fun b => contains (lower n) (lower (country_name b))
                                 = false) pre).
Proof.
  intros advisories; destruct (audit_lists advisories) as [Hm Hu].
  assert (Hkeys : map fst (prohibited_matched
                             (populate_prohibited_audit new_lists advisories))
                  = filter (matches_name advisories) (map fst PROHIBITED_COUNTRIES))
    by (rewrite Hm; apply matched_keys).
  split; [exact Hkeys|]. split; [exact Hu|]. split.
  - rewrite <- (length_map fst), Hkeys, Hu.
    rewrite (filter_length_split (matches_name advisories)
                                 (map fst PROHIBITED_COUNTRIES)).
    reflexivity.
  - intros n v Hin; rewrite Hm in Hin.
    apply in_flat_map in Hin as (n' & _ & Hin).
    destruct (first_match n' advisories) as [m|] eqn:E; [|destruct Hin].
    destruct Hin as [H | []]; injection H as -> <-.
    apply find_first in E as (pre & post & -> & Hc & Hpre).
    exists pre, m, post; auto.
Qed.

Lemma prohibited_keys_listed :
  Forall (fun n => In (lower n) PROHIBITED_COUNTRY_NAMES)
         (map fst PROHIBITED_COUNTRIES).
Proof.
  apply Forall_forall; intros n Hn.
  assert (H : forallb (fun n => existsb (str_eqb (lower n))
                                        PROHIBITED_COUNTRY_NAMES)
                      (map fst PROHIBITED_COUNTRIES) = true)
    by (vm_compute; reflexivity).
  rewrite forallb_forall in H; specialize (H n Hn).
  apply existsb_exists in H as (x & Hx & E).
  apply str_eqb_eq in E; rewrite E; exact Hx.
Qed.

Lemma matches_name_false advisories name :
  matches_name advisories name = false
  <-> forall a, In a advisories ->
                contains (lower name) (lower (country_name a)) = false.
Proof.
  unfold matches_name; induction advisories as [|a l IH]; simpl.
  - split; [intros _ a [] | reflexivity].
  - rewrite orb_false_iff, IH; split.
    + intros [H1 H2] b [<- | Hb]; auto.
    + intros H; split; [apply H; auto | intros b Hb; apply H; auto].
Qed.

(** X23 (the audit sees every advisory that names a prohibited country).
    An advisory whose name contains the name of one of the six prohibited
    countries is a prohibited country for the classifier; so, on the
    prohibited output of the classifier, the audit reports a country as
    unmatched exactly when no advisory of the classifier's whole input has
    a name that contains the country's name. *)
Theorem audit_after_filter :
  forall (advisories : list TravelAdvisory) (name : str),
    In name (map fst PROHIBITED_COUNTRIES) ->
    (forall a, contains (lower name) (lower (country_name a)) = true ->
               is_prohibited_country (country_name a) = true)
    /\ matches_name (fst (filter_high_risk advisories)) name
       = matches_name advisories name
    /\ (In name (prohibited_unmatched
                   (populate_prohibited_audit new_lists
                      (fst (filter_high_risk advisories))))
        <-> forall a, In a advisories ->
                      contains (lower name) (lower (country_name a)) = false).
Proof.
  intros l name Hname.
  assert (Hproh : forall a,
             contains (lower name) (lower (country_name a)) = true ->
             is_prohibited_country (country_name a) = true).
  { intros a Hc; apply is_prohibited_iff.
    apply contains_iff in Hc as (pre & post & E).
    exists (lower name), pre, post; split; [|exact E].
    pose proof prohibited_keys_listed as H.
    rewrite Forall_forall in H; exact (H name Hname). }
  assert (Hsame : matches_name (fst (filter_high_risk l)) name
                  = matches_name l name).
  { apply bool_eq_iff; unfold matches_name; rewrite !existsb_exists; split.
    - intros (a & Ha & Hc); exists a; split; [|exact Hc].
      apply in_prohibited_list in Ha; tauto.
    - intros (a & Ha & Hc); exists a; split; [|exact Hc].
      apply in_prohibited_list; auto. }
  split; [exact Hproh|]. split; [exact Hsame|].
  destruct (audit_lists (fst (filter_high_risk l))) as [_ ->].
  rewrite filter_In, negb_true_iff, Hsame, matches_name_false; tauto.
Qed.

Lemma audit_after_filter_witness :
  matches_name (fst (filter_high_risk [mexico_3; north_korea_4]))
               (lit "North Korea")
  = matches_name [mexico_3; north_korea_4] (lit "North Korea").
Proof.
  destruct (audit_after_filter [mexico_3; north_korea_4] (lit "North Korea"))
    as (_ & H & _); [|exact H].
  right; right; right; left; reflexivity.
Defined.

(** ** The breakdown by level and the statistics *)

Lemma breakdown_lists high_risk : forall self,
  populate_high_risk_breakdown self high_risk
  = mk_lists
      (prohibited_matched self) (prohibited_unmatched self)
      (level_4_countries self
       ++ map country_name
              (filter (fun a => (overall_level a =? 4)%Z) high_risk))
      (level_3_countries self
       ++ map country_name
              (filter (fun a => (overall_level a =? 3)%Z) high_risk))
      (regional_countries self
       ++ map country_name
              (filter (fun a => negb (overall_level a =? 4)%Z
                                && negb (overall_level a =? 3)%Z) high_risk))
      (high_risk_names self ++ map country_name high_risk).
Proof.
  induction high_risk as [|adv rest IH]; intros self.
  - simpl; rewrite !app_nil_r; destruct self; reflexivity.
  - cbn [populate_high_risk_breakdown filter map]; rewrite IH.
    destruct (Z.eqb_spec (overall_level adv) 4) as [E | N].
    + replace (overall_level adv =? 3)%Z with false by (rewrite E; reflexivity).
      cbn [negb andb prohibited_matched prohibited_unmatched level_4_countries
           level_3_countries regional_countries high_risk_names map].
      rewrite <- !app_assoc; reflexivity.
    + destruct (overall_level adv =? 3)%Z;
        cbn [negb andb prohibited_matched prohibited_unmatched level_4_countries
             level_3_countries regional_countries high_risk_names map];
        rewrite <- !app_assoc; reflexivity.
Qed.

Lemma filter_three_way {A} (f g : A -> bool) l :
  (forall x, f x = true -> g x = false) ->
  List.length (filter f l) + List.length (filter g l)
  + List.length (filter (fun x => negb (f x) && negb (g x)) l)
  = List.length l.
Proof.
  intros Hfg; induction l as [|x l IH]; simpl; [reflexivity|].
  destruct (f x) eqn:Ef; [rewrite (Hfg x Ef); simpl; lia|].
  destruct (g x); simpl; lia.
Qed.

(** X24 (the breakdown by level).  Starting from empty lists,
    [populate_high_risk_breakdown] files the name of every advisory once
    under [high_risk_names], in order, and once under exactly one of the
    three level lists: level 4, level 3, or -- for every other level,
    above 4 as well as below 3 -- the regional list; so the three lists
    together are as long as the list of advisories. *)
Theorem populate_high_risk_breakdown_spec :
  forall high_risk : list TravelAdvisory,
    high_risk_names (populate_high_risk_breakdown new_lists high_risk)
    = map country_name high_risk
    /\ level_4_countries (populate_high_risk_breakdown new_lists high_risk)
       = map country_name
             (filter (fun a => (overall_level a =? 4)%Z) high_risk)
    /\ level_3_countries (populate_high_risk_breakdown new_lists high_risk)
       = map country_name
             (filter (fun a => (overall_level a =? 3)%Z) high_risk)
    /\ regional_countries (populate_high_risk_breakdown new_lists high_risk)
       = map country_name
             (filter (fun a => negb (overall_level a =? 4)%Z
                               && negb (overall_level a =? 3)%Z) high_risk)
    /\ List.length
         (level_4_countries (populate_high_risk_breakdown new_lists high_risk))
       + List.length
           (level_3_countries (populate_high_risk_breakdown new_lists high_risk))
       + List.length
           (regional_countries (populate_high_risk_breakdown new_lists high_risk))
       = List.length high_risk.
Proof.
  intros h; rewrite breakdown_lists.
  cbn [new_lists prohibited_matched prohibited_unmatched level_4_countries
       level_3_countries regional_countries high_risk_names app].
  repeat split.
  rewrite !length_map; apply filter_three_way.
  intros a H; apply Z.eqb_eq in H; rewrite H; reflexivity.
Qed.

Lemma count_filter_ext {A} (f g : A -> bool) l :
  (forall x, In x l -> f x = g x) -> count f l = count g l.
Proof.
  intros H; unfold count; do 2 f_equal; apply filter_ext_in; exact H.
Qed.

Lemma classified_elevated l a :
  In a (snd (filter_high_risk l)) -> (overall_level a < 3)%Z ->
  has_regional_elevation a = true.
Proof.
  intros Ha Hlt; apply in_high_risk_list in Ha as (_ & _ & Hr).
  unfold is_high_risk in Hr.
  destruct (Z.leb_spec 3 (overall_level a)); [lia|].
  simpl in Hr; apply andb_true_iff in Hr; tauto.
Qed.

Lemma filter_four_way {A} (lvl : A -> Z) l :
  (count (fun a => lvl a =? 4) l + count (fun a => lvl a =? 3) l
   + count (fun a => lvl a <? 3) l + count (fun a => 4 <? lvl a) l
   = Z.of_nat (List.length l))%Z.
Proof.
  unfold count; induction l as [|x l IH]; simpl; [reflexivity|].
  destruct (Z.eqb_spec (lvl x) 4), (Z.eqb_spec (lvl x) 3),
    (Z.ltb_spec (lvl x) 3), (Z.ltb_spec 4 (lvl x));
    simpl List.length; try lia.
Qed.

Lemma count_other_levels {A} (lvl : A -> Z) l :
  (count (fun a => negb (lvl a =? 4) && negb (lvl a =? 3)) l
   = count (fun a => lvl a <? 3) l + count (fun a => 4 <? lvl a) l)%Z.
Proof.
  unfold count; induction l as [|x l IH]; simpl; [reflexivity|].
  destruct (Z.eqb_spec (lvl x) 4), (Z.eqb_spec (lvl x) 3),
    (Z.ltb_spec (lvl x) 3), (Z.ltb_spec 4 (lvl x));
    cbn [negb andb]; simpl List.length; try lia.
Qed.

(** X25 (the three counts of the report agree up to level 4).  On the
    high-risk output of the classifier, the statistics of the PDF, the
    lists [main] counts on the console and the breakdown of the
    verification log give the same numbers of level-4 and of level-3
    countries; the PDF and the console give the same number of countries
    with regional warnings, the advisories below level 3; the breakdown
    adds to these the advisories above level 4, and the statistics of the
    PDF add up to the number of high-risk advisories less those. *)
Theorem report_counts :
  forall advisories : list TravelAdvisory,
    let prohibited := fst (filter_high_risk advisories) in
    let high_risk := snd (filter_high_risk advisories) in
    let stats := create_report_stats prohibited high_risk in
    let lists := populate_high_risk_breakdown new_lists high_risk in
    stat_level_4 stats = Z.of_nat (List.length (main_level_4 high_risk))
    /\ stat_level_4 stats = Z.of_nat (List.length (level_4_countries lists))
    /\ stat_level_3 stats = Z.of_nat (List.length (main_level_3 high_risk))
    /\ stat_level_3 stats = Z.of_nat (List.length (level_3_countries lists))
    /\ stat_regional stats = Z.of_nat (List.length (main_regional high_risk))
    /\ (Z.of_nat (List.length (regional_countries lists))
        = stat_regional stats
          + count (fun a => 4 <? overall_level a) high_risk)%Z
    /\ (stat_level_4 stats + stat_level_3 stats + stat_regional stats
        = Z.of_nat (List.length high_risk)
          - count (fun a => 4 <? overall_level a) high_risk)%Z
    /\ (stat_total stats
        = stat_prohibited stats + Z.of_nat (List.length high_risk))%Z.
Proof.
  intros l p h stats lists.
  assert (Hreg : stat_regional stats
                 = count (fun a => (overall_level a <? 3)%Z) h).
  { apply count_filter_ext; intros a Ha.
    destruct (Z.ltb_spec (overall_level a) 3) as [Hlt | _]; [|reflexivity].
    rewrite (classified_elevated l a Ha Hlt); reflexivity. }
  pose proof (filter_four_way overall_level h) as H4.
  pose proof (count_other_levels overall_level h) as Hother.
  assert (El : lists
               = mk_lists [] []
                   (map country_name
                        (filter (fun a => (overall_level a =? 4)%Z) h))
                   (map country_name
                        (filter (fun a => (overall_level a =? 3)%Z) h))
                   (map country_name
                        (filter (fun a => negb (overall_level a =? 4)%Z
                                          && negb (overall_level a =? 3)%Z) h))
                   (map country_name h))
    by (unfold lists; rewrite breakdown_lists; reflexivity).
  rewrite El; cbn [level_4_countries level_3_countries regional_countries].
  rewrite !length_map.
  split; [reflexivity|]. split; [reflexivity|].
  split; [reflexivity|]. split; [reflexivity|].
  split; [exact Hreg|].
  split; [rewrite Hreg; exact Hother|].
  split; [|reflexivity].
  rewrite Hreg.
  change (stat_level_4 stats) with (count (fun a => (overall_level a =? 4)%Z) h).
  change (stat_level_3 stats) with (count (fun a => (overall_level a =? 3)%Z) h).
  lia.
Qed.

(** ** The texts handed to the PDF library *)

Lemma replace_char_app old new a b :
  replace_char old new (a ++ b) = replace_char old new a ++ replace_char old new b.
Proof. apply flat_map_app. Qed.

Lemma replace_all_app rs : forall a b,
  fold_left (fun t r => replace_char (fst r) (snd r) t) rs (a ++ b)
  = fold_left (fun t r => replace_char (fst r) (snd r) t) rs a
    ++ fold_left (fun t r => replace_char (fst r) (snd r) t) rs b.
Proof.
  induction rs as [|r rs IH]; intros a b; simpl; [reflexivity|].
  rewrite replace_char_app; apply IH.
Qed.

Lemma clean_text_app a b : _clean_text (a ++ b) = _clean_text a ++ _clean_text b.
Proof.
  unfold _clean_text, latin_1_replace; rewrite replace_all_app; apply map_app.
Qed.

Lemma clean_text_cons c t : _clean_text (c :: t) = _clean_text [c] ++ _clean_text t.
Proof. apply (clean_text_app [c] t). Qed.

Ltac clean_cases c :=
  unfold _clean_text, latin_1_replace, replacements;
  cbn [fold_left fst snd]; unfold replace_char;
  repeat match goal with
         | |- context [flat_map ?f [c]] =>
             change (flat_map f [c]) with (f c ++ []); cbv beta;
             match goal with
             | |- context [(c =? ?k)%Z] =>
                 destruct (Z.eqb_spec c k); [subst c; vm_compute | rewrite app_nil_r]
             end
         end.

(** A character that is not replaced and that Latin-1 has stays. *)
Lemma clean_text_keeps c :
  is_latin_1 c = true -> c <> 160%Z -> _clean_text [c] = [c].
Proof.
  unfold is_latin_1; rewrite andb_true_iff, Z.leb_le, Z.leb_le.
  intros [H0 H255] H160.
  clean_cases c; try lia.
  cbn [map]; destruct (Z.leb_spec c 255); [reflexivity | lia].
Qed.

(** What a character becomes is in Latin-1 and is not replaced again. *)
Lemma clean_text_one c :
  (0 <= c)%Z ->
  Forall (fun x => is_latin_1 x = true /\ x <> 160%Z) (_clean_text [c])
  /\ 1 <= List.length (_clean_text [c]).
Proof.
  intros H0.
  clean_cases c;
    try (split; [repeat constructor; discriminate | lia]).
  cbn [map List.length]; split; [|lia].
  destruct (Z.leb_spec c 255) as [H | H]; repeat constructor;
    try discriminate; try assumption.
  unfold is_latin_1; apply andb_true_iff; split; apply Z.leb_le; lia.
Qed.

Lemma clean_text_fixed t :
  Forall (fun x => is_latin_1 x = true /\ x <> 160%Z) t -> _clean_text t = t.
Proof.
  induction 1 as [|c t [Hc Hn] _ IH]; [reflexivity|].
  rewrite clean_text_cons, IH, clean_text_keeps by assumption; reflexivity.
Qed.

Lemma clean_text_all t :
  Forall (fun c => is_code_point c = true) t ->
  Forall (fun x => is_latin_1 x = true /\ x <> 160%Z) (_clean_text t)
  /\ List.length t <= List.length (_clean_text t).
Proof.
  induction 1 as [|c t Hc _ [IH1 IH2]]; [split; [constructor | simpl; lia]|].
  unfold is_code_point in Hc; apply andb_true_iff in Hc as [Hc _].
  apply Z.leb_le in Hc.
  destruct (clean_text_one c Hc) as [H1 H2].
  rewrite clean_text_cons, length_app; split.
  - apply Forall_app; split; assumption.
  - simpl; lia.
Qed.

(** X26 (texts for the PDF are Latin-1).  [_clean_text] turns every text
    into one of Latin-1 characters, at least as long, that holds none of
    the characters it replaces; it changes nothing in a text of Latin-1
    characters without a no-break space, so applying it twice is applying
    it once. *)
Theorem clean_text_latin_1 :
  forall t : text,
    Forall (fun c => is_code_point c = true) t ->
    Forall (fun c => is_latin_1 c = true) (_clean_text t)
    /\ (forall r, In r replacements -> ~ In (fst r) (_clean_text t))
    /\ List.length t <= List.length (_clean_text t)
    /\ _clean_text (_clean_text t) = _clean_text t
    /\ (Forall (fun c => is_latin_1 c = true /\ c <> 160%Z) t ->
        _clean_text t = t).
Proof.
  intros t Ht; destruct (clean_text_all t Ht) as [Hall Hlen].
  split; [eapply Forall_impl; [|exact Hall]; intros c [Hc _]; exact Hc|].
  split; [|split; [exact Hlen|split; [apply clean_text_fixed; exact Hall
                                     | apply clean_text_fixed]]].
  intros r Hr Hin; rewrite Forall_forall in Hall.
  destruct (Hall _ Hin) as [Hl Hn].
  unfold is_latin_1 in Hl; apply andb_true_iff in Hl as [_ Hl].
  apply Z.leb_le in Hl.
  simpl in Hr;
    repeat (destruct Hr as [<- | Hr]; [simpl in Hl, Hn; lia|]);
    destruct Hr.
Qed.

Lemma clean_text_latin_1_witness :
  List.length [0x201c; 72; 105; 0x2026; 0x201d]%Z
  <= List.length (_clean_text [0x201c; 72; 105; 0x2026; 0x201d]%Z).
Proof.
  apply (clean_text_latin_1 [0x201c; 72; 105; 0x2026; 0x201d]%Z).
  repeat constructor.
Defined.

(** ** The summary section of the report *)

Lemma level_append_init k adv l4 l3 l2 l1 :
  level_append k adv [(4, l4); (3, l3); (2, l2); (1, l1)]%Z
  = if (k =? 4)%Z then Found [(4, l4 ++ [adv]); (3, l3); (2, l2); (1, l1)]%Z
    else if (k =? 3)%Z then Found [(4, l4); (3, l3 ++ [adv]); (2, l2); (1, l1)]%Z
    else if (k =? 2)%Z then Found [(4, l4); (3, l3); (2, l2 ++ [adv]); (1, l1)]%Z
    else if (k =? 1)%Z then Found [(4, l4); (3, l3); (2, l2); (1, l1 ++ [adv])]%Z
    else KeyError k.
Proof.
  cbn [level_append].
  destruct (k =? 4)%Z; [reflexivity|].
  destruct (k =? 3)%Z; [reflexivity|].
  destruct (k =? 2)%Z; [reflexivity|].
  destruct (k =? 1)%Z; reflexivity.
Qed.

(** The loop raises on the first advisory whose level has no list, and
    otherwise sorts the advisories into the four lists, in order. *)
Lemma fill_by_level_spec advisories : forall l4 l3 l2 l1,
  fill_by_level advisories [(4, l4); (3, l3); (2, l2); (1, l1)]%Z
  = match find (fun a => negb (has_summary_level a)) advisories with
    | Some a => KeyError (overall_level a)
    | None =>
        Found [ (4, l4 ++ filter (fun a => overall_level a =? 4) advisories);
                (3, l3 ++ filter (fun a => overall_level a =? 3) advisories);
                (2, l2 ++ filter (fun a => overall_level a =? 2) advisories);
                (1, l1 ++ filter (fun a => overall_level a =? 1) advisories) ]%Z
    end.
Proof.
  induction advisories as [|adv rest IH]; intros l4 l3 l2 l1.
  - simpl; rewrite !app_nil_r; reflexivity.
  - cbn [fill_by_level find filter]; rewrite level_append_init.
    unfold has_summary_level at 1.
    destruct (Z.eqb_spec (overall_level adv) 4) as [E4 | N4].
    { rewrite IH, E4; cbn; rewrite <- !app_assoc; reflexivity. }
    destruct (Z.eqb_spec (overall_level adv) 3) as [E3 | N3].
    { rewrite IH, E3; cbn; rewrite <- !app_assoc; reflexivity. }
    destruct (Z.eqb_spec (overall_level adv) 2) as [E2 | N2].
    { rewrite IH, E2; cbn; rewrite <- !app_assoc; reflexivity. }
    destruct (Z.eqb_spec (overall_level adv) 1) as [E1 | N1].
    { rewrite IH, E1; cbn; rewrite <- !app_assoc; reflexivity. }
    destruct (Z.leb_spec 1 (overall_level adv)),
             (Z.leb_spec (overall_level adv) 4); cbn [andb negb];
      try reflexivity; lia.
Qed.

Lemma find_app_first {A} (f : A -> bool) pre a post :
  Forall (fun b => f b = false) pre -> f a = true ->
  find f (pre ++ a :: post) = Some a.
Proof.
  induction 1 as [|b pre Hb _ IH]; intros Ha; simpl.
  - rewrite Ha; reflexivity.
  - rewrite Hb; apply IH; exact Ha.
Qed.

Lemma find_none_forall {A} (f : A -> bool) l :
  find f l = None <-> Forall (fun b => f b = false) l.
Proof.
  induction l as [|x l IH]; simpl; [split; [constructor | reflexivity]|].
  destruct (f x) eqn:E.
  - split; [discriminate | intros H; inversion H; congruence].
  - rewrite IH; split; [intros H; constructor; assumption
                       | intros H; inversion H; assumption].
Qed.

Lemma add_summary_section_cases advisories :
  add_summary_section advisories
  = match find (fun a => negb (has_summary_level a)) advisories with
    | Some a => KeyError (overall_level a)
    | None =>
        Found (flat_map
                 (fun level =>
                    level_cells level
                      (filter (fun a => (overall_level a =? level)%Z) advisories))
                 [4; 3; 2; 1]%Z)
    end.
Proof.
  unfold add_summary_section, by_level_init.
  rewrite fill_by_level_spec.
  destruct (find _ advisories); reflexivity.
Qed.

(** X27 (the summary section needs levels 1 to 4).  The grouping loop of
    [add_summary_section] raises [KeyError] exactly when an advisory has an
    overall level outside 1 to 4, with the level of the first such
    advisory; otherwise the section holds, for each of the levels 4, 3, 2
    and 1 that some advisory has, one header and the names of the
    advisories of that level, sorted. *)
Theorem add_summary_section_key_error :
  forall advisories : list TravelAdvisory,
    (forall k,
        add_summary_section advisories = KeyError k
        <-> exists pre a post,
              advisories = pre ++ a :: post /\ overall_level a = k
              /\ has_summary_level a = false
              /\ Forall (fun b => has_summary_level b = true) pre)
    /\ (Forall (fun a => has_summary_level a = true) advisories
        <-> add_summary_section advisories
            = Found (flat_map
                       (fun level =>
                          level_cells level
                            (filter (fun a => (overall_level a =? level)%Z)
                                    advisories))
                       [4; 3; 2; 1]%Z)).
Proof.
  intros advisories; rewrite add_summary_section_cases.
  assert (Hneg : forall l,
             Forall (fun b => negb (has_summary_level b) = false) l
             <-> Forall (fun b => has_summary_level b = true) l).
  { intros l; split; intros H; eapply Forall_impl; try exact H;
      intros b Hb; simpl in *; [apply negb_false_iff | apply negb_false_iff];
      exact Hb. }
  split.
  - intros k; split.
    + destruct (find _ advisories) as [a|] eqn:E; [|discriminate].
      intros H; injection H as <-.
      apply find_first in E as (pre & post & -> & Ha & Hpre).
      exists pre, a, post; repeat split; auto.
      * apply negb_true_iff; exact Ha.
      * apply Hneg; exact Hpre.
    + intros (pre & a & post & -> & <- & Ha & Hpre).
      rewrite (find_app_first _ pre a post);
        [reflexivity | apply Hneg; exact Hpre | rewrite Ha; reflexivity].
  - split.
    + intros H; apply Hneg, find_none_forall in H; rewrite H; reflexivity.
    + destruct (find _ advisories) as [a|] eqn:E; [discriminate|].
      intros _; apply Hneg, find_none_forall; exact E.
Qed.

(** ** The summary section on the pipeline's high-risk list *)

Lemma parse_advisory_level unescape fromisoformat now raw a :
  parse_advisory unescape fromisoformat now raw = Some a ->
  (0 <= overall_level a <= 9)%Z
  /\ (overall_level a = 0%Z -> is_prohibited_country (country_name a) = true).
Proof.
  intros Hp.
  assert (Hd : discarded raw = false).
  { destruct (discarded raw) eqn:E; [|reflexivity].
    apply (parse_advisory_none unescape fromisoformat now) in E; congruence. }
  apply parse_advisory_name in Hp as (Hn & Hl & _).
  split.
  - rewrite Hl.
    destruct (parse_title_cases (get (Title raw) []))
      as [E | (pre & t & d & rest & _ & _ & _ & Htok & E)]; rewrite E;
      cbn [snd]; [lia|].
    apply isdigit_value, (level_token_digit _ _ _ Htok).
  - unfold discarded in Hd.
    destruct (parse_level_from_title (get (Title raw) [])) as [name lvl].
    cbn [fst snd] in Hn, Hl; rewrite Hn, Hl; intros ->.
    apply negb_false_iff; exact Hd.
Qed.

Lemma parse_all_in unescape fromisoformat clock raws a : forall i,
  In a (fst (parse_all unescape fromisoformat clock i raws)) ->
  exists j raw,
    In raw raws /\ parse_advisory unescape fromisoformat (clock j) raw = Some a.
Proof.
  induction raws as [|raw raws IH]; intros i; [intros []|].
  cbn [parse_all]; specialize (IH (S i)).
  destruct (parse_all unescape fromisoformat clock (S i) raws) as [advs n].
  cbn [fst] in IH.
  destruct (parse_advisory unescape fromisoformat (clock i) raw) as [p|] eqn:E;
    cbn [fst].
  - intros [<- | Hin].
    + exists i, raw; split; [left; reflexivity | exact E].
    + destruct (IH Hin) as (j & r & Hr & Hp).
      exists j, r; split; [right; exact Hr | exact Hp].
  - intros Hin; destruct (IH Hin) as (j & r & Hr & Hp).
    exists j, r; split; [right; exact Hr | exact Hp].
Qed.

Lemma pipeline_high_risk_levels unescape fromisoformat clock raws res a :
  pipeline unescape fromisoformat clock raws = Ok res ->
  In a (high_risk_list res) -> (1 <= overall_level a <= 9)%Z.
Proof.
  intros Hp Ha.
  apply pipeline_ok in Hp as (deduped & dups & Hd & _ & Hh & _).
  rewrite Hh in Ha; apply in_high_risk_list in Ha as (Hin & Hnp & _).
  apply (deduplicate_subset _ _ _ Hd), parse_all_in in Hin
    as (j & raw & _ & Hparse).
  apply parse_advisory_level in Hparse as [Hrange H0].
  assert (overall_level a <> 0%Z) by (intros E; rewrite (H0 E) in Hnp; discriminate).
  lia.
Qed.

(** X28 (the summary section on the pipeline's own high-risk list).  When
    the pipeline of [main] returns, every advisory of its high-risk list
    has an overall level from 1 to 9; [add_summary_section] on that list
    raises [KeyError] exactly when one of these levels is 5 or more, and the
    key it reports is then between 5 and 9.  The assertions do not look at
    the level, so the report of a run that passed them can still fail
    here. *)
Theorem pipeline_summary_section :
  forall (unescape : str -> str) (fromisoformat : str -> option datetime)
         (clock : nat -> datetime) (raws : list raw_record)
         (res : pipeline_result),
    pipeline unescape fromisoformat clock raws = Ok res ->
    Forall (fun a => (1 <= overall_level a <= 9)%Z) (high_risk_list res)
    /\ ((exists k, add_summary_section (high_risk_list res) = KeyError k)
        <-> exists a, In a (high_risk_list res) /\ (5 <= overall_level a)%Z)
    /\ (forall k, add_summary_section (high_risk_list res) = KeyError k ->
          (5 <= k <= 9)%Z).
Proof.
  intros unescape fromisoformat clock raws res Hp.
  assert (Hlv : forall a, In a (high_risk_list res) ->
                  (1 <= overall_level a <= 9)%Z).
  { intros a; eapply pipeline_high_risk_levels; exact Hp. }
  assert (Hkey : forall k,
             add_summary_section (high_risk_list res) = KeyError k ->
             exists a, In a (high_risk_list res) /\ overall_level a = k
                       /\ (5 <= k <= 9)%Z).
  { intros k; rewrite add_summary_section_cases.
    destruct (find _ (high_risk_list res)) as [a|] eqn:E; [|discriminate].
    intros H; injection H as <-.
    apply find_some in E as [Hin Hneg].
    exists a; split; [exact Hin|]. split; [reflexivity|].
    specialize (Hlv a Hin); apply negb_true_iff in Hneg.
    unfold has_summary_level in Hneg; apply andb_false_iff in Hneg.
    rewrite !Z.leb_gt in Hneg; lia. }
  split; [apply Forall_forall; exact Hlv|]. split.
  - split.
    + intros [k Hk]; destruct (Hkey k Hk) as (a & Hin & <- & Hr).
      exists a; split; [exact Hin | lia].
    + intros (a & Hin & H5); rewrite add_summary_section_cases.
      destruct (find _ (high_risk_list res)) as [b|] eqn:E;
        [exists (overall_level b); reflexivity|].
      apply (find_none _ _ E) in Hin; apply negb_false_iff in Hin.
      unfold has_summary_level in Hin; apply andb_true_iff in Hin.
      rewrite !Z.leb_le in Hin; lia.
  - intros k Hk; destruct (Hkey k Hk) as (_ & _ & _ & Hr); exact Hr.
Qed.

Lemma pipeline_summary_section_witness :
  exists res,
    pipeline unescape_plain fromisoformat_fixed midnight_clock [raw_level_5]
    = Ok res
    /\ assertions_passed res = true
    /\ exists k, add_summary_section (high_risk_list res) = KeyError k
                 /\ (5 <= k <= 9)%Z.
Proof.
  eexists; split; [reflexivity|]. split; [vm_compute; reflexivity|].
  exists 5%Z; split; [vm_compute; reflexivity|].
  apply (pipeline_summary_section unescape_plain fromisoformat_fixed
           midnight_clock [raw_level_5] _ eq_refl).
  vm_compute; reflexivity.
Defined.

(** ** What the fingerprint covers *)

Lemma insert_map {A B K} (f : A -> B) (key : A -> K) (key' : B -> K)
      (ltb : K -> K -> bool) x l :
  (forall a, key a = key' (f a)) ->
  map f (insert key ltb x l) = insert key' ltb (f x) (map f l).
Proof.
  intros Hk; induction l as [|y l IH]; [reflexivity|].
  cbn [insert map]; rewrite <- !Hk.
  destruct (ltb (key y) (key x)); cbn [map]; [rewrite IH|]; reflexivity.
Qed.

Lemma sort_by_map {A B K} (f : A -> B) (key : A -> K) (key' : B -> K)
      (ltb : K -> K -> bool) l :
  (forall a, key a = key' (f a)) ->
  map f (sort_by key ltb l) = sort_by key' ltb (map f l).
Proof.
  intros Hk; induction l as [|x l IH]; [reflexivity|].
  cbn [sort_by map]; rewrite (insert_map f key key' ltb _ _ Hk), IH.
  reflexivity.
Qed.

Lemma compute_data_hash_of_fields advisories :
  compute_data_hash advisories
  = Sha256.hexdigest
      (flat_map
         (fun '(code, name, lvl, updated) =>
            encode (code ++ lit "|" ++ name ++ lit "|" ++ str_of_int lvl
                    ++ lit "|" ++ isoformat updated))
         (sort_by (fun '(code, name, _, _) =>
                     if truthy code then code else name : str)
                  str_ltb (map hashed_fields advisories))).
Proof.
  unfold compute_data_hash.
  rewrite <- (sort_by_map hashed_fields hash_key) by (intros a; reflexivity).
  rewrite flat_map_concat_map, (flat_map_concat_map _ (map _ _)), map_map.
  reflexivity.
Qed.

(** X29 (what the fingerprint covers).  The fingerprint of a list of
    advisories is determined by the country code, the country name, the
    overall level and the timestamp of each advisory, in the order of the
    list: two lists that agree on these fields have the same fingerprint,
    whatever their summaries, links and regional warnings. *)
Theorem compute_data_hash_fields :
  forall l1 l2 : list TravelAdvisory,
    map hashed_fields l1 = map hashed_fields l2 ->
    compute_data_hash l1 = compute_data_hash l2.
Proof.
  intros l1 l2 H; rewrite !compute_data_hash_of_fields, H; reflexivity.
Qed.

Lemma compute_data_hash_fields_witness :
  regional_warnings delta_2_regional_4 <> regional_warnings (advisory "Delta" "DD" 2 [])
  /\ compute_data_hash [delta_2_regional_4]
     = compute_data_hash [advisory "Delta" "DD" 2 []].
Proof.
  split; [discriminate|].
  apply (compute_data_hash_fields [delta_2_regional_4]
                                  [advisory "Delta" "DD" 2 []]).
  reflexivity.
Defined.
